(** * The matching core of the trading engine, embedded in Rocq

    Source: [trading-engine/include/types.hpp] and
    [trading-engine/src/{balance_service,order_service,orderbook,
    matching_engine,trading_engine}.cpp].

    Conventions of the embedding.
    - [int64_t] and [uint64_t] values are integers in [Z]; every arithmetic
      result is reduced by [i64] (two's complement) or [u64] as the C++ type
      of the expression prescribes.  A product [Price * Quantity] is computed
      in [uint64_t] and stored in an [int64_t], which is [i64] of the
      mathematical product.
    - A [std::shared_ptr<Order>] is represented by the order's id: the
      registry [orders_] is the store of the order objects, and the books and
      price levels hold ids.  [generateOrderId] hands out a distinct id per
      object until the 64-bit counter wraps.
    - A [std::map] that is only searched by key is a [gmap]; the two price
      ladders, which are iterated in comparator order, are association lists
      kept in that order.
    - The callbacks [tradeCallback_] and [orderUpdateCallback_] are modelled
      by the log [emitted] of the values they were invoked with.
    - Time stamps and mutexes are left out: one operation runs at a time. *)

From Stdlib Require Import ZArith List Lia Bool.
From stdpp Require Import base option list sorting gmap strings.

Local Open Scope Z_scope.

(** ** Machine integers *)

Definition u64 (z : Z) : Z := z mod 2 ^ 64.
Definition i64 (z : Z) : Z := (z + 2 ^ 63) mod 2 ^ 64 - 2 ^ 63.

Definition in_u64 (z : Z) : Prop := 0 <= z < 2 ^ 64.
Definition in_i64 (z : Z) : Prop := - 2 ^ 63 <= z < 2 ^ 63.

(** ** types.hpp *)

Inductive Side := BUY | SELL.
Inductive OrderType := LIMIT | MARKET.
Inductive TimeInForce := GFD | IOC | FOK.
Inductive OrderStatus := PENDING | PARTIALLY_FILLED | FILLED | CANCELLED | REJECTED.
Inductive ErrorCode :=
  | SUCCESS | INVALID_SYMBOL | INVALID_QUANTITY | INVALID_PRICE
  | INSUFFICIENT_BALANCE | ORDER_NOT_FOUND | DUPLICATE_ORDER | SYSTEM_ERROR.

#[global] Instance Side_eq_dec : EqDecision Side.
Proof. solve_decision. Defined.
#[global] Instance OrderType_eq_dec : EqDecision OrderType.
Proof. solve_decision. Defined.
#[global] Instance TimeInForce_eq_dec : EqDecision TimeInForce.
Proof. solve_decision. Defined.
#[global] Instance OrderStatus_eq_dec : EqDecision OrderStatus.
Proof. solve_decision. Defined.
#[global] Instance ErrorCode_eq_dec : EqDecision ErrorCode.
Proof. solve_decision. Defined.

Record Order := mkOrder {
  orderId : Z;
  userId : Z;
  symbol : string;
  side : Side;
  type : OrderType;
  timeInForce : TimeInForce;
  price : Z;
  quantity : Z;
  filledQuantity : Z;
  status : OrderStatus
}.

Definition set_status (s : OrderStatus) (o : Order) : Order :=
  mkOrder (orderId o) (userId o) (symbol o) (side o) (type o) (timeInForce o)
          (price o) (quantity o) (filledQuantity o) s.

Definition set_filledQuantity (f : Z) (o : Order) : Order :=
  mkOrder (orderId o) (userId o) (symbol o) (side o) (type o) (timeInForce o)
          (price o) (quantity o) f (status o).

Record Trade := mkTrade {
  tradeId : Z;
  buyOrderId : Z;
  sellOrderId : Z;
  buyUserId : Z;
  sellUserId : Z;
  tradeSymbol : string;
  tradePrice : Z;
  tradeQuantity : Z
}.

Record UserBalance := mkBalance {
  balanceUserId : Z;
  availableBalance : Z;
  lockedBalance : Z
}.

Definition totalBalance (b : UserBalance) : Z :=
  i64 (availableBalance b + lockedBalance b).

(** ** balance_service.cpp *)

Module BalanceService.

(** The state of the service is its map [balances_]. *)
Abbreviation t := (gmap Z UserBalance).

Definition zero (uid : Z) : UserBalance := mkBalance uid 0 0.

Definition initializeBalance (uid initialBalance : Z) (b : t) : t :=
  <[uid := mkBalance uid initialBalance 0]> b.

(** [getOrCreateBalance] returns a reference into the map.  [ensure] is its
    effect on the map and [ref] the value the reference designates; writes
    through the reference are [alter]s at that key. *)
Definition ensure (uid : Z) (b : t) : t :=
  match b !! uid with
  | Some _ => b
  | None => <[uid := zero uid]> b
  end.

Definition ref (uid : Z) (b : t) : UserBalance :=
  default (zero uid) (b !! uid).

Definition getOrCreateBalance (uid : Z) (b : t) : UserBalance * t :=
  (ref uid (ensure uid b), ensure uid b).

Definition getBalance (uid : Z) (b : t) : UserBalance * t :=
  getOrCreateBalance uid b.

Definition add_available (d : Z) (ub : UserBalance) : UserBalance :=
  mkBalance (balanceUserId ub) (i64 (availableBalance ub + d)) (lockedBalance ub).

Definition add_locked (d : Z) (ub : UserBalance) : UserBalance :=
  mkBalance (balanceUserId ub) (availableBalance ub) (i64 (lockedBalance ub + d)).

Definition lockFunds (uid amount : Z) (b : t) : ErrorCode * t :=
  let '(balance, b) := getOrCreateBalance uid b in
  if availableBalance balance <? amount then (INSUFFICIENT_BALANCE, b)
  else (SUCCESS, alter (add_locked amount) uid (alter (add_available (- amount)) uid b)).

Definition unlockFunds (uid amount : Z) (b : t) : ErrorCode * t :=
  let '(balance, b) := getOrCreateBalance uid b in
  if lockedBalance balance <? amount then (SYSTEM_ERROR, b)
  else (SUCCESS, alter (add_available amount) uid (alter (add_locked (- amount)) uid b)).

Definition transferFunds (fromUserId toUserId amount : Z) (b : t) : ErrorCode * t :=
  let '(fromBalance, b) := getOrCreateBalance fromUserId b in
  let '(_, b) := getOrCreateBalance toUserId b in
  if availableBalance fromBalance <? amount then (INSUFFICIENT_BALANCE, b)
  else (SUCCESS,
        alter (add_available amount) toUserId
          (alter (add_available (- amount)) fromUserId b)).

Definition hasSufficientBalance (uid amount : Z) (b : t) : bool * t :=
  let '(balance, b) := getOrCreateBalance uid b in
  (amount <=? availableBalance balance, b).

Definition calculateRequiredFunds (o : Order) : Z :=
  match side o with
  | BUY => i64 (price o * quantity o)
  | SELL => 0
  end.

Definition completeTrade (uid lockedAmount actualAmount : Z) (b : t) : ErrorCode * t :=
  let '(balance, b) := getOrCreateBalance uid b in
  if lockedBalance balance <? lockedAmount then (SYSTEM_ERROR, b)
  else
    let b := alter (add_locked (- lockedAmount)) uid b in
    let refund := i64 (lockedAmount - actualAmount) in
    if 0 <? refund then (SUCCESS, alter (add_available refund) uid b)
    else (SUCCESS, b).

End BalanceService.

(** ** orderbook.cpp *)

Module PriceLevel.

(** [orders_] lists the ids front first.  The iterator map [orderMap_] of
    the source is determined by that list (an id is pushed at most once per
    level) and is not represented. *)
Record t := mk {
  price_ : Z;
  totalQuantity_ : Z;
  orders_ : list Z
}.

Definition new (p : Z) : t := mk p 0 [].

Definition addOrder (o : Order) (lv : t) : t :=
  mk (price_ lv)
     (u64 (totalQuantity_ lv + u64 (quantity o - filledQuantity o)))
     (orders_ lv ++ [orderId o]).

Fixpoint erase (id : Z) (l : list Z) : list Z :=
  match l with
  | [] => []
  | x :: r => if decide (x = id) then r else x :: erase id r
  end.

(** The store is needed to read the order behind the erased node. *)
Definition removeOrder (store : gmap Z Order) (id : Z) (lv : t) : option t :=
  if decide (id ∈ orders_ lv) then
    o ← store !! id;
    Some (mk (price_ lv)
             (u64 (totalQuantity_ lv - u64 (quantity o - filledQuantity o)))
             (erase id (orders_ lv)))
  else Some lv.

Definition getFirstOrder (lv : t) : option Z := head (orders_ lv).
Definition getTotalQuantity (lv : t) : Z := totalQuantity_ lv.
Definition isEmpty (lv : t) : bool :=
  match orders_ lv with [] => true | _ => false end.

End PriceLevel.

Module OrderBook.

(** A ladder is the content of a [std::map<Price, PriceLevel, Compare>] in
    iteration order; [before p q] is the comparator. *)
Abbreviation Ladder := (list (Z * PriceLevel.t)).

Definition greater (p q : Z) : bool := q <? p.
Definition less (p q : Z) : bool := p <? q.

Fixpoint find (p : Z) (l : Ladder) : option PriceLevel.t :=
  match l with
  | [] => None
  | (q, lv) :: r => if decide (q = p) then Some lv else find p r
  end.

(** [levels[p] = lv] for a key that [find] did not meet: the new level goes
    where the comparator puts it. *)
Fixpoint put (before : Z -> Z -> bool) (p : Z) (lv : PriceLevel.t) (l : Ladder) : Ladder :=
  match l with
  | [] => [(p, lv)]
  | (q, lq) :: r =>
      if decide (q = p) then (p, lv) :: r
      else if before p q then (p, lv) :: (q, lq) :: r
      else (q, lq) :: put before p lv r
  end.

(** A write through [levelIt->second], the level [find] has met. *)
Fixpoint update (p : Z) (lv : PriceLevel.t) (l : Ladder) : Ladder :=
  match l with
  | [] => []
  | (q, lq) :: r => if decide (q = p) then (p, lv) :: r else (q, lq) :: update p lv r
  end.

Fixpoint erase (p : Z) (l : Ladder) : Ladder :=
  match l with
  | [] => []
  | (q, lq) :: r => if decide (q = p) then r else (q, lq) :: erase p r
  end.

(** [orderMap_] maps an id to the pointer of its order, that is to itself:
    it is the set of its keys. *)
Record t := mk {
  symbol_ : string;
  bidLevels_ : Ladder;
  askLevels_ : Ladder;
  orderMap_ : gset Z;
  lastTradePrice_ : Z;
  totalVolume_ : Z
}.

Definition new (sym : string) : t := mk sym [] [] ∅ 0 0.

Definition before (sd : Side) : Z -> Z -> bool :=
  match sd with BUY => greater | SELL => less end.

Definition levels (sd : Side) (bk : t) : Ladder :=
  match sd with BUY => bidLevels_ bk | SELL => askLevels_ bk end.

Definition set_levels (sd : Side) (l : Ladder) (bk : t) : t :=
  match sd with
  | BUY => mk (symbol_ bk) l (askLevels_ bk) (orderMap_ bk) (lastTradePrice_ bk) (totalVolume_ bk)
  | SELL => mk (symbol_ bk) (bidLevels_ bk) l (orderMap_ bk) (lastTradePrice_ bk) (totalVolume_ bk)
  end.

Definition set_orderMap (m : gset Z) (bk : t) : t :=
  mk (symbol_ bk) (bidLevels_ bk) (askLevels_ bk) m (lastTradePrice_ bk) (totalVolume_ bk).

Definition addOrder (o : Order) (bk : t) : t :=
  let bk := set_orderMap ({[orderId o]} ∪ orderMap_ bk) bk in
  let l := levels (side o) bk in
  match find (price o) l with
  | None =>
      let newLevel := PriceLevel.addOrder o (PriceLevel.new (price o)) in
      set_levels (side o) (put (before (side o)) (price o) newLevel l) bk
  | Some lv => set_levels (side o) (update (price o) (PriceLevel.addOrder o lv) l) bk
  end.

Definition removeOrder (store : gmap Z Order) (id : Z) (sd : Side) (bk : t) : option (bool * t) :=
  if decide (id ∈ orderMap_ bk) then
    order ← store !! id;
    let l := levels sd bk in
    l' ← match find (price order) l with
         | Some lv =>
             lv' ← PriceLevel.removeOrder store id lv;
             Some (if PriceLevel.isEmpty lv' then erase (price order) l
                   else update (price order) lv' l)
         | None => Some l
         end;
    Some (true, set_orderMap (orderMap_ bk ∖ {[id]}) (set_levels sd l' bk))
  else Some (false, bk).


Definition depth (n : nat) (l : Ladder) : list (Z * Z) :=
  (λ pl, (pl.1, PriceLevel.getTotalQuantity pl.2)) <$> take n l.
Definition getBidDepth (n : nat) (bk : t) : list (Z * Z) := depth n (bidLevels_ bk).
Definition getAskDepth (n : nat) (bk : t) : list (Z * Z) := depth n (askLevels_ bk).

Definition getOrder (id : Z) (bk : t) : option Z :=
  if decide (id ∈ orderMap_ bk) then Some id else None.

Definition updateLastTrade (p q : Z) (bk : t) : t :=
  mk (symbol_ bk) (bidLevels_ bk) (askLevels_ bk) (orderMap_ bk) p (u64 (totalVolume_ bk + q)).

Definition bestOrder (l : Ladder) : option Z :=
  match l with [] => None | (_, lv) :: _ => PriceLevel.getFirstOrder lv end.
Definition getBestBidOrder (bk : t) : option Z := bestOrder (bidLevels_ bk).
Definition getBestAskOrder (bk : t) : option Z := bestOrder (askLevels_ bk).

(** Number of nodes in the two ladders. *)
Definition nodes (l : Ladder) : nat :=
  foldr (λ pl n, (length (PriceLevel.orders_ pl.2) + n)%nat) 0%nat l.
Definition resting (bk : t) : nat := (nodes (bidLevels_ bk) + nodes (askLevels_ bk))%nat.

End OrderBook.

(** ** The state of the engine *)

(** What the callbacks registered on the matching engine were invoked with:
    [notifyTrade] and [notifyOrderUpdate], the latter with a copy of the
    order as it was at that moment. *)
Inductive Event :=
  | TradeEvent (t : Trade)
  | OrderUpdate (o : Order).

Record Engine := mkEngine {
  balances_ : gmap Z UserBalance;          (* BalanceService *)
  orders_ : gmap Z Order;                  (* OrderService, the order objects *)
  userOrders_ : gmap Z (list Z);
  nextOrderId_ : Z;
  orderBooks_ : gmap string OrderBook.t;   (* MatchingEngine *)
  nextTradeId_ : Z;
  emitted : list Event
}.

Definition with_balances (b : gmap Z UserBalance) (st : Engine) : Engine :=
  mkEngine b (orders_ st) (userOrders_ st) (nextOrderId_ st) (orderBooks_ st)
           (nextTradeId_ st) (emitted st).

Definition with_orders (o : gmap Z Order) (st : Engine) : Engine :=
  mkEngine (balances_ st) o (userOrders_ st) (nextOrderId_ st) (orderBooks_ st)
           (nextTradeId_ st) (emitted st).

Definition with_books (bs : gmap string OrderBook.t) (st : Engine) : Engine :=
  mkEngine (balances_ st) (orders_ st) (userOrders_ st) (nextOrderId_ st) bs
           (nextTradeId_ st) (emitted st).

Definition emit (e : Event) (st : Engine) : Engine :=
  mkEngine (balances_ st) (orders_ st) (userOrders_ st) (nextOrderId_ st)
           (orderBooks_ st) (nextTradeId_ st) (emitted st ++ [e]).

(** A freshly constructed engine: both id counters start at 1. *)
Definition initial : Engine := mkEngine ∅ ∅ ∅ 1 ∅ 1 [].

(** Writes through an order pointer. *)
Definition update_order (f : Order -> Order) (id : Z) (st : Engine) : Engine :=
  with_orders (alter f id (orders_ st)) st.

(** ** order_service.cpp *)

Module OrderService.

Definition validateOrder (o : Order) : ErrorCode :=
  if decide (symbol o = EmptyString) then INVALID_SYMBOL
  else if quantity o =? 0 then INVALID_QUANTITY
  else if bool_decide (type o = LIMIT) && (price o =? 0) then INVALID_PRICE
  else SUCCESS.

Definition generateOrderId (st : Engine) : Z * Engine :=
  (nextOrderId_ st,
   mkEngine (balances_ st) (orders_ st) (userOrders_ st) (u64 (nextOrderId_ st + 1))
            (orderBooks_ st) (nextTradeId_ st) (emitted st)).

Definition store (o : Order) (st : Engine) : Engine :=
  mkEngine (balances_ st) (<[orderId o := o]> (orders_ st))
           (<[userId o := default [] (userOrders_ st !! userId o) ++ [orderId o]]> (userOrders_ st))
           (nextOrderId_ st) (orderBooks_ st) (nextTradeId_ st) (emitted st).

Definition createOrder (uid : Z) (sym : string) (sd : Side) (ty : OrderType)
    (tif : TimeInForce) (p q : Z) (st : Engine) : (Order * ErrorCode) * Engine :=
  let '(id, st) := generateOrderId st in
  let order := mkOrder id uid sym sd ty tif p q 0 PENDING in
  let validationResult := validateOrder order in
  if decide (validationResult ≠ SUCCESS) then
    ((set_status REJECTED order, validationResult), st)
  else
    match sd with
    | BUY =>
        let requiredFunds := BalanceService.calculateRequiredFunds order in
        let '(lockResult, b) := BalanceService.lockFunds uid requiredFunds (balances_ st) in
        let st := with_balances b st in
        if decide (lockResult ≠ SUCCESS) then
          ((set_status REJECTED order, lockResult), st)
        else ((order, SUCCESS), store order st)
    | SELL => ((order, SUCCESS), store order st)
    end.

Definition cancelOrder (id : Z) (st : Engine) : ErrorCode * Engine :=
  match orders_ st !! id with
  | None => (ORDER_NOT_FOUND, st)
  | Some order =>
      if bool_decide (status order ≠ PENDING) && bool_decide (status order ≠ PARTIALLY_FILLED)
      then (SYSTEM_ERROR, st)
      else
        let st :=
          match side order with
          | BUY =>
              let unfilledQty := u64 (quantity order - filledQuantity order) in
              let lockedFunds := i64 (price order * unfilledQty) in
              with_balances
                (BalanceService.unlockFunds (userId order) lockedFunds (balances_ st)).2 st
          | SELL => st
          end in
        (SUCCESS, update_order (set_status CANCELLED) id st)
  end.

Definition getOrder (id : Z) (st : Engine) : option Order := orders_ st !! id.

Definition updateOrderStatus (id : Z) (s : OrderStatus) (st : Engine) : Engine :=
  update_order (set_status s) id st.

Definition updateFilledQuantity (id filledQty : Z) (st : Engine) : Engine :=
  update_order
    (λ o, let o := set_filledQuantity (u64 (filledQuantity o + filledQty)) o in
          if quantity o <=? filledQuantity o then set_status FILLED o
          else if 0 <? filledQuantity o then set_status PARTIALLY_FILLED o
          else o)
    id st.

Definition getUserOrders (uid : Z) (st : Engine) : list Order :=
  omap (λ id, orders_ st !! id) (default [] (userOrders_ st !! uid)).

End OrderService.

(** ** matching_engine.cpp *)

Module MatchingEngine.

Definition getOrderBook (sym : string) (st : Engine) : Engine :=
  match orderBooks_ st !! sym with
  | Some _ => st
  | None => with_books (<[sym := OrderBook.new sym]> (orderBooks_ st)) st
  end.

Definition generateTradeId (st : Engine) : Z * Engine :=
  (nextTradeId_ st,
   mkEngine (balances_ st) (orders_ st) (userOrders_ st) (nextOrderId_ st)
            (orderBooks_ st) (u64 (nextTradeId_ st + 1)) (emitted st)).

Definition notifyTrade (t : Trade) (st : Engine) : Engine := emit (TradeEvent t) st.
Definition notifyOrderUpdate (o : Order) (st : Engine) : Engine := emit (OrderUpdate o) st.

(** The return codes of the two ledger calls are dropped, as in the source. *)
Definition executeTrade (buyPtr sellPtr tradePrice tradeQuantity : Z) (st : Engine)
    : option (Trade * Engine) :=
  buyOrder ← orders_ st !! buyPtr;
  sellOrder ← orders_ st !! sellPtr;
  let '(tid, st) := generateTradeId st in
  let trade := mkTrade tid (orderId buyOrder) (orderId sellOrder)
                       (userId buyOrder) (userId sellOrder) (symbol buyOrder)
                       tradePrice tradeQuantity in
  let tradeValue := i64 (tradePrice * tradeQuantity) in
  let buyerLockedAmount := i64 (price buyOrder * tradeQuantity) in
  let st := with_balances
              (BalanceService.completeTrade (userId buyOrder) buyerLockedAmount tradeValue
                 (balances_ st)).2 st in
  let st := with_balances
              (BalanceService.transferFunds (userId buyOrder) (userId sellOrder) tradeValue
                 (balances_ st)).2 st in
  let st := getOrderBook (tradeSymbol trade) st in
  let st := with_books
              (alter (OrderBook.updateLastTrade tradePrice tradeQuantity)
                 (tradeSymbol trade) (orderBooks_ st)) st in
  Some (trade, st).

Definition add_filled (q : Z) (o : Order) : Order :=
  set_filledQuantity (u64 (filledQuantity o + q)) o.

(** [std::min(remainingQty, counterRemainingQty)]. *)
Definition tradeQtyOf (order counterOrder : Order) : Z :=
  let remainingQty := u64 (quantity order - filledQuantity order) in
  let counterRemainingQty := u64 (quantity counterOrder - filledQuantity counterOrder) in
  Z.min remainingQty counterRemainingQty.

(** "Update order statuses": a counter order that is filled leaves the book
    [sym] the loop works on. *)
Definition settleCounter (sym : string) (cid : Z) (st : Engine) : option Engine :=
  counterOrder ← orders_ st !! cid;
  if quantity counterOrder <=? filledQuantity counterOrder then
    let st := update_order (set_status FILLED) cid st in
    book ← orderBooks_ st !! sym;
    '(_, book) ← OrderBook.removeOrder (orders_ st) (orderId counterOrder)
                                       (side counterOrder) book;
    Some (with_books (<[sym := book]> (orderBooks_ st)) st)
  else Some (update_order (set_status PARTIALLY_FILLED) cid st).

(** One fill: the body of the [while] loops of [matchLimitOrder] and
    [matchMarketOrder] from "Calculate trade quantity" on, which is the same
    text in both.  [sym] names the book the loop works on, [oid] the
    incoming order and [cid] the counter order.  [getSnapshot] followed by
    the empty [publishMarketData] has no effect. *)
Definition fill (sym : string) (oid cid : Z) (st : Engine) : option (Trade * Engine) :=
  order ← orders_ st !! oid;
  counterOrder ← orders_ st !! cid;
  let tradeQty := tradeQtyOf order counterOrder in
  '(trade, st) ← executeTrade (match side order with BUY => oid | SELL => cid end)
                              (match side order with SELL => oid | BUY => cid end)
                              (price counterOrder) tradeQty st;
  let st := update_order (add_filled tradeQty) oid st in
  let st := update_order (add_filled tradeQty) cid st in
  st ← settleCounter sym cid st;
  counterOrder ← orders_ st !! cid;
  let st := notifyOrderUpdate counterOrder st in
  let st := notifyTrade trade st in
  Some (trade, st).

(** The [while] loop.  [limited] tells the two loops apart: the one of
    [matchLimitOrder] also stops at a counter order whose price is beyond
    the limit.  [None] when the fuel is used up or a pointer dangles. *)
Fixpoint matchLoop (limited : bool) (fuel : nat) (sym : string) (oid : Z)
    (trades : list Trade) (st : Engine) : option (list Trade * Engine) :=
  match fuel with
  | O => None
  | S fuel =>
      order ← orders_ st !! oid;
      if filledQuantity order <? quantity order then
        book ← orderBooks_ st !! sym;
        match (match side order with
               | BUY => OrderBook.getBestAskOrder book
               | SELL => OrderBook.getBestBidOrder book
               end) with
        | None => Some (trades, st)
        | Some cid =>
            counterOrder ← orders_ st !! cid;
            if limited && (match side order with
                           | BUY => price order <? price counterOrder
                           | SELL => price counterOrder <? price order
                           end)
            then Some (trades, st)
            else
              '(trade, st) ← fill sym oid cid st;
              matchLoop limited fuel sym oid (trades ++ [trade]) st
        end
      else Some (trades, st)
  end.

(** A loop that goes on has removed a resting order from the book, so that
    one more round than the book has nodes is enough (see [matchLoop_runs]). *)
Definition rounds (sym : string) (st : Engine) : nat :=
  S (from_option OrderBook.resting 0%nat (orderBooks_ st !! sym)).

Definition matchLimitOrder (sym : string) (oid : Z) (st : Engine)
    : option (list Trade * Engine) :=
  '(trades, st) ← matchLoop true (rounds sym st) sym oid [] st;
  order ← orders_ st !! oid;
  let st :=
    if quantity order <=? filledQuantity order then update_order (set_status FILLED) oid st
    else if 0 <? filledQuantity order then update_order (set_status PARTIALLY_FILLED) oid st
    else st in
  Some (trades, st).

Definition matchMarketOrder (sym : string) (oid : Z) (st : Engine)
    : option (list Trade * Engine) :=
  '(trades, st) ← matchLoop false (rounds sym st) sym oid [] st;
  order ← orders_ st !! oid;
  let st :=
    if quantity order <=? filledQuantity order then update_order (set_status FILLED) oid st
    else if 0 <? filledQuantity order then update_order (set_status PARTIALLY_FILLED) oid st
    else update_order (set_status CANCELLED) oid st in
  Some (trades, st).

Definition handleIOC (oid : Z) (st : Engine) : option (bool * Engine) :=
  order ← orders_ st !! oid;
  if filledQuantity order <? quantity order then
    let st :=
      match side order with
      | BUY =>
          let unfilledQty := u64 (quantity order - filledQuantity order) in
          let lockedFunds := i64 (price order * unfilledQty) in
          with_balances
            (BalanceService.unlockFunds (userId order) lockedFunds (balances_ st)).2 st
      | SELL => st
      end in
    Some (true,
          if filledQuantity order =? 0 then update_order (set_status CANCELLED) oid st
          else update_order (set_status PARTIALLY_FILLED) oid st)
  else Some (true, st).

Fixpoint canFillWalk (beyond : Z -> bool) (need : Z) (depth : list (Z * Z))
    (availableQuantity : Z) : bool :=
  match depth with
  | [] => false
  | (p, qty) :: depth =>
      if beyond p then false
      else
        let availableQuantity := u64 (availableQuantity + qty) in
        if need <=? availableQuantity then true
        else canFillWalk beyond need depth availableQuantity
  end.

Definition canFillCompletely (order : Order) (book : OrderBook.t) : bool :=
  match side order with
  | BUY =>
      canFillWalk (λ p, bool_decide (type order = LIMIT) && (price order <? p))
                  (quantity order) (OrderBook.getAskDepth 100 book) 0
  | SELL =>
      canFillWalk (λ p, bool_decide (type order = LIMIT) && (p <? price order))
                  (quantity order) (OrderBook.getBidDepth 100 book) 0
  end.

Definition handleFOK (sym : string) (oid : Z) (st : Engine) : option (bool * Engine) :=
  order ← orders_ st !! oid;
  book ← orderBooks_ st !! sym;
  if canFillCompletely order book then Some (true, st)
  else
    Some (false,
          match side order with
          | BUY =>
              let lockedFunds := i64 (price order * quantity order) in
              with_balances
                (BalanceService.unlockFunds (userId order) lockedFunds (balances_ st)).2 st
          | SELL => st
          end).

(** The end of [processOrder]: a GFD limit order rests with what is left. *)
Definition rest (sym : string) (oid : Z) (st : Engine) : option Engine :=
  order ← orders_ st !! oid;
  if bool_decide (timeInForce order = GFD) && bool_decide (type order = LIMIT)
     && (filledQuantity order <? quantity order)
     && bool_decide (status order ≠ CANCELLED)
  then
    Some (notifyOrderUpdate order
            (with_books (alter (OrderBook.addOrder order) sym (orderBooks_ st)) st))
  else Some st.

Definition processOrder (oid : Z) (st : Engine) : option (list Trade * Engine) :=
  order ← orders_ st !! oid;
  let sym := symbol order in
  let st := getOrderBook sym st in
  '(trades, st) ← (match type order with
                   | LIMIT => matchLimitOrder sym oid st
                   | MARKET => matchMarketOrder sym oid st
                   end);
  match timeInForce order with
  | IOC =>
      '(_, st) ← handleIOC oid st;
      st ← rest sym oid st;
      Some (trades, st)
  | FOK =>
      '(ok, st) ← handleFOK sym oid st;
      if ok : bool then
        st ← rest sym oid st;
        Some (trades, st)
      else
        let st := update_order (set_status CANCELLED) oid st in
        order ← orders_ st !! oid;
        Some ([], notifyOrderUpdate order st)
  | GFD =>
      st ← rest sym oid st;
      Some (trades, st)
  end.

End MatchingEngine.

(** ** trading_engine.cpp *)

Module TradingEngine.

Definition initializeUserBalance (uid initialBalance : Z) (st : Engine) : Engine :=
  with_balances (BalanceService.initializeBalance uid initialBalance (balances_ st)) st.

Definition getUserBalance (uid : Z) (st : Engine) : UserBalance * Engine :=
  let r := BalanceService.getBalance uid (balances_ st) in
  (r.1, with_balances r.2 st).

(** The order handed back is the shared object, seen here as it is when the
    call returns. *)
Definition submitOrder (uid : Z) (sym : string) (sd : Side) (ty : OrderType)
    (tif : TimeInForce) (p q : Z) (st : Engine)
    : option ((Order * ErrorCode) * Engine) :=
  let '((order, errorCode), st) := OrderService.createOrder uid sym sd ty tif p q st in
  if decide (errorCode ≠ SUCCESS) then Some ((order, errorCode), st)
  else
    '(_, st) ← MatchingEngine.processOrder (orderId order) st;
    order ← orders_ st !! orderId order;
    Some ((order, SUCCESS), st).

Definition cancelOrder (id : Z) (st : Engine) : option (ErrorCode * Engine) :=
  match OrderService.getOrder id st with
  | None => Some (ORDER_NOT_FOUND, st)
  | Some order =>
      let '(result, st) := OrderService.cancelOrder id st in
      if decide (result = SUCCESS) then
        let st := MatchingEngine.getOrderBook (symbol order) st in
        book ← orderBooks_ st !! symbol order;
        '(_, book) ← OrderBook.removeOrder (orders_ st) id (side order) book;
        let st := with_books (<[symbol order := book]> (orderBooks_ st)) st in
        order ← orders_ st !! id;
        Some (result, emit (OrderUpdate order) st)
      else Some (result, st)
  end.

Definition getOrderStatus (id : Z) (st : Engine) : option Order :=
  OrderService.getOrder id st.

End TradingEngine.

(** * Vocabulary of the statements *)

(** The terminal statuses of the order state machine, and the two statuses
    [cancelOrder] accepts. *)
Definition terminal (s : OrderStatus) : Prop :=
  s = FILLED ∨ s = CANCELLED ∨ s = REJECTED.

Definition active (s : OrderStatus) : Prop :=
  s = PENDING ∨ s = PARTIALLY_FILLED.

(** The trades handed to the trade callback, in order. *)
Definition tradesOf (st : Engine) : list Trade :=
  omap (λ e, match e with TradeEvent t => Some t | OrderUpdate _ => None end) (emitted st).

Definition statusOf (id : Z) (st : Engine) : option OrderStatus :=
  status <$> orders_ st !! id.

Definition availableOf (uid : Z) (st : Engine) : Z :=
  availableBalance (BalanceService.ref uid (balances_ st)).

Definition lockedOf (uid : Z) (st : Engine) : Z :=
  lockedBalance (BalanceService.ref uid (balances_ st)).

(** What is left to fill of an order, and the sum of it over the orders of a
    price level, read in the store. *)
Definition unfilled (o : Order) : Z := quantity o - filledQuantity o.

Definition levelUnfilled (store : gmap Z Order) (lv : PriceLevel.t) : Z :=
  foldr (λ id acc, from_option unfilled 0 (store !! id) + acc) 0 (PriceLevel.orders_ lv).

(** ** The scenarios: one symbol, users 1 and 2 seeded with 1,000,000 cents *)

Definition seeded : Engine :=
  TradingEngine.initializeUserBalance 2 1000000
    (TradingEngine.initializeUserBalance 1 1000000 initial).

(** [place] submits an order and keeps the state. *)
Definition place (uid : Z) (sym : string) (sd : Side) (ty : OrderType)
    (tif : TimeInForce) (p q : Z) (st : option Engine) : option Engine :=
  st ← st;
  '(_, st) ← TradingEngine.submitOrder uid sym sd ty tif p q st;
  Some st.

(** Scenario 1: a resting sell of 5 at 10000, then a buy of 5 at 10500. *)
Definition simple_cross : option Engine :=
  place 1 "X" BUY LIMIT GFD 10500 5
    (place 2 "X" SELL LIMIT GFD 10000 5 (Some seeded)).

(** Scenarios 3 and 4 start from a book holding one sell of 3 at 10000. *)
Definition one_ask_of_3 : option Engine :=
  place 2 "X" SELL LIMIT GFD 10000 3 (Some seeded).

Definition ioc_short : option Engine :=
  place 1 "X" BUY LIMIT IOC 10000 10 one_ask_of_3.

Definition fok_short : option Engine :=
  place 1 "X" BUY LIMIT FOK 10000 10 one_ask_of_3.

(** A resting sell of 5 at 10000 met by a buy of 2: the sell stays at the
    front of its level, partially filled. *)
Definition front_partially_filled : option Engine :=
  place 1 "X" BUY LIMIT GFD 10000 2
    (place 2 "X" SELL LIMIT GFD 10000 5 (Some seeded)).

(** [accept] stops after [createOrder]: the state in which the new order
    reaches [processOrder]. *)
Definition accept (uid : Z) (sym : string) (sd : Side) (ty : OrderType)
    (tif : TimeInForce) (p q : Z) (st : option Engine) : option Engine :=
  st ← st;
  Some (OrderService.createOrder uid sym sd ty tif p q st).2.

Definition fok_short_accepted : option Engine :=
  accept 1 "X" BUY LIMIT FOK 10000 10 one_ask_of_3.

(** A resting sell of 10 at 10000 and the FOK buy of 10 that takes all of it. *)
Definition fok_exact_accepted : option Engine :=
  accept 1 "X" BUY LIMIT FOK 10000 10
    (place 2 "X" SELL LIMIT GFD 10000 10 (Some seeded)).

(** The buyer of scenario 1 with no more than the reservation on the account. *)
Definition buyer_just_funded : option Engine :=
  place 1 "X" BUY LIMIT GFD 10500 5
    (place 2 "X" SELL LIMIT GFD 10000 5
       (Some (TradingEngine.initializeUserBalance 2 1000000
                (TradingEngine.initializeUserBalance 1 52500 initial)))).

(** Scenario 6 before the cancel: a buy of 5 at 10000 rests in an empty book. *)
Definition resting_buy : option Engine :=
  place 1 "X" BUY LIMIT GFD 10000 5 (Some seeded).

(** Scenario 3, and then a second buy of the same user, of 10 at 9000, which
    rests. *)
Definition ioc_partial_then_buy : option Engine :=
  place 1 "X" BUY LIMIT GFD 9000 10 ioc_short.

(** The account of the resting buy is initialised again. *)
Definition resting_buy_redeposited : option Engine :=
  st ← resting_buy;
  Some (TradingEngine.initializeUserBalance 1 1000000 st).

(** ** Invariants of the store and of the books *)

(** The part of an order no operation writes: everything but
    [filledQuantity] and [status]. *)
Definition static (o : Order) : Order := set_status PENDING (set_filledQuantity 0 o).

(** The registry key of an order is its id, its quantity is a [uint64_t]
    value, and no more of it is filled than was ordered. *)
Definition order_ok (k : Z) (o : Order) : Prop :=
  orderId o = k ∧ in_u64 (quantity o) ∧ 0 <= filledQuantity o <= quantity o.

(** The ids resting in a ladder, best level first. *)
Definition ladderIds (l : list (Z * PriceLevel.t)) : list Z :=
  concat ((λ pl, PriceLevel.orders_ pl.2) <$> l).

Definition restingIds (bk : OrderBook.t) : list Z :=
  ladderIds (OrderBook.bidLevels_ bk) ++ ladderIds (OrderBook.askLevels_ bk).

(** A node of the level at price [p] of the ladder of side [sd]: the book
    knows the id, and the order behind it has that price and side. *)
Definition node_ok (store : gmap Z Order) (bk : OrderBook.t) (sd : Side) (p id : Z) : Prop :=
  id ∈ OrderBook.orderMap_ bk
  ∧ from_option (λ o, price o = p ∧ side o = sd) False (store !! id).

(** A ladder has one level per price, and its nodes are as said. *)
Definition ladder_ok (store : gmap Z Order) (bk : OrderBook.t) (sd : Side)
    (l : list (Z * PriceLevel.t)) : Prop :=
  NoDup (l.*1)
  ∧ Forall (λ pl, Forall (node_ok store bk sd pl.1) (PriceLevel.orders_ pl.2)) l.

(** Both ladders are, no order rests twice, and the book knows no id but
    those that rest in it. *)
Definition book_ok (store : gmap Z Order) (bk : OrderBook.t) : Prop :=
  ladder_ok store bk BUY (OrderBook.bidLevels_ bk)
  ∧ ladder_ok store bk SELL (OrderBook.askLevels_ bk)
  ∧ NoDup (restingIds bk)
  ∧ Forall (λ x, x ∈ restingIds bk) (elements (OrderBook.orderMap_ bk)).

Definition wf (st : Engine) : Prop :=
  map_Forall order_ok (orders_ st)
  ∧ map_Forall (λ _ bk, book_ok (orders_ st) bk) (orderBooks_ st).

(** The order [oid] rests in no book. *)
Definition rests_nowhere (oid : Z) (st : Engine) : Prop :=
  map_Forall (λ _ bk, oid ∉ restingIds bk) (orderBooks_ st).

#[global] Instance in_u64_dec z : Decision (in_u64 z).
Proof. unfold in_u64. apply _. Defined.
#[global] Instance in_i64_dec z : Decision (in_i64 z).
Proof. unfold in_i64. apply _. Defined.
#[global] Instance order_ok_dec k o : Decision (order_ok k o).
Proof. unfold order_ok. apply _. Defined.
#[global] Instance node_ok_dec store bk sd p id : Decision (node_ok store bk sd p id).
Proof. unfold node_ok. destruct (store !! id); simpl; apply _. Defined.
#[global] Instance ladder_ok_dec store bk sd l : Decision (ladder_ok store bk sd l).
Proof. unfold ladder_ok. apply _. Defined.
#[global] Instance book_ok_dec store bk : Decision (book_ok store bk).
Proof. unfold book_ok. apply _. Defined.
#[global] Instance wf_dec st : Decision (wf st).
Proof. unfold wf. apply _. Defined.
#[global] Instance rests_nowhere_dec oid st : Decision (rests_nowhere oid st).
Proof. unfold rests_nowhere. apply _. Defined.

(** ** The match loop *)

(** The side of the counter orders of an incoming order. *)
Definition opposite (sd : Side) : Side :=
  match sd with BUY => SELL | SELL => BUY end.

(** The buy and the sell order of a fill between the incoming [order] and
    the resting [counter]. *)
Definition buyOf (order counter : Order) : Order :=
  match side order with BUY => order | SELL => counter end.

Definition sellOf (order counter : Order) : Order :=
  match side order with BUY => counter | SELL => order end.

(** The ledger after the two calls [executeTrade] makes for a fill of [q]
    units at price [p]. *)
Definition fundsAfter (buy sell : Order) (p q : Z) (b : gmap Z UserBalance)
    : gmap Z UserBalance :=
  (BalanceService.transferFunds (userId buy) (userId sell) (i64 (p * q))
     (BalanceService.completeTrade (userId buy) (i64 (price buy * q)) (i64 (p * q)) b).2).2.

(** The ladder after the level at [p] has become [lv']: an empty level is
    pruned. *)
Definition without (p : Z) (lv' : PriceLevel.t) (l : list (Z * PriceLevel.t))
    : list (Z * PriceLevel.t) :=
  if PriceLevel.isEmpty lv' then OrderBook.erase p l else OrderBook.update p lv' l.

(** The counter order is priced beyond the limit of the incoming order: the
    test on which the loop of [matchLimitOrder] stops. *)
Definition beyond (order counter : Order) : bool :=
  match side order with
  | BUY => price order <? price counter
  | SELL => price counter <? price order
  end.

(** The counter order after a fill: more of it is filled, and it is FILLED
    or PARTIALLY_FILLED. *)
Definition counterAfter (order counter : Order) : Order :=
  let c := MatchingEngine.add_filled (MatchingEngine.tradeQtyOf order counter) counter in
  set_status (if quantity c <=? filledQuantity c then FILLED else PARTIALLY_FILLED) c.

(** What one fill between the incoming order [order] (at [oid]) and the
    counter order [counter] (at [cid], resting in the book [bk] of [sym])
    makes of the state [st]: the trade [t] and the state [st']. *)
Record fill_post (sym : string) (oid cid : Z) (order counter : Order)
    (bk : OrderBook.t) (st : Engine) (t : Trade) (st' : Engine) : Prop := {
  fp_fill : MatchingEngine.fill sym oid cid st = Some (t, st');
  fp_trade :
    t = mkTrade (nextTradeId_ st)
                (orderId (buyOf order counter)) (orderId (sellOf order counter))
                (userId (buyOf order counter)) (userId (sellOf order counter))
                (symbol (buyOf order counter)) (price counter)
                (MatchingEngine.tradeQtyOf order counter);
  fp_qty :
    0 <= MatchingEngine.tradeQtyOf order counter <= quantity order - filledQuantity order;
  fp_order :
    orders_ st' !! oid
    = Some (set_filledQuantity
              (filledQuantity order + MatchingEngine.tradeQtyOf order counter) order);
  fp_counter : orders_ st' !! cid = Some (counterAfter order counter);
  fp_static : static <$> orders_ st' = static <$> orders_ st;
  fp_frame : ∀ k, k ≠ oid -> k ≠ cid -> orders_ st' !! k = orders_ st !! k;
  fp_balances :
    balances_ st'
    = fundsAfter (buyOf order counter) (sellOf order counter) (price counter)
        (MatchingEngine.tradeQtyOf order counter) (balances_ st);
  fp_emitted :
    emitted st' = emitted st ++ [OrderUpdate (counterAfter order counter); TradeEvent t];
  fp_nextOrderId : nextOrderId_ st' = nextOrderId_ st;
  fp_nextTradeId : nextTradeId_ st' = u64 (nextTradeId_ st + 1);
  fp_userOrders : userOrders_ st' = userOrders_ st;
  fp_book :
    ∃ bk', orderBooks_ st' !! sym = Some bk'
           ∧ (∀ x, x ∈ restingIds bk' -> x ∈ restingIds bk)
           ∧ (quantity order
                <= filledQuantity order + MatchingEngine.tradeQtyOf order counter
              ∨ S (length (restingIds bk')) = length (restingIds bk))
           ∧ OrderBook.levels (side order) bk' = OrderBook.levels (side order) bk
           ∧ (filledQuantity (counterAfter order counter) < quantity counter ->
              OrderBook.levels (opposite (side order)) bk'
              = OrderBook.levels (opposite (side order)) bk)
           ∧ (quantity counter <= filledQuantity (counterAfter order counter) ->
              cid ∉ restingIds bk')
           ∧ (quantity counter <= filledQuantity (counterAfter order counter) ->
              ∃ p lv lv',
                OrderBook.find p (OrderBook.levels (opposite (side order)) bk) = Some lv
                ∧ cid ∈ PriceLevel.orders_ lv
                ∧ PriceLevel.orders_ lv' = PriceLevel.erase cid (PriceLevel.orders_ lv)
                ∧ OrderBook.levels (opposite (side order)) bk'
                  = without p lv' (OrderBook.levels (opposite (side order)) bk));
  fp_books :
    ∀ s b', s ≠ sym -> orderBooks_ st' !! s = Some b' ->
            ∀ sd, OrderBook.levels sd b'
                  = OrderBook.levels sd (default (OrderBook.new s) (orderBooks_ st !! s));
  fp_kept :
    ∀ bk' x, orderBooks_ st' !! sym = Some bk' ->
             x ∈ restingIds bk -> x ≠ cid -> x ∈ restingIds bk';
  fp_persist : ∀ s, is_Some (orderBooks_ st !! s) -> is_Some (orderBooks_ st' !! s);
  fp_recorded :
    ∃ b', orderBooks_ st' !! tradeSymbol t = Some b'
          ∧ OrderBook.lastTradePrice_ b' = tradePrice t
          ∧ OrderBook.totalVolume_ b'
            = u64 (from_option OrderBook.totalVolume_ 0 (orderBooks_ st !! tradeSymbol t)
                   + tradeQuantity t)
}.

(** ** Fills and prices *)

(** The trade [t] of the incoming order [taker] was made with an order that
    rested in the book ([resting] lists the ids of the book before the order
    came in), on the other side, and at that order's price. *)
Definition maker_priced (store : gmap Z Order) (taker : Order) (resting : list Z)
    (t : Trade) : Prop :=
  let makerId := match side taker with BUY => sellOrderId t | SELL => buyOrderId t end in
  let takerId := match side taker with BUY => buyOrderId t | SELL => sellOrderId t end in
  takerId = orderId taker
  ∧ makerId ∈ resting
  ∧ ∃ maker, store !! makerId = Some maker
             ∧ side maker = opposite (side taker)
             ∧ tradePrice t = price maker.

(** The price of the trade is within the limit of its buy order and of its
    sell order, where these are limit orders. *)
Definition within_limits (store : gmap Z Order) (t : Trade) : Prop :=
  ∃ b s, store !! buyOrderId t = Some b
         ∧ store !! sellOrderId t = Some s
         ∧ side b = BUY ∧ side s = SELL
         ∧ (type b = LIMIT -> tradePrice t <= price b)
         ∧ (type s = LIMIT -> price s <= tradePrice t).

(** The invariant of the match loop behind [maker_priced] and
    [within_limits]: [st0], [order0] and [bk0] are the state, the incoming
    order and the book of [sym] when the loop starts. *)
Definition priced_inv (sym : string) (st0 : Engine) (order0 : Order) (bk0 : OrderBook.t)
    (st : Engine) (trades : list Trade) : Prop :=
  static <$> orders_ st = static <$> orders_ st0
  ∧ (∃ bk, orderBooks_ st !! sym = Some bk
           ∧ ∀ x, x ∈ restingIds bk -> x ∈ restingIds bk0)
  ∧ tradesOf st = tradesOf st0 ++ trades
  ∧ Forall (λ t, maker_priced (orders_ st0) order0 (restingIds bk0) t
                 ∧ within_limits (orders_ st0) t) trades.

(** ** The ledger *)

(** An account whose two balances are non-negative [int64_t] values, and a
    ledger of such accounts. *)
Definition account_ok (ub : UserBalance) : Prop :=
  0 <= availableBalance ub < 2 ^ 63 ∧ 0 <= lockedBalance ub < 2 ^ 63.

Definition ledger_ok (b : gmap Z UserBalance) : Prop :=
  map_Forall (λ _ ub, account_ok ub) b.

#[global] Instance account_ok_dec ub : Decision (account_ok ub).
Proof. unfold account_ok. apply _. Defined.
#[global] Instance ledger_ok_dec b : Decision (ledger_ok b).
Proof. unfold ledger_ok. apply _. Defined.

(** ** Invariants of a running engine *)

(** What holds of an order that rests in the book of [s]: it is a GFD limit
    order on [s] that can still be cancelled and has something left to fill. *)
Definition live (s : string) (o : Order) : Prop :=
  symbol o = s ∧ type o = LIMIT ∧ timeInForce o = GFD
  ∧ active (status o) ∧ filledQuantity o < quantity o.

(** The status of an order agrees with what is filled of it. *)
Definition status_sound (o : Order) : Prop :=
  match status o with
  | PENDING => filledQuantity o = 0
  | PARTIALLY_FILLED => 0 < filledQuantity o < quantity o
  | FILLED => filledQuantity o = quantity o
  | CANCELLED | REJECTED => True
  end.

(** A ladder lists its prices best first, and has no empty level. *)
Definition ladder_tidy (sd : Side) (l : list (Z * PriceLevel.t)) : Prop :=
  StronglySorted (λ p q, OrderBook.before sd p q = true) (l.*1)
  ∧ Forall (λ pl, PriceLevel.orders_ pl.2 ≠ []) l.

(** The best bid is below the best ask. *)
Definition uncrossed (bk : OrderBook.t) : Prop :=
  match OrderBook.bidLevels_ bk, OrderBook.askLevels_ bk with
  | (bid, _) :: _, (ask, _) :: _ => bid < ask
  | _, _ => True
  end.

Definition book_tidy (s : string) (store : gmap Z Order) (bk : OrderBook.t) : Prop :=
  ladder_tidy BUY (OrderBook.bidLevels_ bk)
  ∧ ladder_tidy SELL (OrderBook.askLevels_ bk)
  ∧ uncrossed bk
  ∧ Forall (λ x, from_option (live s) False (store !! x)) (restingIds bk).

(** The order ids handed out so far are those below the counter, which has
    not wrapped; the trade counter is a [uint64_t] value. *)
Definition ids_fresh (st : Engine) : Prop :=
  0 < nextOrderId_ st < 2 ^ 64
  ∧ map_Forall (λ k _, 0 < k < nextOrderId_ st) (orders_ st)
  ∧ in_u64 (nextTradeId_ st).

(** The books are tidy, and the status of every order but [oid] (the order
    the match loop is working on, if any) is sound. *)
Definition tidy_but (oid : option Z) (st : Engine) : Prop :=
  map_Forall (λ s bk, book_tidy s (orders_ st) bk) (orderBooks_ st)
  ∧ map_Forall (λ k o, Some k ≠ oid -> status_sound o) (orders_ st).

(** Conversely, an open order rests: a GFD limit order that is PENDING or
    PARTIALLY_FILLED with quantity left stands in the book of its symbol
    ([oid] excepted, as in [tidy_but]). *)
Definition open_rest (oid : option Z) (st : Engine) : Prop :=
  map_Forall
    (λ k o, Some k ≠ oid -> type o = LIMIT -> timeInForce o = GFD ->
            active (status o) -> filledQuantity o < quantity o ->
            from_option (λ bk, k ∈ restingIds bk) False (orderBooks_ st !! symbol o))
    (orders_ st).

(** The invariant of the engine between two calls. *)
Definition inv (st : Engine) : Prop :=
  wf st ∧ tidy_but None st ∧ ids_fresh st.

#[global] Instance active_dec s : Decision (active s).
Proof. unfold active. apply _. Defined.
#[global] Instance live_dec s o : Decision (live s o).
Proof. unfold live. apply _. Defined.
#[global] Instance status_sound_dec o : Decision (status_sound o).
Proof. unfold status_sound. destruct (status o); apply _. Defined.
#[global] Instance ladder_tidy_dec sd l : Decision (ladder_tidy sd l).
Proof. unfold ladder_tidy. apply _. Defined.
#[global] Instance uncrossed_dec bk : Decision (uncrossed bk).
Proof.
  unfold uncrossed.
  destruct (OrderBook.bidLevels_ bk) as [|[??]?], (OrderBook.askLevels_ bk) as [|[??]?]; apply _.
Defined.
#[global] Instance book_tidy_dec s store bk : Decision (book_tidy s store bk).
Proof.
  unfold book_tidy.
  assert (∀ x, Decision (from_option (live s) False (store !! x))).
  { intros x. destruct (store !! x); simpl; apply _. }
  apply _.
Defined.
#[global] Instance ids_fresh_dec st : Decision (ids_fresh st).
Proof. unfold ids_fresh. apply _. Defined.
#[global] Instance tidy_but_dec oid st : Decision (tidy_but oid st).
Proof. unfold tidy_but. apply _. Defined.
#[global] Instance inv_dec st : Decision (inv st).
Proof. unfold inv. apply _. Defined.

(** ** Sequences of calls *)

(** The calls that change the state of a [TradingEngine]: the two actions
    of [handleOrder], "place" and "cancel", and [initializeUserBalance]. *)
Inductive Op :=
  | OpDeposit (uid amount : Z)
  | OpPlace (uid : Z) (sym : string) (sd : Side) (ty : OrderType) (tif : TimeInForce) (p q : Z)
  | OpCancel (id : Z).

Definition step (op : Op) (st : Engine) : option Engine :=
  match op with
  | OpDeposit uid amount => Some (TradingEngine.initializeUserBalance uid amount st)
  | OpPlace uid sym sd ty tif p q =>
      '(_, st) ← TradingEngine.submitOrder uid sym sd ty tif p q st; Some st
  | OpCancel id => '(_, st) ← TradingEngine.cancelOrder id st; Some st
  end.

Fixpoint run (ops : list Op) (st : Engine) : option Engine :=
  match ops with
  | [] => Some st
  | op :: ops => st ← step op st; run ops st
  end.

(** The quantity of an order is a [uint64_t] value. *)
Definition typed (op : Op) : Prop :=
  match op with
  | OpPlace _ _ _ _ _ _ q => in_u64 q
  | _ => True
  end.

#[global] Instance typed_dec op : Decision (typed op).
Proof. destruct op; simpl; apply _. Defined.

(** ** The match loop on a tidy book *)

Definition sumQty (trades : list Trade) : Z :=
  foldr (λ t acc, tradeQuantity t + acc) 0 trades.

(** The invariant of the match loop for the incoming order [oid], started
    in the state [st0] with the order as [order0] and the book of [sym] as
    [bk0]. *)
Definition match_inv (sym : string) (oid : Z) (st0 : Engine) (order0 : Order)
    (bk0 : OrderBook.t) (st : Engine) (trades : list Trade) : Prop :=
  priced_inv sym st0 order0 bk0 st trades
  ∧ tidy_but (Some oid) st
  ∧ rests_nowhere oid st
  ∧ Forall (λ t, 0 < tradeQuantity t) trades
  ∧ (∃ order, orders_ st !! oid = Some order
              ∧ filledQuantity order = filledQuantity order0 + sumQty trades)
  ∧ (open_rest (Some oid) st0 -> open_rest (Some oid) st)
  ∧ nextOrderId_ st = nextOrderId_ st0
  ∧ userOrders_ st = userOrders_ st0
  ∧ tradeId <$> trades
    = (λ i, u64 (nextTradeId_ st0 + Z.of_nat i)) <$> seq 0 (length trades)
  ∧ nextTradeId_ st = u64 (nextTradeId_ st0 + Z.of_nat (length trades)).

(** The book has nothing left the order could trade with: the ladder of
    the other side is empty, or its best price is beyond the limit of the
    order. *)
Definition out_of_reach (order : Order) (bk : OrderBook.t) : Prop :=
  match OrderBook.levels (opposite (side order)) bk with
  | [] => True
  | (p, _) :: _ =>
      type order = LIMIT
      ∧ match side order with BUY => price order < p | SELL => p < price order end
  end.

(** The status [matchLimitOrder] and [matchMarketOrder] leave an order
    with that came in PENDING. *)
Definition matchedStatus (order : Order) : OrderStatus :=
  if quantity order <=? filledQuantity order then FILLED
  else if 0 <? filledQuantity order then PARTIALLY_FILLED
  else match type order with LIMIT => PENDING | MARKET => CANCELLED end.

(** The test at the end of [processOrder]: what is left of the order goes
    to the book. *)
Definition comes_to_rest (order : Order) : Prop :=
  timeInForce order = GFD ∧ type order = LIMIT
  ∧ filledQuantity order < quantity order ∧ status order ≠ CANCELLED.

#[global] Instance comes_to_rest_dec order : Decision (comes_to_rest order).
Proof. unfold comes_to_rest. apply _. Defined.

(** The status [handleIOC] leaves an order with. *)
Definition iocStatus (order : Order) : OrderStatus :=
  if quantity order <=? filledQuantity order then FILLED
  else if filledQuantity order =? 0 then CANCELLED
  else PARTIALLY_FILLED.

(** ** What [processOrder] does *)

(** [processOrder] has taken the order [order0] at [oid] in the state [st]
    and returned [trades] in the state [st']: [made] are the trades the
    loop has made, [order] is the order and [bk] the book of its symbol
    afterwards. *)
Record processed (oid : Z) (st : Engine) (order0 : Order) (trades made : list Trade)
    (st' : Engine) (order : Order) (bk : OrderBook.t) : Prop := {
  pr_wf : wf st';
  pr_tidy : tidy_but None st';
  pr_static : static <$> orders_ st' = static <$> orders_ st;
  pr_nextOrderId : nextOrderId_ st' = nextOrderId_ st;
  pr_userOrders : userOrders_ st' = userOrders_ st;
  pr_nextTradeId : nextTradeId_ st' = u64 (nextTradeId_ st + Z.of_nat (length made));
  pr_tradeIds :
    tradeId <$> made
    = (λ i, u64 (nextTradeId_ st + Z.of_nat i)) <$> seq 0 (length made);
  pr_emitted : tradesOf st' = tradesOf st ++ made;
  pr_returned :
    trades = made
    ∨ (timeInForce order0 = FOK ∧ trades = [] ∧ status order = CANCELLED);
  pr_priced :
    Forall (λ t, maker_priced (orders_ st) order0
                   (restingIds (default (OrderBook.new (symbol order0))
                                  (orderBooks_ st !! symbol order0))) t
                 ∧ within_limits (orders_ st) t) made;
  pr_positive : Forall (λ t, 0 < tradeQuantity t) made;
  pr_order : orders_ st' !! oid = Some order;
  pr_order_static : static order = static order0;
  pr_filled : filledQuantity order = sumQty made;
  pr_status :
    match timeInForce order0 with
    | GFD => status order = matchedStatus order
    | IOC => status order = iocStatus order
    | FOK => status order = CANCELLED
             ∨ (status order = FILLED ∧ quantity order <= filledQuantity order
                ∧ trades = made)
    end;
  pr_open : open_rest (Some oid) st -> open_rest None st';
  pr_book : orderBooks_ st' !! symbol order0 = Some bk;
  pr_reach : filledQuantity order < quantity order -> out_of_reach order bk;
  pr_rests : comes_to_rest order -> oid ∈ restingIds bk;
  pr_rests_not : ¬ comes_to_rest order -> oid ∉ restingIds bk;
  pr_elsewhere :
    ∀ s b, s ≠ symbol order0 -> orderBooks_ st' !! s = Some b -> oid ∉ restingIds b;
  pr_resting :
    ∀ x, x ∈ restingIds bk ->
         x = oid ∨ x ∈ restingIds (default (OrderBook.new (symbol order0))
                                     (orderBooks_ st !! symbol order0))
}.

(** The number of orders placed by a sequence of calls. *)
Fixpoint places (ops : list Op) : Z :=
  match ops with
  | [] => 0
  | OpPlace _ _ _ _ _ _ _ :: ops => 1 + places ops
  | _ :: ops => places ops
  end.

(** ** A session *)

(** Two sells come to rest, a buy below them rests too, a buy at the best
    ask takes three units of the first sell, another buy rests, and the
    first resting buy is cancelled. *)
Definition session : list Op :=
  [ OpDeposit 1 1000000; OpDeposit 2 1000000;
    OpPlace 2 "X" SELL LIMIT GFD 10000 5;
    OpPlace 2 "X" SELL LIMIT GFD 10100 4;
    OpPlace 1 "X" BUY LIMIT GFD 9900 2;
    OpPlace 1 "X" BUY LIMIT GFD 10000 3;
    OpPlace 1 "X" BUY LIMIT GFD 9800 1;
    OpCancel 3 ].

Definition after_session : Engine := default initial (run session initial).

(** The book of "X" after the session. *)
Definition book_after_session : OrderBook.t :=
  default (OrderBook.new "X") (orderBooks_ after_session !! "X").

(** A buy of 7 at 10100 has been accepted after the session and is about to
    reach [processOrder]: it will take the two units left of the first sell
    and the four of the second, and rest with one. *)
Definition sweep_accepted : Engine :=
  (OrderService.createOrder 1 "X" BUY LIMIT GFD 10100 7 after_session).2.

Definition sweep : Order := mkOrder 6 1 "X" BUY LIMIT GFD 10100 7 0 PENDING.

(** What [processOrder] returns for it. *)
Definition sweep_result : list Trade * Engine :=
  default ([], initial) (MatchingEngine.processOrder 6 sweep_accepted).

(** * Properties *)

(** ** Machine integers *)

Lemma u64_id z : in_u64 z -> u64 z = z.
Proof. unfold in_u64, u64. intros H. apply Z.mod_small. lia. Qed.

Lemma i64_id z : in_i64 z -> i64 z = z.
Proof. unfold in_i64, i64. intros H. rewrite Z.mod_small; lia. Qed.

Lemma u64_range z : in_u64 (u64 z).
Proof. unfold in_u64, u64. apply Z.mod_pos_bound. lia. Qed.

Lemma i64_range z : in_i64 (i64 z).
Proof.
  unfold in_i64, i64.
  pose proof (Z.mod_pos_bound (z + 2 ^ 63) (2 ^ 64)). lia.
Qed.

(** ** The balance ledger *)

Section Ledger.
Import BalanceService.
Implicit Types (b : gmap Z UserBalance) (uid amount : Z).

Lemma ensure_lookup uid b : ensure uid b !! uid = Some (ref uid b).
Proof.
  unfold ensure, ref. destruct (b !! uid) eqn:E; simpl.
  - by rewrite E.
  - by rewrite lookup_insert_eq.
Qed.

Lemma ensure_lookup_ne uid u b : u ≠ uid -> ensure uid b !! u = b !! u.
Proof.
  intros Hne. unfold ensure. destruct (b !! uid); [done|].
  by rewrite lookup_insert_ne.
Qed.

Lemma ref_ensure uid u b : ref u (ensure uid b) = ref u b.
Proof.
  unfold ref. destruct (decide (u = uid)) as [->|Hne].
  - rewrite ensure_lookup. unfold ref. by destruct (b !! uid).
  - by rewrite ensure_lookup_ne.
Qed.

Lemma ensure_absent uid b : b !! uid = None -> ensure uid b = <[uid := zero uid]> b.
Proof. intros H. unfold ensure. by rewrite H. Qed.

Lemma ensure_present uid b ub : b !! uid = Some ub -> ensure uid b = b.
Proof. intros H. unfold ensure. by rewrite H. Qed.

Lemma ensure_idemp uid b : ensure uid (ensure uid b) = ensure uid b.
Proof. eapply ensure_present, ensure_lookup. Qed.

Lemma ref_absent uid b : b !! uid = None -> ref uid b = zero uid.
Proof. intros H. unfold ref. by rewrite H. Qed.

Lemma ref_lookup uid b ub : b !! uid = Some ub -> ref uid b = ub.
Proof. intros H. unfold ref. by rewrite H. Qed.

Lemma ref_alter_eq f uid b :
  is_Some (b !! uid) -> ref uid (alter f uid b) = f (ref uid b).
Proof. intros [ub H]. unfold ref. rewrite lookup_alter_eq, H. done. Qed.

Lemma ref_alter_ne f uid u b : u ≠ uid -> ref u (alter f uid b) = ref u b.
Proof. intros H. unfold ref. by rewrite lookup_alter_ne. Qed.

Lemma ensure_is_Some uid b : is_Some (ensure uid b !! uid).
Proof. rewrite ensure_lookup. eauto. Qed.

(** Every operation that takes a user id goes through
    [getOrCreateBalance], so that it cannot tell an absent account from an
    account holding nothing. *)
Lemma ensure_insert_zero uid b :
  b !! uid = None -> ensure uid (<[uid := zero uid]> b) = ensure uid b.
Proof.
  intros H. rewrite (ensure_absent _ _ H).
  eapply ensure_present, lookup_insert_eq.
Qed.

End Ledger.

(** C9.  [completeTrade] called with an actual cost above the locked amount:
    provided the locked balance covers [lockedAmount] the call succeeds, takes
    [lockedAmount] off the locked balance and leaves the available balance as
    it was (the negative refund is dropped, no [SYSTEM_ERROR]); the locked
    balance stays non-negative, and so does a non-negative available balance.
    Signed overflow is undefined in C++: the statement is for calls in which
    the two subtractions of the function stay within [int64_t]. *)
Theorem completeTrade_negative_refund_clamped
    (b : gmap Z UserBalance) (uid lockedAmount actualAmount : Z) :
  let balance := BalanceService.ref uid b in
  in_i64 (lockedBalance balance - lockedAmount) ->
  in_i64 (lockedAmount - actualAmount) ->
  lockedAmount < actualAmount ->
  lockedAmount <= lockedBalance balance ->
  let r := BalanceService.completeTrade uid lockedAmount actualAmount b in
  r.1 = SUCCESS
  ∧ r.2 !! uid = Some (mkBalance (balanceUserId balance) (availableBalance balance)
                                 (lockedBalance balance - lockedAmount))
  ∧ (∀ u, u ≠ uid -> r.2 !! u = b !! u)
  ∧ 0 <= lockedBalance balance - lockedAmount
  ∧ (0 <= availableBalance balance ->
     ∀ ub, r.2 !! uid = Some ub -> 0 <= availableBalance ub ∧ 0 <= lockedBalance ub).
Proof.
  intros balance Hsub Hrefund Hlt Hle r. subst r.
  unfold BalanceService.completeTrade, BalanceService.getOrCreateBalance.
  rewrite ref_ensure. fold balance.
  destruct (Z.ltb_spec (lockedBalance balance) lockedAmount) as [?|_]; [lia|].
  rewrite (i64_id (lockedAmount - actualAmount)) by done.
  destruct (Z.ltb_spec 0 (lockedAmount - actualAmount)) as [?|_]; [lia|].
  simpl.
  assert (Hup : alter (BalanceService.add_locked (- lockedAmount)) uid
                  (BalanceService.ensure uid b) !! uid
                = Some (mkBalance (balanceUserId balance) (availableBalance balance)
                                  (lockedBalance balance - lockedAmount))).
  { rewrite lookup_alter_eq, ensure_lookup. simpl. fold balance.
    unfold BalanceService.add_locked. f_equal. f_equal.
    apply i64_id. by replace (lockedBalance balance + - lockedAmount)
      with (lockedBalance balance - lockedAmount) by lia. }
  split; [done|]. split; [exact Hup|]. split; [|split; [lia|]].
  - intros u Hu. rewrite lookup_alter_ne by done. by apply ensure_lookup_ne.
  - intros Hav ub Hub. rewrite Hup in Hub. simplify_eq. simpl. lia.
Qed.

(** A user holding 100 available and 50 locked completes a trade that locked
    30 and cost 45. *)
Lemma completeTrade_negative_refund_clamped_witness :
  let b : gmap Z UserBalance := {[ 7 := mkBalance 7 100 50 ]} in
  (BalanceService.completeTrade 7 30 45 b).1 = SUCCESS
  ∧ (BalanceService.completeTrade 7 30 45 b).2 !! 7 = Some (mkBalance 7 100 20).
Proof.
  intros b.
  pose proof (completeTrade_negative_refund_clamped b 7 30 45) as H.
  simpl in H.
  destruct H as (H1 & H2 & _).
  - unfold BalanceService.ref, b. rewrite lookup_singleton_eq. simpl. unfold in_i64. lia.
  - unfold in_i64. lia.
  - lia.
  - unfold BalanceService.ref, b. rewrite lookup_singleton_eq. simpl. lia.
  - split; [exact H1|]. rewrite H2. unfold BalanceService.ref, b.
    rewrite lookup_singleton_eq. reflexivity.
Defined.

Section LedgerDom.
Import BalanceService.
Implicit Types (b : gmap Z UserBalance) (uid amount : Z).

Lemma alter_is_Some (f : UserBalance -> UserBalance) u uid b :
  is_Some (b !! uid) -> is_Some (alter f u b !! uid).
Proof.
  intros [x Hx]. destruct (decide (u = uid)) as [->|Hne].
  - rewrite lookup_alter_eq, Hx. eauto.
  - rewrite lookup_alter_ne by done. eauto.
Qed.

Lemma ensure_keeps u uid b : is_Some (b !! uid) -> is_Some (ensure u b !! uid).
Proof.
  intros H. destruct (decide (uid = u)) as [->|Hne].
  - apply ensure_is_Some.
  - by rewrite ensure_lookup_ne.
Qed.

Lemma lockFunds_creates uid amount b : is_Some ((lockFunds uid amount b).2 !! uid).
Proof.
  unfold lockFunds, getOrCreateBalance.
  destruct (_ <? _); simpl; repeat apply alter_is_Some; apply ensure_is_Some.
Qed.

Lemma unlockFunds_creates uid amount b : is_Some ((unlockFunds uid amount b).2 !! uid).
Proof.
  unfold unlockFunds, getOrCreateBalance.
  destruct (_ <? _); simpl; repeat apply alter_is_Some; apply ensure_is_Some.
Qed.

Lemma hasSufficientBalance_creates uid amount b :
  is_Some ((hasSufficientBalance uid amount b).2 !! uid).
Proof. unfold hasSufficientBalance, getOrCreateBalance. simpl. apply ensure_is_Some. Qed.

Lemma completeTrade_creates uid l a b : is_Some ((completeTrade uid l a b).2 !! uid).
Proof.
  unfold completeTrade, getOrCreateBalance.
  repeat (destruct (_ <? _); simpl); repeat apply alter_is_Some; apply ensure_is_Some.
Qed.

Lemma transferFunds_creates from to amount b :
  is_Some ((transferFunds from to amount b).2 !! from)
  ∧ is_Some ((transferFunds from to amount b).2 !! to).
Proof.
  unfold transferFunds, getOrCreateBalance.
  destruct (_ <? _); simpl; split; repeat apply alter_is_Some;
    first [apply ensure_is_Some | apply ensure_keeps, ensure_is_Some].
Qed.

Lemma ensure_comm u v b : ensure u (ensure v b) = ensure v (ensure u b).
Proof.
  destruct (decide (u = v)) as [->|Hne]; [done|].
  unfold ensure at 1 3.
  rewrite !ensure_lookup_ne by done.
  unfold ensure.
  destruct (b !! u) eqn:Eu, (b !! v) eqn:Ev; simpl;
    rewrite ?lookup_insert_ne, ?Eu, ?Ev by done; try done.
  by apply insert_insert_ne.
Qed.

End LedgerDom.

Section LedgerEnsure.
Import BalanceService.
Implicit Types (b : gmap Z UserBalance) (uid amount : Z).

Lemma lockFunds_ensure uid amount b :
  lockFunds uid amount (ensure uid b) = lockFunds uid amount b.
Proof. unfold lockFunds, getOrCreateBalance. by rewrite ensure_idemp. Qed.

Lemma unlockFunds_ensure uid amount b :
  unlockFunds uid amount (ensure uid b) = unlockFunds uid amount b.
Proof. unfold unlockFunds, getOrCreateBalance. by rewrite ensure_idemp. Qed.

Lemma hasSufficientBalance_ensure uid amount b :
  hasSufficientBalance uid amount (ensure uid b) = hasSufficientBalance uid amount b.
Proof. unfold hasSufficientBalance, getOrCreateBalance. by rewrite ensure_idemp. Qed.

Lemma completeTrade_ensure uid l a b :
  completeTrade uid l a (ensure uid b) = completeTrade uid l a b.
Proof. unfold completeTrade, getOrCreateBalance. by rewrite ensure_idemp. Qed.

Lemma transferFunds_ensure_from from to amount b :
  transferFunds from to amount (ensure from b) = transferFunds from to amount b.
Proof. unfold transferFunds, getOrCreateBalance. by rewrite ensure_idemp. Qed.

Lemma transferFunds_ensure_to from to amount b :
  transferFunds from to amount (ensure to b) = transferFunds from to amount b.
Proof.
  unfold transferFunds, getOrCreateBalance.
  by rewrite (ensure_comm from to), ensure_idemp, !ref_ensure.
Qed.

End LedgerEnsure.

(** C10.  A user id the ledger has never seen: every operation that takes the
    id first creates the account with available = 0 and locked = 0, so that it
    behaves as on a ledger holding that empty account and the account exists
    afterwards.  [getBalance] answers with zeros, [lockFunds] of a positive
    amount fails with [INSUFFICIENT_BALANCE], and a transfer to the unknown
    user from another user who has the funds succeeds and credits the new
    account. *)
Theorem unknown_user_account_created (b : gmap Z UserBalance) (uid : Z) :
  b !! uid = None ->
  let b0 := <[uid := mkBalance uid 0 0]> b in
  (* the three cases the ledger is used for *)
  BalanceService.getBalance uid b = (mkBalance uid 0 0, b0)
  ∧ (∀ amount, 0 < amount ->
       BalanceService.lockFunds uid amount b = (INSUFFICIENT_BALANCE, b0))
  ∧ (∀ from amount,
       from ≠ uid -> in_i64 amount ->
       amount <= availableBalance (BalanceService.ref from b) ->
       (BalanceService.transferFunds from uid amount b).1 = SUCCESS
       ∧ (BalanceService.transferFunds from uid amount b).2 !! uid
         = Some (mkBalance uid amount 0))
  (* every operation works as on the ledger that holds the empty account *)
  ∧ (∀ amount, BalanceService.lockFunds uid amount b = BalanceService.lockFunds uid amount b0)
  ∧ (∀ amount, BalanceService.unlockFunds uid amount b = BalanceService.unlockFunds uid amount b0)
  ∧ (∀ amount, BalanceService.hasSufficientBalance uid amount b
               = BalanceService.hasSufficientBalance uid amount b0)
  ∧ (∀ l a, BalanceService.completeTrade uid l a b = BalanceService.completeTrade uid l a b0)
  ∧ (∀ to amount, BalanceService.transferFunds uid to amount b
                  = BalanceService.transferFunds uid to amount b0)
  ∧ (∀ from amount, BalanceService.transferFunds from uid amount b
                    = BalanceService.transferFunds from uid amount b0)
  (* and the account is in the map afterwards *)
  ∧ (∀ amount, is_Some ((BalanceService.lockFunds uid amount b).2 !! uid))
  ∧ (∀ amount, is_Some ((BalanceService.unlockFunds uid amount b).2 !! uid))
  ∧ (∀ amount, is_Some ((BalanceService.hasSufficientBalance uid amount b).2 !! uid))
  ∧ (∀ l a, is_Some ((BalanceService.completeTrade uid l a b).2 !! uid))
  ∧ (∀ to amount, is_Some ((BalanceService.transferFunds uid to amount b).2 !! uid))
  ∧ (∀ from amount, is_Some ((BalanceService.transferFunds from uid amount b).2 !! uid)).
Proof.
  intros Hnone b0.
  assert (He : b0 = BalanceService.ensure uid b).
  { symmetry. by apply ensure_absent. }
  assert (Hr : BalanceService.ref uid b = mkBalance uid 0 0) by by apply ref_absent.
  repeat apply conj.
  - unfold BalanceService.getBalance, BalanceService.getOrCreateBalance.
    by rewrite ref_ensure, Hr, He.
  - intros amount Hpos.
    unfold BalanceService.lockFunds, BalanceService.getOrCreateBalance.
    rewrite ref_ensure, Hr, <- He. simpl.
    destruct (Z.ltb_spec 0 amount); [done | lia].
  - intros from amount Hne Hrange Hle.
    unfold BalanceService.transferFunds, BalanceService.getOrCreateBalance.
    rewrite !ref_ensure.
    destruct (Z.ltb_spec (availableBalance (BalanceService.ref from b)) amount); [lia|].
    simpl. split; [done|].
    rewrite lookup_alter_eq, lookup_alter_ne by done.
    rewrite ensure_lookup, ref_ensure, Hr. simpl.
    unfold BalanceService.add_available. simpl. by rewrite i64_id.
  - intros amount. by rewrite He, lockFunds_ensure.
  - intros amount. by rewrite He, unlockFunds_ensure.
  - intros amount. by rewrite He, hasSufficientBalance_ensure.
  - intros l a. by rewrite He, completeTrade_ensure.
  - intros to amount. by rewrite He, transferFunds_ensure_from.
  - intros from amount. by rewrite He, transferFunds_ensure_to.
  - intros. apply lockFunds_creates.
  - intros. apply unlockFunds_creates.
  - intros. apply hasSufficientBalance_creates.
  - intros. apply completeTrade_creates.
  - intros. apply transferFunds_creates.
  - intros. apply transferFunds_creates.
Qed.

(** Only user 1 is known; user 9 is looked up, locks 10, and receives 200. *)
Lemma unknown_user_account_created_witness :
  BalanceService.getBalance 9 {[ 1 := mkBalance 1 500 0 ]}
    = (mkBalance 9 0 0, <[9 := mkBalance 9 0 0]> {[ 1 := mkBalance 1 500 0 ]})
  ∧ BalanceService.lockFunds 9 10 {[ 1 := mkBalance 1 500 0 ]}
    = (INSUFFICIENT_BALANCE, <[9 := mkBalance 9 0 0]> {[ 1 := mkBalance 1 500 0 ]})
  ∧ (BalanceService.transferFunds 1 9 200 {[ 1 := mkBalance 1 500 0 ]}).2 !! 9
    = Some (mkBalance 9 200 0).
Proof.
  destruct (unknown_user_account_created {[ 1 := mkBalance 1 500 0 ]} 9)
    as (Hget & Hlock & Htransfer & _).
  - reflexivity.
  - split; [exact Hget|]. split.
    + apply Hlock. lia.
    + apply Htransfer.
      * discriminate.
      * unfold in_i64. lia.
      * vm_compute. discriminate.
Defined.

(** ** The scenarios, run on the code *)

(** C1, on the code.  Scenario 1 produces the one trade of 5 at 10000 and both
    orders end FILLED, and user 2 ends with 1,050,000 available; but user 1
    ends with 900,000 available and nothing locked, not 950,000:
    [completeTrade] drops the reservation of 52,500 and hands back the 2,500
    of price improvement, and [transferFunds] then takes the 50,000 of the
    trade from the available balance a second time. *)
Theorem simple_cross_debits_buyer_twice :
  ∃ st,
    simple_cross = Some st
    ∧ tradesOf st = [mkTrade 1 2 1 1 2 "X" 10000 5]
    ∧ statusOf 1 st = Some FILLED
    ∧ statusOf 2 st = Some FILLED
    ∧ availableOf 1 st = 900000
    ∧ lockedOf 1 st = 0
    ∧ availableOf 2 st = 1050000
    ∧ lockedOf 2 st = 0.
Proof. eexists. split; [vm_compute; reflexivity|]. vm_compute. tauto. Qed.

(** C2, on the code.  Scenario 4: [processOrder] runs the match loop first and
    [handleFOK] after it.  The FOK buy of 10 against a single sell of 3 trades
    the 3 (the trade reaches the trade callback although [processOrder]
    returns no trade), the resting sell is FILLED and gone from the book, the
    buy ends CANCELLED with 3 filled, and the attempt to unlock the whole
    100,000 fails against the 70,000 still locked, which stay locked. *)
Theorem fok_short_matches_before_the_check :
  ∃ accepted st,
    fok_short_accepted = Some accepted
    ∧ MatchingEngine.processOrder 2 accepted = Some ([], st)
    ∧ fok_short = Some st
    ∧ tradesOf st = [mkTrade 1 2 1 1 2 "X" 10000 3]
    ∧ orders_ st !! 2 = Some (mkOrder 2 1 "X" BUY LIMIT FOK 10000 10 3 CANCELLED)
    ∧ orders_ st !! 1 = Some (mkOrder 1 2 "X" SELL LIMIT GFD 10000 3 3 FILLED)
    ∧ (OrderBook.askLevels_ <$> orderBooks_ accepted !! "X")
      = Some [(10000, PriceLevel.mk 10000 3 [1])]
    ∧ (OrderBook.askLevels_ <$> orderBooks_ st !! "X") = Some []
    ∧ lockedOf 1 st = 70000
    ∧ availableOf 1 st = 870000.
Proof.
  eexists _, _. split; [vm_compute; reflexivity|].
  split; [vm_compute; reflexivity|]. vm_compute. tauto.
Qed.

(** C3, on the code.  After the front order of a level has been partially
    filled, the level still reports the quantity it had before the fill: the
    match loop raises [filledQuantity] of the resting order and nothing
    lowers [totalQuantity_]. *)
Theorem front_fill_leaves_level_total_stale :
  ∃ st bk lv,
    front_partially_filled = Some st
    ∧ orderBooks_ st !! "X" = Some bk
    ∧ OrderBook.askLevels_ bk = [(10000, lv)]
    ∧ PriceLevel.orders_ lv = [1]
    ∧ orders_ st !! 1 = Some (mkOrder 1 2 "X" SELL LIMIT GFD 10000 5 2 PARTIALLY_FILLED)
    ∧ levelUnfilled (orders_ st) lv = 3
    ∧ PriceLevel.getTotalQuantity lv = 5.
Proof.
  eexists _, _, _. split; [vm_compute; reflexivity|].
  split; [vm_compute; reflexivity|].
  split; [vm_compute; reflexivity|]. vm_compute. tauto.
Qed.

(** C4, on the code.  A FOK buy of 10 meets a resting sell of 10: the match
    loop fills it and [matchLimitOrder] sets it FILLED; [handleFOK], run after
    the loop, finds the book empty, and [processOrder] sets the same order
    CANCELLED, with its ten units filled. *)
Theorem fok_filled_then_cancelled :
  ∃ accepted trades matched final,
    fok_exact_accepted = Some accepted
    ∧ MatchingEngine.matchLimitOrder "X" 2 accepted = Some (trades, matched)
    ∧ orders_ matched !! 2 = Some (mkOrder 2 1 "X" BUY LIMIT FOK 10000 10 10 FILLED)
    ∧ MatchingEngine.processOrder 2 accepted = Some ([], final)
    ∧ orders_ final !! 2 = Some (mkOrder 2 1 "X" BUY LIMIT FOK 10000 10 10 CANCELLED).
Proof.
  eexists _, _, _, _. split; [vm_compute; reflexivity|].
  split; [vm_compute; reflexivity|].
  split; [vm_compute; reflexivity|].
  split; [vm_compute; reflexivity|]. vm_compute. reflexivity.
Qed.

(** ** Cancellation *)

(** C7, on the code.  [cancelOrder] refuses an order only when its status is
    neither PENDING nor PARTIALLY_FILLED, and it drops the answer of
    [unlockFunds].

    An IOC buy that [handleIOC] has left PARTIALLY_FILLED is final, and its
    reservation has been released; it rests in no book.  Cancelling it is
    answered SUCCESS all the same, sets it CANCELLED and unlocks limit price
    times unfilled quantity a second time: 70,000 of the 90,000 that are
    reserved for the user's other order, which still rests.

    After the account of a resting buy has been initialised again nothing
    is locked: the cancel is answered SUCCESS, and no amount is unlocked. *)
Theorem partially_filled_ioc_is_cancelled_again :
  (∃ st st',
     ioc_partial_then_buy = Some st
     ∧ orders_ st !! 2 = Some (mkOrder 2 1 "X" BUY LIMIT IOC 10000 10 3 PARTIALLY_FILLED)
     ∧ rests_nowhere 2 st
     ∧ orders_ st !! 3 = Some (mkOrder 3 1 "X" BUY LIMIT GFD 9000 10 0 PENDING)
     ∧ (restingIds <$> orderBooks_ st !! "X") = Some [3]
     ∧ availableOf 1 st = 850000 ∧ lockedOf 1 st = 90000
     ∧ OrderService.cancelOrder 2 st = (SUCCESS, st')
     ∧ orders_ st' !! 2 = Some (mkOrder 2 1 "X" BUY LIMIT IOC 10000 10 3 CANCELLED)
     ∧ orders_ st' !! 3 = Some (mkOrder 3 1 "X" BUY LIMIT GFD 9000 10 0 PENDING)
     ∧ (restingIds <$> orderBooks_ st' !! "X") = Some [3]
     ∧ availableOf 1 st' = 920000 ∧ lockedOf 1 st' = 20000)
  ∧ (∃ st st',
       resting_buy_redeposited = Some st
       ∧ orders_ st !! 1 = Some (mkOrder 1 1 "X" BUY LIMIT GFD 10000 5 0 PENDING)
       ∧ availableOf 1 st = 1000000 ∧ lockedOf 1 st = 0
       ∧ OrderService.cancelOrder 1 st = (SUCCESS, st')
       ∧ orders_ st' !! 1 = Some (mkOrder 1 1 "X" BUY LIMIT GFD 10000 5 0 CANCELLED)
       ∧ availableOf 1 st' = 1000000 ∧ lockedOf 1 st' = 0).
Proof.
  split.
  - eexists _, _. split; [vm_compute; reflexivity|].
    split; [vm_compute; reflexivity|].
    split; [apply (bool_decide_unpack _); vm_compute; exact I|].
    split; [vm_compute; reflexivity|].
    split; [vm_compute; reflexivity|].
    split; [vm_compute; reflexivity|].
    split; [vm_compute; reflexivity|].
    split; [vm_compute; reflexivity|]. vm_compute. tauto.
  - eexists _, _. split; [vm_compute; reflexivity|].
    split; [vm_compute; reflexivity|].
    split; [vm_compute; reflexivity|].
    split; [vm_compute; reflexivity|].
    split; [vm_compute; reflexivity|]. vm_compute. tauto.
Qed.

(** ** The store of orders *)

Section Store.
Implicit Types (s : gmap Z Order) (o : Order) (k : Z).

Lemma static_set_status x o : static (set_status x o) = static o.
Proof. reflexivity. Qed.

Lemma static_set_filledQuantity f o : static (set_filledQuantity f o) = static o.
Proof. reflexivity. Qed.

Lemma static_add_filled q o : static (MatchingEngine.add_filled q o) = static o.
Proof. reflexivity. Qed.

Lemma static_fields o o' :
  static o' = static o ->
  orderId o' = orderId o ∧ userId o' = userId o ∧ symbol o' = symbol o
  ∧ side o' = side o ∧ type o' = type o ∧ timeInForce o' = timeInForce o
  ∧ price o' = price o ∧ quantity o' = quantity o.
Proof. destruct o, o'. unfold static. simpl. intros H. by simplify_eq. Qed.

Lemma fmap_static_alter (f : Order -> Order) k s :
  (∀ o, static (f o) = static o) ->
  static <$> alter f k s = static <$> s.
Proof.
  intros Hf. apply map_eq. intros i. rewrite !lookup_fmap.
  destruct (decide (k = i)) as [->|Hne].
  - rewrite lookup_alter_eq. destruct (s !! i); simpl; by rewrite ?Hf.
  - by rewrite lookup_alter_ne.
Qed.

Lemma lookup_static s s' k o :
  static <$> s' = static <$> s ->
  s !! k = Some o ->
  ∃ o', s' !! k = Some o' ∧ static o' = static o.
Proof.
  intros Heq Hk.
  assert (H : (static <$> s') !! k = (static <$> s) !! k) by by rewrite Heq.
  rewrite !lookup_fmap, Hk in H. simpl in H.
  destruct (s' !! k) as [o'|]; simpl in H; [|done].
  exists o'. split; [done|]. congruence.
Qed.

Lemma lookup_static_None s s' k :
  static <$> s' = static <$> s -> s !! k = None -> s' !! k = None.
Proof.
  intros Heq Hk.
  assert (H : (static <$> s') !! k = (static <$> s) !! k) by by rewrite Heq.
  rewrite !lookup_fmap, Hk in H. simpl in H.
  by destruct (s' !! k).
Qed.

End Store.

(** ** [executeTrade] *)

Lemma getOrderBook_lookup sym st : is_Some (orderBooks_ (MatchingEngine.getOrderBook sym st) !! sym).
Proof.
  unfold MatchingEngine.getOrderBook.
  destruct (orderBooks_ st !! sym) eqn:E; simpl; [by rewrite E|].
  rewrite lookup_insert_eq. eauto.
Qed.

Lemma getOrderBook_present sym st bk :
  orderBooks_ st !! sym = Some bk -> MatchingEngine.getOrderBook sym st = st.
Proof. intros H. unfold MatchingEngine.getOrderBook. by rewrite H. Qed.

Lemma getOrderBook_other sym s st :
  s ≠ sym -> orderBooks_ (MatchingEngine.getOrderBook sym st) !! s = orderBooks_ st !! s.
Proof.
  intros Hne. unfold MatchingEngine.getOrderBook.
  destruct (orderBooks_ st !! sym); simpl; [done|]. by rewrite lookup_insert_ne.
Qed.

Lemma getOrderBook_fields sym st :
  balances_ (MatchingEngine.getOrderBook sym st) = balances_ st
  ∧ orders_ (MatchingEngine.getOrderBook sym st) = orders_ st
  ∧ emitted (MatchingEngine.getOrderBook sym st) = emitted st
  ∧ nextOrderId_ (MatchingEngine.getOrderBook sym st) = nextOrderId_ st
  ∧ nextTradeId_ (MatchingEngine.getOrderBook sym st) = nextTradeId_ st
  ∧ userOrders_ (MatchingEngine.getOrderBook sym st) = userOrders_ st.
Proof. unfold MatchingEngine.getOrderBook. by destruct (orderBooks_ st !! sym). Qed.

(** What [executeTrade] does, for valid pointers. *)
Lemma executeTrade_spec buyPtr sellPtr p q st buy sell :
  orders_ st !! buyPtr = Some buy ->
  orders_ st !! sellPtr = Some sell ->
  ∃ st',
    MatchingEngine.executeTrade buyPtr sellPtr p q st
    = Some (mkTrade (nextTradeId_ st) (orderId buy) (orderId sell) (userId buy)
                    (userId sell) (symbol buy) p q, st')
    ∧ orders_ st' = orders_ st
    ∧ emitted st' = emitted st
    ∧ nextOrderId_ st' = nextOrderId_ st
    ∧ userOrders_ st' = userOrders_ st
    ∧ nextTradeId_ st' = u64 (nextTradeId_ st + 1)
    ∧ balances_ st'
      = (BalanceService.transferFunds (userId buy) (userId sell) (i64 (p * q))
           (BalanceService.completeTrade (userId buy) (i64 (price buy * q)) (i64 (p * q))
              (balances_ st)).2).2
    ∧ orderBooks_ st'
      = alter (OrderBook.updateLastTrade p q) (symbol buy)
          (orderBooks_ (MatchingEngine.getOrderBook (symbol buy) st)).
Proof.
  intros Hb Hs. unfold MatchingEngine.executeTrade. rewrite Hb, Hs. simpl.
  eexists. split; [reflexivity|]. simpl.
  unfold MatchingEngine.getOrderBook. simpl.
  destruct (orderBooks_ st !! symbol buy); simpl; repeat split.
Qed.

Lemma executeTrade_Some buyPtr sellPtr p q st r :
  MatchingEngine.executeTrade buyPtr sellPtr p q st = Some r ->
  ∃ buy sell, orders_ st !! buyPtr = Some buy ∧ orders_ st !! sellPtr = Some sell.
Proof.
  unfold MatchingEngine.executeTrade. intros H.
  destruct (orders_ st !! buyPtr) as [buy|]; [|done].
  destruct (orders_ st !! sellPtr) as [sell|]; [|done]. eauto.
Qed.

(** ** Price levels and ladders *)

Section Ladders.
Implicit Types (l : list (Z * PriceLevel.t)) (lv : PriceLevel.t) (ids : list Z).

Lemma erase_elem_of id x ids : x ∈ PriceLevel.erase id ids -> x ∈ ids.
Proof.
  induction ids as [|y ids IH]; simpl; [done|].
  destruct (decide (y = id)) as [->|Hne].
  - intros H. by apply elem_of_cons; right.
  - intros [->|H]%elem_of_cons; [by left | right; auto].
Qed.

Lemma erase_length id ids :
  id ∈ ids -> S (length (PriceLevel.erase id ids)) = length ids.
Proof.
  induction ids as [|y ids IH]; simpl.
  - by intros ?%elem_of_nil.
  - destruct (decide (y = id)) as [->|Hne]; [done|].
    intros [->|H]%elem_of_cons; [done|]. simpl. by rewrite IH.
Qed.

Lemma erase_NoDup id ids : NoDup ids -> NoDup (PriceLevel.erase id ids).
Proof.
  induction 1 as [|y ids Hy Hnd IH]; simpl; [constructor|].
  destruct (decide (y = id)); [done|].
  constructor; [|done]. intros H. by apply Hy, erase_elem_of with id.
Qed.

Lemma erase_not_elem_of id ids : NoDup ids -> id ∉ PriceLevel.erase id ids.
Proof.
  induction 1 as [|y ids Hy Hnd IH]; simpl; [by intros ?%elem_of_nil|].
  destruct (decide (y = id)) as [->|Hne]; [done|].
  intros [->|H]%elem_of_cons; [done | by apply IH].
Qed.

Lemma erase_elem_of_ne id x ids : x ∈ ids -> x ≠ id -> x ∈ PriceLevel.erase id ids.
Proof.
  induction ids as [|y ids IH]; simpl; [done|].
  intros Hx Hne. destruct (decide (y = id)) as [->|Hy].
  - apply elem_of_cons in Hx as [->|Hx]; done.
  - apply elem_of_cons in Hx as [->|Hx]; [by left | right; auto].
Qed.

Lemma erase_absent id ids : id ∉ ids -> PriceLevel.erase id ids = ids.
Proof.
  induction ids as [|y ids IH]; simpl; [done|].
  intros H. destruct (decide (y = id)) as [->|Hne].
  - exfalso. apply H. by left.
  - f_equal. apply IH. intros ?. apply H. by right.
Qed.

Lemma erase_app_r id u w : id ∉ u -> PriceLevel.erase id (u ++ w) = u ++ PriceLevel.erase id w.
Proof.
  induction u as [|y u IH]; simpl; [done|].
  intros H. destruct (decide (y = id)) as [->|Hne].
  - exfalso. apply H. by left.
  - f_equal. apply IH. intros ?. apply H. by right.
Qed.

Lemma erase_app_l id u w : id ∈ u -> PriceLevel.erase id (u ++ w) = PriceLevel.erase id u ++ w.
Proof.
  induction u as [|y u IH]; simpl; [by intros ?%elem_of_nil|].
  intros H. destruct (decide (y = id)) as [->|Hne]; [done|].
  simpl. f_equal. apply IH. by apply elem_of_cons in H as [->|H].
Qed.

Lemma ladderIds_app l1 l2 : ladderIds (l1 ++ l2) = ladderIds l1 ++ ladderIds l2.
Proof. unfold ladderIds. by rewrite fmap_app, concat_app. Qed.

Lemma ladderIds_cons p lv l : ladderIds ((p, lv) :: l) = PriceLevel.orders_ lv ++ ladderIds l.
Proof. reflexivity. Qed.

Lemma nodes_length l : OrderBook.nodes l = length (ladderIds l).
Proof.
  induction l as [|[p lv] l IH]; [done|].
  rewrite ladderIds_cons, length_app. simpl. by rewrite IH.
Qed.

(** [find] designates the first level with the key; [update] and [erase]
    act on that level. *)
Lemma find_split p l lv :
  OrderBook.find p l = Some lv ->
  ∃ l1 l2,
    l = l1 ++ (p, lv) :: l2
    ∧ (∀ lv', OrderBook.update p lv' l = l1 ++ (p, lv') :: l2)
    ∧ OrderBook.erase p l = l1 ++ l2.
Proof.
  induction l as [|[q lq] l IH]; simpl; [done|].
  destruct (decide (q = p)) as [->|Hne].
  - intros [= ->]. by exists [], l.
  - intros H. destruct (IH H) as (l1 & l2 & -> & Hup & Her).
    exists ((q, lq) :: l1), l2. simpl. split; [done|]. split.
    + intros lv'. by rewrite Hup.
    + by rewrite Her.
Qed.

Lemma find_None_put before p lv l :
  OrderBook.find p l = None ->
  ∃ l1 l2, l = l1 ++ l2 ∧ OrderBook.put before p lv l = l1 ++ (p, lv) :: l2.
Proof.
  induction l as [|[q lq] l IH]; simpl.
  - intros _. by exists [], [].
  - destruct (decide (q = p)) as [->|Hne]; [done|]. intros H.
    destruct (before p q).
    + by exists [], ((q, lq) :: l).
    + destruct (IH H) as (l1 & l2 & -> & ->). by exists ((q, lq) :: l1), l2.
Qed.

Lemma elem_of_ladderIds id l :
  id ∈ ladderIds l <-> ∃ p lv, (p, lv) ∈ l ∧ id ∈ PriceLevel.orders_ lv.
Proof.
  induction l as [|[q lq] l IH].
  - split; [by intros ?%elem_of_nil | by intros (? & ? & ?%elem_of_nil & _)].
  - rewrite ladderIds_cons, elem_of_app, IH. split.
    + intros [H|(p & lv & H1 & H2)].
      * exists q, lq. split; [by left | done].
      * exists p, lv. split; [by right | done].
    + intros (p & lv & [Heq|H1]%elem_of_cons & H2).
      * injection Heq as -> ->. by left.
      * right. by exists p, lv.
Qed.

Lemma find_elem_of p lv l :
  NoDup (l.*1) -> (p, lv) ∈ l -> OrderBook.find p l = Some lv.
Proof.
  induction l as [|[q lq] l IH]; [by intros _ ?%elem_of_nil|].
  simpl. intros [Hq Hnd]%NoDup_cons [Heq|H]%elem_of_cons.
  - injection Heq as <- <-. by destruct (decide (p = p)).
  - destruct (decide (q = p)) as [->|Hne]; [|by apply IH].
    exfalso. apply Hq. apply list_elem_of_fmap. by exists (p, lv).
Qed.

Lemma find_Some_elem_of p lv l : OrderBook.find p l = Some lv -> (p, lv) ∈ l.
Proof.
  intros (l1 & l2 & -> & _)%find_split. apply elem_of_app. right. by left.
Qed.

Lemma find_None_key p l : OrderBook.find p l = None -> p ∉ l.*1.
Proof.
  induction l as [|[q lq] l IH]; simpl; [by intros _ ?%elem_of_nil|].
  destruct (decide (q = p)) as [->|Hne]; [done|].
  intros H [->|H']%elem_of_cons; [done | by apply IH].
Qed.

End Ladders.

Section Removal.
Implicit Types (l : list (Z * PriceLevel.t)) (lv : PriceLevel.t) (ids : list Z)
  (store : gmap Z Order) (bk : OrderBook.t).

Lemma erase_sublist id ids : PriceLevel.erase id ids `sublist_of` ids.
Proof.
  induction ids as [|y ids IH]; simpl; [done|].
  destruct (decide (y = id)); [by apply sublist_cons | by apply sublist_skip].
Qed.

Lemma level_removeOrder_elem store id lv o :
  id ∈ PriceLevel.orders_ lv ->
  store !! id = Some o ->
  PriceLevel.removeOrder store id lv
  = Some (PriceLevel.mk (PriceLevel.price_ lv)
            (u64 (PriceLevel.totalQuantity_ lv - u64 (quantity o - filledQuantity o)))
            (PriceLevel.erase id (PriceLevel.orders_ lv))).
Proof.
  intros Hin Ho. unfold PriceLevel.removeOrder.
  destruct (decide (id ∈ PriceLevel.orders_ lv)); [|done]. by rewrite Ho.
Qed.

Lemma level_removeOrder_orders store id lv lv' :
  PriceLevel.removeOrder store id lv = Some lv' ->
  PriceLevel.orders_ lv' = PriceLevel.erase id (PriceLevel.orders_ lv).
Proof.
  unfold PriceLevel.removeOrder.
  destruct (decide (id ∈ PriceLevel.orders_ lv)) as [Hin|Hout].
  - destruct (store !! id); simpl; [|done]. by intros [= <-].
  - intros [= <-]. by rewrite erase_absent.
Qed.

Lemma without_ids p id lv lv' l :
  OrderBook.find p l = Some lv ->
  PriceLevel.orders_ lv' = PriceLevel.erase id (PriceLevel.orders_ lv) ->
  ∃ a b,
    ladderIds l = a ++ PriceLevel.orders_ lv ++ b
    ∧ ladderIds (without p lv' l) = a ++ PriceLevel.erase id (PriceLevel.orders_ lv) ++ b.
Proof.
  intros (l1 & l2 & -> & Hup & Her)%find_split Hlv'.
  exists (ladderIds l1), (ladderIds l2).
  split; [by rewrite ladderIds_app, ladderIds_cons|].
  unfold without, PriceLevel.isEmpty.
  destruct (PriceLevel.orders_ lv') eqn:E.
  - by rewrite Her, ladderIds_app, <- Hlv'.
  - by rewrite Hup, ladderIds_app, ladderIds_cons, E, Hlv'.
Qed.

Lemma without_keys p lv' l : (without p lv' l).*1 `sublist_of` l.*1.
Proof.
  unfold without. destruct (PriceLevel.isEmpty lv').
  - induction l as [|[q lq] l IH]; simpl; [done|].
    destruct (decide (q = p)); [by apply sublist_cons | by apply sublist_skip].
  - induction l as [|[q lq] l IH]; simpl; [done|].
    destruct (decide (q = p)) as [->|]; by apply sublist_skip.
Qed.

Lemma without_levels p id lv lv' l q lq' :
  OrderBook.find p l = Some lv ->
  PriceLevel.orders_ lv' = PriceLevel.erase id (PriceLevel.orders_ lv) ->
  (q, lq') ∈ without p lv' l ->
  (q, lq') ∈ l ∨ (q = p ∧ lq' = lv').
Proof.
  intros (l1 & l2 & -> & Hup & Her)%find_split Hlv'.
  unfold without. destruct (PriceLevel.isEmpty lv').
  - rewrite Her. rewrite !elem_of_app, elem_of_cons. tauto.
  - rewrite Hup. rewrite !elem_of_app, !elem_of_cons.
    intros [?|[[= -> ->]|?]]; tauto.
Qed.

End Removal.

Section BookRemoval.
Implicit Types (l : list (Z * PriceLevel.t)) (lv : PriceLevel.t) (ids : list Z)
  (store : gmap Z Order) (bk : OrderBook.t).

Lemma levels_set_levels sd l bk : OrderBook.levels sd (OrderBook.set_levels sd l bk) = l.
Proof. by destruct sd. Qed.

Lemma node_ok_store store store' bk sd p id :
  static <$> store' = static <$> store ->
  node_ok store bk sd p id -> node_ok store' bk sd p id.
Proof.
  intros Heq [Hin Ho]. split; [done|].
  destruct (store !! id) as [o|] eqn:E; [|done].
  destruct (lookup_static _ _ _ _ Heq E) as (o' & -> & Hs). simpl in *.
  apply static_fields in Hs. destruct Hs as (_ & _ & _ & -> & _ & _ & -> & _). done.
Qed.

Lemma ladder_ok_store store store' bk sd l :
  static <$> store' = static <$> store ->
  ladder_ok store bk sd l -> ladder_ok store' bk sd l.
Proof.
  intros Heq [Hk Hn]. split; [done|].
  eapply Forall_impl; [exact Hn|]. intros pl Hpl.
  eapply Forall_impl; [exact Hpl|]. intros id. by apply node_ok_store.
Qed.

Lemma book_ok_store store store' bk :
  static <$> store' = static <$> store -> book_ok store bk -> book_ok store' bk.
Proof.
  intros Heq (Hb & Ha & Hnd & Hidx).
  split; [by eapply ladder_ok_store|]. split; [by eapply ladder_ok_store|]. done.
Qed.

Lemma ladder_ok_node store bk sd l id :
  ladder_ok store bk sd l -> id ∈ ladderIds l ->
  ∃ p lv o, OrderBook.find p l = Some lv ∧ id ∈ PriceLevel.orders_ lv
            ∧ id ∈ OrderBook.orderMap_ bk
            ∧ store !! id = Some o ∧ price o = p ∧ side o = sd.
Proof.
  intros [Hk Hn] (p & lv & Hl & Hid)%elem_of_ladderIds.
  rewrite Forall_forall in Hn. specialize (Hn _ Hl). simpl in Hn.
  rewrite Forall_forall in Hn. destruct (Hn _ Hid) as [Hm Ho].
  destruct (store !! id) as [o|] eqn:E; [|done]. simpl in Ho.
  exists p, lv, o. split; [by apply find_elem_of|]. tauto.
Qed.

(** The ladder [l'] holds nodes of [l] at their prices, and the book [bk']
    knows them all: [l'] is in order for [bk']. *)
Lemma ladder_ok_sub store bk bk' sd l l' :
  ladder_ok store bk sd l ->
  NoDup (l'.*1) ->
  (∀ q lq' x, (q, lq') ∈ l' -> x ∈ PriceLevel.orders_ lq' ->
     x ∈ OrderBook.orderMap_ bk'
     ∧ ∃ lq, (q, lq) ∈ l ∧ x ∈ PriceLevel.orders_ lq) ->
  ladder_ok store bk' sd l'.
Proof.
  intros [Hk Hn] Hk' Hsub. split; [done|].
  apply Forall_forall. intros [q lq'] Hin. simpl.
  apply Forall_forall. intros x Hx.
  destruct (Hsub _ _ _ Hin Hx) as (Hm & lq & Hlq & Hxq).
  rewrite Forall_forall in Hn. specialize (Hn _ Hlq). simpl in Hn.
  rewrite Forall_forall in Hn. destruct (Hn _ Hxq) as [_ Ho]. by split.
Qed.

Lemma restingIds_levels sd bk x :
  x ∈ ladderIds (OrderBook.levels sd bk) -> x ∈ restingIds bk.
Proof. unfold restingIds. rewrite elem_of_app. destruct sd; simpl; tauto. Qed.

(** Removing an order that rests where its price and side say. *)
Lemma removeOrder_resting store bk sd id :
  book_ok store bk ->
  id ∈ ladderIds (OrderBook.levels sd bk) ->
  ∃ bk',
    OrderBook.removeOrder store id sd bk = Some (true, bk')
    ∧ (S (length (restingIds bk')) = length (restingIds bk))
    ∧ (∀ x, x ∈ restingIds bk' -> x ∈ restingIds bk)
    ∧ (id ∉ restingIds bk')
    ∧ restingIds bk' = PriceLevel.erase id (restingIds bk)
    ∧ book_ok store bk'
    ∧ OrderBook.lastTradePrice_ bk' = OrderBook.lastTradePrice_ bk
    ∧ OrderBook.totalVolume_ bk' = OrderBook.totalVolume_ bk
    ∧ OrderBook.levels (opposite sd) bk' = OrderBook.levels (opposite sd) bk
    ∧ (∃ p lv lv',
         OrderBook.find p (OrderBook.levels sd bk) = Some lv
         ∧ id ∈ PriceLevel.orders_ lv
         ∧ PriceLevel.orders_ lv' = PriceLevel.erase id (PriceLevel.orders_ lv)
         ∧ OrderBook.levels sd bk' = without p lv' (OrderBook.levels sd bk)).
Proof.
  intros Hok Hid.
  assert (Hl : ladder_ok store bk sd (OrderBook.levels sd bk)).
  { destruct Hok as (? & ? & _). by destruct sd. }
  destruct (ladder_ok_node _ _ _ _ _ Hl Hid) as (p & lv & o & Hfind & Hin & Hm & Ho & Hp & Hs).
  unfold OrderBook.removeOrder.
  destruct (decide (id ∈ OrderBook.orderMap_ bk)); [|done].
  rewrite Ho. simpl. rewrite Hp, Hfind.
  rewrite (level_removeOrder_elem _ _ _ _ Hin Ho). simpl.
  set (lv' := PriceLevel.mk _ _ _).
  fold (without p lv' (OrderBook.levels sd bk)).
  set (l' := without p lv' (OrderBook.levels sd bk)).
  eexists. split; [reflexivity|].
  destruct (without_ids p id lv lv' _ Hfind eq_refl) as (a & b & Ha & Hb).
  fold l' in Hb.
  set (bk' := OrderBook.set_orderMap _ _).
  assert (Hother : ∀ sd', sd' ≠ sd -> OrderBook.levels sd' bk' = OrderBook.levels sd' bk).
  { intros sd' Hne. by destruct sd, sd'. }
  assert (Hthis : OrderBook.levels sd bk' = l') by by destruct sd.
  destruct Hok as (Hbid & Hask & Hnd & Hidx).
  (* the ids of the book, with the ladder of [sd] split around the level *)
  assert (Hshape : ∃ u v,
             restingIds bk = u ++ PriceLevel.orders_ lv ++ v
             ∧ restingIds bk' = u ++ PriceLevel.erase id (PriceLevel.orders_ lv) ++ v).
  { assert (Hr : ∀ b0, restingIds b0 = ladderIds (OrderBook.levels BUY b0)
                                      ++ ladderIds (OrderBook.levels SELL b0)) by done.
    rewrite !Hr. destruct sd.
    - exists a, (b ++ ladderIds (OrderBook.levels SELL bk)).
      rewrite Hthis, (Hother SELL) by done. rewrite Ha, Hb. by rewrite <- !app_assoc.
    - exists (ladderIds (OrderBook.levels BUY bk) ++ a), b.
      rewrite Hthis, (Hother BUY) by done. rewrite Ha, Hb. by rewrite <- !app_assoc. }
  destruct Hshape as (u & v & Hu & Hv).
  assert (Hsubl : restingIds bk' `sublist_of` restingIds bk).
  { rewrite Hu, Hv. apply sublist_app; [done|]. apply sublist_app; [|done]. apply erase_sublist. }
  assert (Hnotin : id ∉ restingIds bk').
  { rewrite Hv. rewrite Hu in Hnd.
    apply NoDup_app in Hnd as (_ & Hdisj & Hnd).
    apply NoDup_app in Hnd as (Hx & Hdisj' & _).
    rewrite !elem_of_app. intros [H|[H|H]].
    - apply (Hdisj _ H). apply elem_of_app. by left.
    - by apply (erase_not_elem_of id _ Hx).
    - by apply (Hdisj' _ Hin). }
  split. { rewrite Hu, Hv, !length_app. rewrite <- (erase_length id _ Hin). lia. }
  split. { intros x Hx. by eapply elem_of_sublist. }
  split; [done|].
  split.
  { rewrite Hu, Hv. rewrite Hu in Hnd.
    apply NoDup_app in Hnd as (_ & Hdisj & _).
    rewrite erase_app_r.
    - by rewrite erase_app_l.
    - intros H. apply (Hdisj _ H). apply elem_of_app. by left. }
  assert (Hknown : ∀ x, x ∈ restingIds bk' -> x ∈ OrderBook.orderMap_ bk').
  { intros x Hx. unfold bk'. simpl.
    apply elem_of_difference. split.
    - pose proof (elem_of_sublist _ _ _ Hx Hsubl) as Hx'.
      unfold restingIds in Hx'. apply elem_of_app in Hx' as [H|H].
      + destruct (ladder_ok_node _ _ _ _ _ Hbid H) as (? & ? & ? & ? & ? & ? & _). done.
      + destruct (ladder_ok_node _ _ _ _ _ Hask H) as (? & ? & ? & ? & ? & ? & _). done.
    - intros ->%elem_of_singleton. done. }
  assert (Hnew : ladder_ok store bk' sd l').
  { eapply ladder_ok_sub; [exact Hl| |].
    - eapply sublist_NoDup; [apply Hl | apply without_keys].
    - intros q lq' x Hq Hx. split.
      + apply Hknown. apply restingIds_levels with sd. rewrite Hthis.
        apply elem_of_ladderIds. eauto.
      + destruct (without_levels p id lv lv' _ q lq' Hfind eq_refl Hq) as [H|[-> ->]].
        * eauto.
        * exists lv. split; [by apply find_Some_elem_of|].
          by apply erase_elem_of with id. }
  assert (Hkeep : ∀ sd', sd' ≠ sd ->
            ladder_ok store bk sd' (OrderBook.levels sd' bk) ->
            ladder_ok store bk' sd' (OrderBook.levels sd' bk')).
  { intros sd' Hne Hl'. rewrite (Hother _ Hne).
    eapply ladder_ok_sub; [exact Hl' | apply Hl' |].
    intros q lq x Hq Hx. split; [|eauto].
    apply Hknown. apply restingIds_levels with sd'. rewrite (Hother _ Hne).
    apply elem_of_ladderIds. eauto. }
  split.
  { split; [|split; [|split]].
    - destruct sd; [exact Hnew | by apply (Hkeep BUY)].
    - destruct sd; [by apply (Hkeep SELL) | exact Hnew].
    - by eapply sublist_NoDup.
    - apply Forall_forall. intros x Hx. apply elem_of_elements in Hx.
      unfold bk' in Hx. simpl in Hx. apply elem_of_difference in Hx as [Hx Hne].
      rewrite Forall_forall in Hidx. specialize (Hidx x).
      rewrite elem_of_elements in Hidx. specialize (Hidx Hx).
      rewrite Hu in Hidx. rewrite Hv. rewrite !elem_of_app in *.
      destruct Hidx as [?|[?|?]]; [by left | | by right; right].
      right; left. apply erase_elem_of_ne; [done|]. set_solver. }
  split; [by destruct sd|]. split; [by destruct sd|].
  split. { apply Hother. by destruct sd. }
  exists p, lv, lv'. by repeat split.
Qed.

End BookRemoval.

(** ** One fill *)

Lemma u64_add_sub a b : u64 (a + u64 (b - a)) = u64 b.
Proof.
  unfold u64. rewrite Z.add_mod_idemp_r by lia. f_equal. lia.
Qed.

Lemma wf_order st k o : wf st -> orders_ st !! k = Some o -> order_ok k o.
Proof. intros [H _] Hk. by apply (H k o). Qed.

Lemma wf_book st sym bk : wf st -> orderBooks_ st !! sym = Some bk -> book_ok (orders_ st) bk.
Proof. intros [_ H] Hk. by apply (H sym bk). Qed.

Lemma book_ok_new store sym : book_ok store (OrderBook.new sym).
Proof.
  unfold book_ok, restingIds. simpl. rewrite elements_empty.
  repeat split; constructor.
Qed.

Lemma book_ok_updateLastTrade store p q bk :
  book_ok store bk -> book_ok store (OrderBook.updateLastTrade p q bk).
Proof. intros (Hb & Ha & Hn & Hi). repeat split; try apply Hb; try apply Ha; done. Qed.

Lemma bestOrder_resting l cid : OrderBook.bestOrder l = Some cid -> cid ∈ ladderIds l.
Proof.
  destruct l as [|[p lv] l]; simpl; [done|].
  unfold PriceLevel.getFirstOrder. destruct (PriceLevel.orders_ lv) as [|x xs] eqn:E; [done|].
  simpl. intros [= ->]. rewrite ladderIds_cons, E. by left.
Qed.

Lemma update_order_lookup f id st o :
  orders_ st !! id = Some o -> orders_ (update_order f id st) !! id = Some (f o).
Proof. intros H. unfold update_order. simpl. by rewrite lookup_alter_eq, H. Qed.

Lemma update_order_lookup_ne f id k st :
  k ≠ id -> orders_ (update_order f id st) !! k = orders_ st !! k.
Proof. intros H. unfold update_order. simpl. by rewrite lookup_alter_ne. Qed.

Lemma update_order_static f id st :
  (∀ o, static (f o) = static o) ->
  static <$> orders_ (update_order f id st) = static <$> orders_ st.
Proof. intros H. unfold update_order. simpl. by apply fmap_static_alter. Qed.

Lemma order_ok_static k o o' :
  static o' = static o -> 0 <= filledQuantity o' <= quantity o ->
  order_ok k o -> order_ok k o'.
Proof.
  intros Hs Hf (Hid & Hq & _). apply static_fields in Hs.
  destruct Hs as (Hi & _ & _ & _ & _ & _ & _ & Hq').
  unfold order_ok. by rewrite Hi, Hq'.
Qed.

(** The invariant carries over to a store with the same static parts and
    books that are in order. *)
Lemma wf_intro st :
  (∀ k o, orders_ st !! k = Some o -> order_ok k o) ->
  (∀ s bk, orderBooks_ st !! s = Some bk -> book_ok (orders_ st) bk) ->
  wf st.
Proof. intros H1 H2. split; intros ???; eauto. Qed.

Lemma settleCounter_step sym cid st counter bk :
  wf st ->
  orders_ st !! cid = Some counter ->
  orderBooks_ st !! sym = Some bk ->
  cid ∈ ladderIds (OrderBook.levels (side counter) bk) ->
  ∃ st' bk',
    MatchingEngine.settleCounter sym cid st = Some st'
    ∧ wf st'
    ∧ static <$> orders_ st' = static <$> orders_ st
    ∧ (∀ k, k ≠ cid -> orders_ st' !! k = orders_ st !! k)
    ∧ orders_ st' !! cid
      = Some (set_status (if quantity counter <=? filledQuantity counter
                          then FILLED else PARTIALLY_FILLED) counter)
    ∧ balances_ st' = balances_ st
    ∧ emitted st' = emitted st
    ∧ nextOrderId_ st' = nextOrderId_ st
    ∧ nextTradeId_ st' = nextTradeId_ st
    ∧ userOrders_ st' = userOrders_ st
    ∧ orderBooks_ st' !! sym = Some bk'
    ∧ (∀ s, s ≠ sym -> orderBooks_ st' !! s = orderBooks_ st !! s)
    ∧ (∀ x, x ∈ restingIds bk' -> x ∈ restingIds bk)
    ∧ (∀ x, x ∈ restingIds bk -> x ≠ cid -> x ∈ restingIds bk')
    ∧ OrderBook.lastTradePrice_ bk' = OrderBook.lastTradePrice_ bk
    ∧ OrderBook.totalVolume_ bk' = OrderBook.totalVolume_ bk
    ∧ (quantity counter <= filledQuantity counter ->
       S (length (restingIds bk')) = length (restingIds bk))
    ∧ (filledQuantity counter < quantity counter -> bk' = bk)
    ∧ OrderBook.levels (opposite (side counter)) bk'
      = OrderBook.levels (opposite (side counter)) bk
    ∧ (quantity counter <= filledQuantity counter -> cid ∉ restingIds bk')
    ∧ (quantity counter <= filledQuantity counter ->
       ∃ p lv lv',
           OrderBook.find p (OrderBook.levels (side counter) bk) = Some lv
           ∧ cid ∈ PriceLevel.orders_ lv
           ∧ PriceLevel.orders_ lv' = PriceLevel.erase cid (PriceLevel.orders_ lv)
           ∧ OrderBook.levels (side counter) bk'
             = without p lv' (OrderBook.levels (side counter) bk)).
Proof.
  intros Hwf Hc Hbk Hin.
  pose proof (wf_order _ _ _ Hwf Hc) as (Hid & Hq & Hf).
  unfold MatchingEngine.settleCounter. rewrite Hc. simpl.
  destruct (Z.leb_spec (quantity counter) (filledQuantity counter)) as [Hfilled|Hopen].
  - (* filled: the order leaves the book *)
    simpl. rewrite Hbk. simpl.
    assert (Hst : static <$> orders_ (update_order (set_status FILLED) cid st)
                  = static <$> orders_ st) by by apply update_order_static.
    assert (Hok : book_ok (orders_ (update_order (set_status FILLED) cid st)) bk).
    { eapply book_ok_store; [exact Hst|]. by eapply wf_book. }
    rewrite Hid.
    destruct (removeOrder_resting _ _ _ _ Hok Hin)
      as (bk' & Hrm & Hlen & Hsub & Hnot & Herase & Hok' & Hltp & Hvol & Hopp & Hthis).
    change (alter (set_status FILLED) cid (orders_ st))
      with (orders_ (update_order (set_status FILLED) cid st)).
    rewrite Hrm. simpl.
    eexists _, bk'. split; [reflexivity|].
    split.
    { apply wf_intro; simpl.
      - intros k o Hk. destruct (decide (k = cid)) as [->|Hne].
        + rewrite lookup_alter_eq, Hc in Hk. simpl in Hk. injection Hk as <-. done.
        + rewrite lookup_alter_ne in Hk by done. by eapply wf_order.
      - intros s b Hs. destruct (decide (s = sym)) as [->|Hne].
        + rewrite lookup_insert_eq in Hs. by injection Hs as <-.
        + rewrite lookup_insert_ne in Hs by done.
          eapply book_ok_store; [exact Hst|]. by eapply wf_book. }
    split; [exact Hst|].
    split. { intros k Hk. simpl. by rewrite lookup_alter_ne. }
    split.
    { simpl. rewrite lookup_alter_eq, Hc. simpl.
      by destruct (Z.leb_spec (quantity counter) (filledQuantity counter)); [|lia]. }
    repeat (split; [done|]).
    split. { simpl. by rewrite lookup_insert_eq. }
    split. { intros s Hs. simpl. by rewrite lookup_insert_ne. }
    split; [done|].
    split. { intros x Hx Hne. rewrite Herase. by apply erase_elem_of_ne. }
    repeat (split; [done|]).
    split; [lia|]. split; [done|]. split; [done|]. done.
  - (* a rest is left: the order stays *)
    simpl. eexists _, bk. split; [reflexivity|].
    assert (Hst : static <$> orders_ (update_order (set_status PARTIALLY_FILLED) cid st)
                  = static <$> orders_ st) by by apply update_order_static.
    split.
    { apply wf_intro; simpl.
      - intros k o Hk. destruct (decide (k = cid)) as [->|Hne].
        + rewrite lookup_alter_eq, Hc in Hk. simpl in Hk. injection Hk as <-. done.
        + rewrite lookup_alter_ne in Hk by done. by eapply wf_order.
      - intros s b Hs. eapply book_ok_store; [exact Hst|]. by eapply wf_book. }
    split; [exact Hst|].
    split. { intros k Hk. simpl. by rewrite lookup_alter_ne. }
    split.
    { simpl. rewrite lookup_alter_eq, Hc. simpl.
      by destruct (Z.leb_spec (quantity counter) (filledQuantity counter)); [lia|]. }
    repeat (split; [done|]). split; [lia|]. split; [done|]. split; [done|].
    split; intros; lia.
Qed.

(** The books after [executeTrade] has recorded a trade in the book of
    [sym']: the ladders are those of before, the book of [sym'] exists. *)
Lemma books_after_trade st sym' p q s :
  alter (OrderBook.updateLastTrade p q) sym'
        (orderBooks_ (MatchingEngine.getOrderBook sym' st)) !! s
  = if decide (s = sym')
    then Some (OrderBook.updateLastTrade p q
                 (default (OrderBook.new sym') (orderBooks_ st !! sym')))
    else orderBooks_ st !! s.
Proof.
  destruct (decide (s = sym')) as [->|Hne].
  - rewrite lookup_alter_eq. unfold MatchingEngine.getOrderBook.
    destruct (orderBooks_ st !! sym') eqn:E; simpl.
    + by rewrite E.
    + by rewrite lookup_insert_eq.
  - rewrite lookup_alter_ne by done. by apply getOrderBook_other.
Qed.

Lemma book_ok_after_trade store st sym' p q s b :
  (∀ s b, orderBooks_ st !! s = Some b -> book_ok store b) ->
  alter (OrderBook.updateLastTrade p q) sym'
        (orderBooks_ (MatchingEngine.getOrderBook sym' st)) !! s = Some b ->
  book_ok store b.
Proof.
  intros Hall. rewrite books_after_trade.
  destruct (decide (s = sym')) as [->|Hne]; [|by apply Hall].
  intros [= <-]. apply book_ok_updateLastTrade.
  destruct (orderBooks_ st !! sym') eqn:E; simpl; [by eapply Hall | apply book_ok_new].
Qed.

Lemma fill_step sym oid cid st order bk :
  wf st ->
  orders_ st !! oid = Some order ->
  filledQuantity order < quantity order ->
  orderBooks_ st !! sym = Some bk ->
  OrderBook.bestOrder (OrderBook.levels (opposite (side order)) bk) = Some cid ->
  oid ∉ restingIds bk ->
  ∃ counter t st',
    orders_ st !! cid = Some counter
    ∧ cid ≠ oid
    ∧ cid ∈ ladderIds (OrderBook.levels (opposite (side order)) bk)
    ∧ side counter = opposite (side order)
    ∧ wf st'
    ∧ fill_post sym oid cid order counter bk st t st'.
Proof.
  intros Hwf Ho Hopen Hbk Hbest Hout.
  pose proof (bestOrder_resting _ _ Hbest) as Hin.
  pose proof (wf_book _ _ _ Hwf Hbk) as Hok.
  assert (Hl : ladder_ok (orders_ st) bk (opposite (side order))
                 (OrderBook.levels (opposite (side order)) bk)).
  { destruct Hok as (? & ? & _). by destruct (side order). }
  destruct (ladder_ok_node _ _ _ _ _ Hl Hin) as (p & lv & counter & _ & _ & _ & Hc & _ & Hside).
  assert (Hne : cid ≠ oid).
  { intros ->. apply Hout. by eapply restingIds_levels. }
  pose proof (wf_order _ _ _ Hwf Ho) as (Hoid & Hoq & Hof).
  pose proof (wf_order _ _ _ Hwf Hc) as (Hcid & Hcq & Hcf).
  set (q := MatchingEngine.tradeQtyOf order counter).
  assert (Hq : 0 <= q <= quantity order - filledQuantity order).
  { unfold q, MatchingEngine.tradeQtyOf.
    rewrite (u64_id (quantity order - filledQuantity order)).
    - pose proof (u64_range (quantity counter - filledQuantity counter)) as Hr.
      unfold in_u64 in *. lia.
    - unfold in_u64 in *. lia. }
  assert (Hqc : q <= quantity counter - filledQuantity counter).
  { unfold q, MatchingEngine.tradeQtyOf.
    rewrite (u64_id (quantity counter - filledQuantity counter)); [lia|].
    unfold in_u64 in *. lia. }
  assert (Hfo : filledQuantity (MatchingEngine.add_filled q order) = filledQuantity order + q).
  { simpl. apply u64_id. unfold in_u64 in *. lia. }
  assert (Hfc : filledQuantity (MatchingEngine.add_filled q counter)
                = filledQuantity counter + q).
  { simpl. apply u64_id. unfold in_u64 in *. lia. }
  set (t := mkTrade (nextTradeId_ st)
              (orderId (buyOf order counter)) (orderId (sellOf order counter))
              (userId (buyOf order counter)) (userId (sellOf order counter))
              (symbol (buyOf order counter)) (price counter) q).
  assert (Hex : ∃ st1,
            MatchingEngine.executeTrade
              (match side order with BUY => oid | SELL => cid end)
              (match side order with SELL => oid | BUY => cid end)
              (price counter) q st
            = Some (t, st1)
            ∧ orders_ st1 = orders_ st
            ∧ emitted st1 = emitted st
            ∧ nextOrderId_ st1 = nextOrderId_ st
            ∧ userOrders_ st1 = userOrders_ st
            ∧ nextTradeId_ st1 = u64 (nextTradeId_ st + 1)
            ∧ balances_ st1
              = fundsAfter (buyOf order counter) (sellOf order counter) (price counter) q
                  (balances_ st)
            ∧ orderBooks_ st1
              = alter (OrderBook.updateLastTrade (price counter) q)
                  (symbol (buyOf order counter))
                  (orderBooks_ (MatchingEngine.getOrderBook (symbol (buyOf order counter)) st))).
  { unfold t, buyOf, sellOf. destruct (side order).
    - apply (executeTrade_spec oid cid _ _ _ _ _ Ho Hc).
    - apply (executeTrade_spec cid oid _ _ _ _ _ Hc Ho). }
  destruct Hex as (st1 & Hrun & Ho1 & He1 & Hn1 & Hu1 & Ht1 & Hb1 & Hk1).
  set (st2 := update_order (MatchingEngine.add_filled q) cid
                (update_order (MatchingEngine.add_filled q) oid st1)).
  assert (Ho2 : orders_ st2 !! oid = Some (MatchingEngine.add_filled q order)).
  { unfold st2. rewrite update_order_lookup_ne by done.
    apply update_order_lookup. by rewrite Ho1. }
  assert (Hc2 : orders_ st2 !! cid = Some (MatchingEngine.add_filled q counter)).
  { unfold st2. apply update_order_lookup.
    rewrite update_order_lookup_ne by done. by rewrite Ho1. }
  assert (Hs2 : static <$> orders_ st2 = static <$> orders_ st).
  { unfold st2. rewrite !update_order_static by done. by rewrite Ho1. }
  assert (Hf2 : ∀ k, k ≠ oid -> k ≠ cid -> orders_ st2 !! k = orders_ st !! k).
  { intros k H1 H2. unfold st2. rewrite !update_order_lookup_ne by done. by rewrite Ho1. }
  assert (Hk2 : orderBooks_ st2 = orderBooks_ st1) by done.
  set (bk1 := if decide (sym = symbol (buyOf order counter))
              then OrderBook.updateLastTrade (price counter) q bk else bk).
  assert (Hbk1 : orderBooks_ st2 !! sym = Some bk1).
  { rewrite Hk2, Hk1, books_after_trade. unfold bk1.
    destruct (decide (sym = symbol (buyOf order counter))) as [<-|]; [|done].
    by rewrite Hbk. }
  assert (Hlev : ∀ sd, OrderBook.levels sd bk1 = OrderBook.levels sd bk).
  { intros sd. unfold bk1. destruct (decide _); [|done]. by destruct sd. }
  assert (Hids : restingIds bk1 = restingIds bk).
  { unfold bk1. by destruct (decide _). }
  assert (Hwf2 : wf st2).
  { apply wf_intro.
    - intros k o Hk. destruct (decide (k = oid)) as [->|Hko].
      + rewrite Ho2 in Hk. injection Hk as <-.
        eapply order_ok_static; [apply static_add_filled | rewrite Hfo; lia | done].
      + destruct (decide (k = cid)) as [->|Hkc].
        * rewrite Hc2 in Hk. injection Hk as <-.
          eapply order_ok_static; [apply static_add_filled | rewrite Hfc; lia | done].
        * rewrite Hf2 in Hk by done. by eapply wf_order.
    - intros s b Hs. rewrite Hk2, Hk1 in Hs.
      eapply book_ok_after_trade; [|exact Hs].
      intros s0 b0 Hs0. eapply book_ok_store; [exact Hs2|]. by eapply wf_book. }
  assert (Hin2 : cid ∈ ladderIds (OrderBook.levels (side (MatchingEngine.add_filled q counter)) bk1)).
  { rewrite Hlev. simpl. by rewrite Hside. }
  destruct (settleCounter_step sym cid st2 _ bk1 Hwf2 Hc2 Hbk1 Hin2)
    as (st3 & bk' & Hset & Hwf3 & Hs3 & Hf3 & Hc3 & Hb3 & He3 & Hn3 & Ht3 & Hu3
        & Hbk3 & Hoth3 & Hsub3 & Hkept3 & Hltp & Hvol & Hdone & Hkeep & Hopp & Hgone & Hthis).
  change (set_status _ (MatchingEngine.add_filled q counter))
    with (counterAfter order counter) in Hc3.
  exists counter, t,
    (MatchingEngine.notifyTrade t
       (MatchingEngine.notifyOrderUpdate (counterAfter order counter) st3)).
  split; [done|]. split; [done|]. split; [done|]. split; [done|].
  split. { destruct Hwf3 as [H1 H2]. split; exact H1 || exact H2. }
  simpl in Hopp, Hthis. rewrite Hside in Hopp, Hthis.
  assert (Hoo : opposite (opposite (side order)) = side order) by by destruct (side order).
  rewrite Hoo in Hopp. rewrite !Hlev in Hopp, Hthis.
  constructor.
  - unfold MatchingEngine.fill. rewrite Ho, Hc. simpl. fold q. rewrite Hrun. simpl.
    fold st2. rewrite Hset. simpl. rewrite Hc3. done.
  - done.
  - done.
  - simpl. rewrite Hf3 by done. rewrite Ho2. f_equal.
    unfold MatchingEngine.add_filled. f_equal. apply u64_id. unfold in_u64 in *. lia.
  - done.
  - simpl. by rewrite Hs3.
  - intros k H1 H2. simpl. rewrite Hf3 by done. by apply Hf2.
  - simpl. by rewrite Hb3.
  - simpl. rewrite He3. unfold st2. simpl. rewrite He1. by rewrite <- app_assoc.
  - simpl. by rewrite Hn3.
  - simpl. by rewrite Ht3.
  - simpl. by rewrite Hu3.
  - exists bk'. split; [done|].
    split. { intros x Hx. rewrite <- Hids. by apply Hsub3. }
    split; [|split; [exact Hopp|split; [|split]]].
    4: { intros Hgo. apply Hthis. exact Hgo. }
    3: { intros Hgo. apply Hgone. exact Hgo. }
    2: { intros Hstay. specialize (Hkeep Hstay).
         rewrite <- (Hlev (opposite (side order))). by rewrite Hkeep. }
    (* progress: the incoming order is complete, or the counter order has left *)
    destruct (Z.le_gt_cases (u64 (quantity counter - filledQuantity counter))
                (u64 (quantity order - filledQuantity order))) as [Hle|Hgt].
    + right. rewrite <- Hids. apply Hdone. simpl.
      unfold q, MatchingEngine.tradeQtyOf. rewrite Z.min_r by done.
      rewrite u64_add_sub, u64_id by done. lia.
    + left. unfold q, MatchingEngine.tradeQtyOf. rewrite Z.min_l by lia.
      rewrite u64_id; [lia|]. unfold in_u64 in *. lia.
  - intros s b' Hs Hb' sd. simpl in Hb'. rewrite Hoth3 in Hb' by done.
    rewrite Hk2, Hk1, books_after_trade in Hb'.
    destruct (decide (s = symbol (buyOf order counter))) as [->|Hne'].
    + injection Hb' as <-.
      destruct (orderBooks_ st !! symbol (buyOf order counter)); by destruct sd.
    + by rewrite Hb'.
  - intros b2 x Hb2 Hx Hxc. simpl in Hb2. rewrite Hbk3 in Hb2. injection Hb2 as <-.
    apply Hkept3; [by rewrite Hids | done].
  - intros s [b Hb]. simpl.
    destruct (decide (s = sym)) as [->|Hs]; [by rewrite Hbk3|].
    rewrite Hoth3 by done. rewrite Hk2, Hk1, books_after_trade.
    destruct (decide (s = symbol (buyOf order counter))); [done|]. by rewrite Hb.
  - (* the trade is recorded in the book of its symbol *)
    simpl. destruct (decide (symbol (buyOf order counter) = sym)) as [Hsym|Hsym].
    + exists bk'. rewrite Hsym. split; [done|]. rewrite Hltp, Hvol. unfold bk1.
      destruct (decide (sym = symbol (buyOf order counter))); [|done].
      simpl. by rewrite Hbk.
    + rewrite Hoth3 by done. rewrite Hk2, Hk1, books_after_trade.
      destruct (decide (symbol (buyOf order counter) = symbol (buyOf order counter))); [|done].
      eexists. split; [done|]. simpl.
      by destruct (orderBooks_ st !! symbol (buyOf order counter)).
Qed.

(** ** The match loop *)

Section Loop.
Variables (limited : bool) (sym : string) (oid : Z).

(** An invariant of the loop: it holds of the state and of the trades
    collected so far, and every fill the loop can make carries it over. *)
Variable I : Engine -> list Trade -> Prop.

Hypothesis I_fill :
  ∀ st trades order counter bk cid t st',
    I st trades ->
    wf st ->
    orders_ st !! oid = Some order ->
    filledQuantity order < quantity order ->
    orderBooks_ st !! sym = Some bk ->
    oid ∉ restingIds bk ->
    cid ∈ ladderIds (OrderBook.levels (opposite (side order)) bk) ->
    orders_ st !! cid = Some counter ->
    side counter = opposite (side order) ->
    (limited = true -> beyond order counter = false) ->
    fill_post sym oid cid order counter bk st t st' ->
    I st' (trades ++ [t]).

(** The loop ends within its fuel, in a state that satisfies the invariant. *)
Lemma matchLoop_rule fuel st trades order bk :
  wf st ->
  orders_ st !! oid = Some order ->
  orderBooks_ st !! sym = Some bk ->
  oid ∉ restingIds bk ->
  I st trades ->
  (length (restingIds bk) < fuel)%nat
  ∨ (quantity order <= filledQuantity order ∧ (0 < fuel)%nat) ->
  ∃ trades' st' order' bk',
    MatchingEngine.matchLoop limited fuel sym oid trades st = Some (trades', st')
    ∧ I st' trades'
    ∧ wf st'
    ∧ orders_ st' !! oid = Some order'
    ∧ static order' = static order
    ∧ status order' = status order
    ∧ orderBooks_ st' !! sym = Some bk'
    ∧ (oid ∉ restingIds bk')
    ∧ filledQuantity order <= filledQuantity order'
    ∧ (quantity order' <= filledQuantity order'
       ∨ OrderBook.bestOrder (OrderBook.levels (opposite (side order)) bk') = None
       ∨ (limited = true
          ∧ ∃ cid c, OrderBook.bestOrder (OrderBook.levels (opposite (side order)) bk')
                     = Some cid
                     ∧ orders_ st' !! cid = Some c
                     ∧ beyond order' c = true)).
Proof.
  revert st trades order bk.
  induction fuel as [|fuel IH]; intros st trades order bk Hwf Ho Hbk Hout HI Hfuel.
  { exfalso. destruct Hfuel as [H|[_ H]]; lia. }
  simpl. rewrite Ho. simpl.
  destruct (Z.ltb_spec (filledQuantity order) (quantity order)) as [Hopen|Hdone].
  2: { exists trades, st, order, bk. repeat (split; [done|]). left. lia. }
  rewrite Hbk. simpl.
  assert (Hbest : match side order with
                  | BUY => OrderBook.getBestAskOrder bk
                  | SELL => OrderBook.getBestBidOrder bk
                  end = OrderBook.bestOrder (OrderBook.levels (opposite (side order)) bk)).
  { by destruct (side order). }
  rewrite Hbest.
  destruct (OrderBook.bestOrder _) as [cid|] eqn:Hcid.
  2: { exists trades, st, order, bk. repeat (split; [done|]). right. by left. }
  destruct (fill_step sym oid cid st order bk Hwf Ho Hopen Hbk Hcid Hout)
    as (counter & t & st' & Hc & Hne & Hin & Hside & Hwf' & Hpost).
  pose proof (fp_fill _ _ _ _ _ _ _ _ _ Hpost) as Hfill.
  rewrite Hc. simpl.
  change (match side order with
          | BUY => price order <? price counter
          | SELL => price counter <? price order
          end) with (beyond order counter).
  destruct (limited && beyond order counter) eqn:Hstop.
  { exists trades, st, order, bk. repeat (split; [done|]). right. right.
    apply andb_true_iff in Hstop as [-> Hb]. split; [done|]. by exists cid, counter. }
  rewrite Hfill. simpl.
  destruct (fp_book _ _ _ _ _ _ _ _ _ Hpost) as (bk' & Hbk' & Hsub & Hprog & _).
  pose proof (fp_order _ _ _ _ _ _ _ _ _ Hpost) as Ho'.
  pose proof (fp_qty _ _ _ _ _ _ _ _ _ Hpost) as Hq.
  destruct (IH st' (trades ++ [t]) _ bk' Hwf' Ho' Hbk') as (tr & st'' & o'' & bk'' & H).
  - intros Hx. apply Hout. by apply Hsub.
  - eapply I_fill; eauto.
    intros ->. by destruct (beyond order counter).
  - assert (Hpos : (0 < length (restingIds bk))%nat).
    { pose proof (restingIds_levels _ _ _ Hin) as Hr.
      destruct (restingIds bk); [by apply elem_of_nil in Hr | simpl; lia]. }
    destruct Hprog as [Hcomplete|Hless].
    + right. simpl. split; [lia|]. destruct Hfuel as [?|[? _]]; lia.
    + left. destruct Hfuel as [?|[? _]]; lia.
  - destruct H as (Hrun & HI' & Hwf'' & Ho'' & Hst & Hstatus & Hbk'' & Hout'' & Hmono & Hexit).
    exists tr, st'', o'', bk''. repeat (split; [done|]).
    split; [|exact Hexit]. simpl in Hmono. lia.
Qed.

End Loop.

(** ** What reaches the callbacks *)

Lemma tradesOf_app st es :
  omap (λ e, match e with TradeEvent t => Some t | OrderUpdate _ => None end)
       (emitted st ++ es)
  = tradesOf st
    ++ omap (λ e, match e with TradeEvent t => Some t | OrderUpdate _ => None end) es.
Proof. unfold tradesOf. by rewrite omap_app. Qed.

Lemma tradesOf_emitted st st' : emitted st' = emitted st -> tradesOf st' = tradesOf st.
Proof. unfold tradesOf. by intros ->. Qed.

Lemma tradesOf_notifyOrderUpdate o st :
  tradesOf (MatchingEngine.notifyOrderUpdate o st) = tradesOf st.
Proof.
  unfold MatchingEngine.notifyOrderUpdate, emit, tradesOf. simpl.
  rewrite omap_app. simpl. by rewrite app_nil_r.
Qed.

Lemma fill_post_tradesOf sym oid cid order counter bk st t st' :
  fill_post sym oid cid order counter bk st t st' -> tradesOf st' = tradesOf st ++ [t].
Proof.
  intros H. pose proof (fp_emitted _ _ _ _ _ _ _ _ _ H) as He.
  unfold tradesOf at 1. rewrite He. by rewrite tradesOf_app.
Qed.

(** ** Fills are made at the price of the resting order *)

Section MakerPrice.
Variables (limited : bool) (sym : string) (oid : Z).
Variables (st0 : Engine) (order0 : Order) (bk0 : OrderBook.t).
Hypothesis wf0 : wf st0.
Hypothesis order0_at : orders_ st0 !! oid = Some order0.
Hypothesis bk0_at : orderBooks_ st0 !! sym = Some bk0.
Hypothesis market_unlimited : limited = false -> type order0 = MARKET.

Lemma priced_inv_init : priced_inv sym st0 order0 bk0 st0 [].
Proof.
  split; [done|]. split; [by exists bk0|]. split; [by rewrite app_nil_r | constructor].
Qed.

Lemma priced_inv_fill st trades order counter bk cid t st' :
  priced_inv sym st0 order0 bk0 st trades ->
  wf st ->
  orders_ st !! oid = Some order ->
  filledQuantity order < quantity order ->
  orderBooks_ st !! sym = Some bk ->
  oid ∉ restingIds bk ->
  cid ∈ ladderIds (OrderBook.levels (opposite (side order)) bk) ->
  orders_ st !! cid = Some counter ->
  side counter = opposite (side order) ->
  (limited = true -> beyond order counter = false) ->
  fill_post sym oid cid order counter bk st t st' ->
  priced_inv sym st0 order0 bk0 st' (trades ++ [t]).
Proof.
  intros (Hst & (bk1 & Hbk1 & Hsub) & Htr & Hall) Hwf Ho Hopen Hbk Hout Hin Hc Hside Hlim Hpost.
  rewrite Hbk in Hbk1. injection Hbk1 as <-.
  destruct (fp_book _ _ _ _ _ _ _ _ _ Hpost) as (bk' & Hbk' & Hsub' & _).
  split. { by rewrite (fp_static _ _ _ _ _ _ _ _ _ Hpost). }
  split. { exists bk'. split; [done|]. intros x Hx. by apply Hsub, Hsub'. }
  split. { rewrite (fill_post_tradesOf _ _ _ _ _ _ _ _ _ Hpost), Htr. by rewrite app_assoc. }
  apply Forall_app. split; [done|]. apply Forall_singleton.
  (* the two orders as the registry had them at the start *)
  assert (Hst' : static <$> orders_ st0 = static <$> orders_ st) by done.
  destruct (lookup_static _ _ _ _ Hst' Ho) as (o0 & Ho0 & Hso).
  rewrite order0_at in Ho0. injection Ho0 as <-.
  destruct (lookup_static _ _ _ _ Hst' Hc) as (c0 & Hc0 & Hsc).
  apply static_fields in Hso. destruct Hso as (Hoi & _ & _ & Hos & Hot & _ & Hop & _).
  apply static_fields in Hsc. destruct Hsc as (Hci & _ & _ & Hcs & Hct & _ & Hcp & _).
  pose proof (wf_order _ _ _ Hwf Ho) as (Hoid & _).
  pose proof (wf_order _ _ _ Hwf Hc) as (Hcid & _).
  pose proof (fp_trade _ _ _ _ _ _ _ _ _ Hpost) as Ht.
  assert (Hprice : limited = true -> beyond order counter = false) by done.
  assert (Hresting : cid ∈ restingIds bk0).
  { apply Hsub. by eapply restingIds_levels. }
  assert (Hmarket : limited = false -> type order0 = LIMIT -> False).
  { intros Hl Hty. rewrite (market_unlimited Hl) in Hty. done. }
  clear Hpost. subst t.
  unfold maker_priced, within_limits, beyond, buyOf, sellOf in *.
  rewrite Hos. destruct (side order) eqn:Es; simpl in *.
  - split.
    + split; [congruence|]. rewrite Hcid. split; [done|].
      exists c0. by rewrite Hcs, Hside, Hcp.
    + rewrite Hoid, Hcid. exists order0, c0.
      rewrite Hcs, Hside, Hop, Hcp, Hos.
      split; [done|]. split; [done|]. split; [done|]. split; [done|].
      split; [|intros _; lia].
      intros Hty. destruct limited; [|by exfalso; apply Hmarket].
      specialize (Hprice eq_refl). lia.
  - split.
    + split; [congruence|]. rewrite Hcid. split; [done|].
      exists c0. by rewrite Hcs, Hside, Hcp.
    + rewrite Hoid, Hcid. exists c0, order0.
      rewrite Hcs, Hside, Hop, Hcp, Hos.
      split; [done|]. split; [done|]. split; [done|]. split; [done|].
      split; [intros _; lia|].
      intros Hty. destruct limited; [|by exfalso; apply Hmarket].
      specialize (Hprice eq_refl). lia.
Qed.

End MakerPrice.

(** ** An order comes to rest *)

Section BookAddition.
Implicit Types (l : list (Z * PriceLevel.t)) (lv : PriceLevel.t) (ids : list Z)
  (store : gmap Z Order) (bk : OrderBook.t).

Lemma opposite_involutive sd : opposite (opposite sd) = sd.
Proof. by destruct sd. Qed.

Lemma opposite_ne sd : opposite sd ≠ sd.
Proof. by destruct sd. Qed.

(** The ladder of the order's side after [addOrder]: the level at the price
    of the order, new or found, has the order at its back. *)
Lemma addOrder_shape o bk :
  ∃ l1 l2 mid lvOld,
    OrderBook.levels (side o) bk = l1 ++ mid ++ l2
    ∧ (mid = [] ∧ lvOld = PriceLevel.new (price o)
         ∧ OrderBook.find (price o) (OrderBook.levels (side o) bk) = None
         ∧ l1 ++ (price o, PriceLevel.addOrder o lvOld) :: l2
           = OrderBook.put (OrderBook.before (side o)) (price o)
               (PriceLevel.addOrder o lvOld) (OrderBook.levels (side o) bk)
       ∨ mid = [(price o, lvOld)]
         ∧ OrderBook.find (price o) (OrderBook.levels (side o) bk) = Some lvOld)
    ∧ OrderBook.levels (side o) (OrderBook.addOrder o bk)
      = l1 ++ (price o, PriceLevel.addOrder o lvOld) :: l2
    ∧ OrderBook.levels (opposite (side o)) (OrderBook.addOrder o bk)
      = OrderBook.levels (opposite (side o)) bk
    ∧ OrderBook.orderMap_ (OrderBook.addOrder o bk) = {[orderId o]} ∪ OrderBook.orderMap_ bk
    ∧ OrderBook.lastTradePrice_ (OrderBook.addOrder o bk) = OrderBook.lastTradePrice_ bk
    ∧ OrderBook.totalVolume_ (OrderBook.addOrder o bk) = OrderBook.totalVolume_ bk
    ∧ OrderBook.symbol_ (OrderBook.addOrder o bk) = OrderBook.symbol_ bk.
Proof.
  unfold OrderBook.addOrder.
  assert (Hl : OrderBook.levels (side o)
                 (OrderBook.set_orderMap ({[orderId o]} ∪ OrderBook.orderMap_ bk) bk)
               = OrderBook.levels (side o) bk) by by destruct (side o).
  rewrite Hl.
  destruct (OrderBook.find (price o) (OrderBook.levels (side o) bk)) as [lv|] eqn:Hfind.
  - destruct (find_split _ _ _ Hfind) as (l1 & l2 & Heq & Hup & _).
    exists l1, l2, [(price o, lv)], lv. rewrite Hup.
    split; [done|]. split; [by right|].
    repeat split; by destruct (side o).
  - destruct (find_None_put (OrderBook.before (side o)) (price o)
                (PriceLevel.addOrder o (PriceLevel.new (price o))) _ Hfind)
      as (l1 & l2 & Heq & Hput).
    exists l1, l2, [], (PriceLevel.new (price o)). rewrite Hput.
    split; [done|]. split; [by left|].
    repeat split; by destruct (side o).
Qed.

Lemma restingIds_sides sd bk :
  restingIds bk ≡ₚ ladderIds (OrderBook.levels sd bk)
                   ++ ladderIds (OrderBook.levels (opposite sd) bk).
Proof. unfold restingIds. destruct sd; simpl; [done | apply Permutation_app_comm]. Qed.

(** The orders of the book after [addOrder] are those of before and the new
    one. *)
Lemma addOrder_restingIds o bk :
  restingIds (OrderBook.addOrder o bk) ≡ₚ orderId o :: restingIds bk.
Proof.
  destruct (addOrder_shape o bk)
    as (l1 & l2 & mid & lvOld & Hl & Hmid & Hl' & Hopp & _).
  rewrite (restingIds_sides (side o) (OrderBook.addOrder o bk)).
  rewrite (restingIds_sides (side o) bk).
  rewrite Hl', Hopp, Hl. rewrite !ladderIds_app, ladderIds_cons. simpl.
  assert (Hm : ladderIds mid = PriceLevel.orders_ lvOld).
  { destruct Hmid as [(-> & -> & _)|(-> & _)]; [done|].
    unfold ladderIds. simpl. by rewrite app_nil_r. }
  rewrite Hm. rewrite <- !app_assoc. simpl.
  rewrite !(app_assoc (ladderIds l1) (PriceLevel.orders_ lvOld)).
  symmetry. apply Permutation_middle.
Qed.

Lemma node_ok_mono store bk bk' sd p id :
  OrderBook.orderMap_ bk ⊆ OrderBook.orderMap_ bk' ->
  node_ok store bk sd p id -> node_ok store bk' sd p id.
Proof. intros Hsub [Hin Ho]. split; [by apply Hsub | done]. Qed.

Lemma ladder_ok_mono store bk bk' sd l :
  OrderBook.orderMap_ bk ⊆ OrderBook.orderMap_ bk' ->
  ladder_ok store bk sd l -> ladder_ok store bk' sd l.
Proof.
  intros Hsub [Hk Hn]. split; [done|].
  eapply Forall_impl; [exact Hn|]. intros pl Hpl.
  eapply Forall_impl; [exact Hpl|]. intros id. by apply node_ok_mono.
Qed.

(** A registered order that rests nowhere in the book can be added to it. *)
Lemma addOrder_book_ok store o bk :
  book_ok store bk ->
  store !! orderId o = Some o ->
  orderId o ∉ restingIds bk ->
  book_ok store (OrderBook.addOrder o bk).
Proof.
  intros (Hbid & Hask & Hnd & Hidx) Ho Hout.
  destruct (addOrder_shape o bk)
    as (l1 & l2 & mid & lvOld & Hl & Hmid & Hl' & Hopp & Hmap & _).
  assert (Hsub : OrderBook.orderMap_ bk ⊆ OrderBook.orderMap_ (OrderBook.addOrder o bk)).
  { rewrite Hmap. intros x Hx. apply elem_of_union. by right. }
  assert (Hthis : ladder_ok store bk (side o) (OrderBook.levels (side o) bk)).
  { by destruct (side o). }
  assert (Hthat : ladder_ok store bk (opposite (side o))
                    (OrderBook.levels (opposite (side o)) bk)).
  { by destruct (side o). }
  assert (Hnew : ladder_ok store (OrderBook.addOrder o bk) (side o)
                   (OrderBook.levels (side o) (OrderBook.addOrder o bk))).
  { rewrite Hl'. apply (ladder_ok_mono _ _ (OrderBook.addOrder o bk)) in Hthis; [|done].
    destruct Hthis as [Hk Hn]. rewrite Hl in Hk, Hn. split.
    - rewrite fmap_app, fmap_cons. simpl.
      rewrite !fmap_app in Hk.
      destruct Hmid as [(-> & -> & Hnone & _)|(-> & _)]; [|done].
      simpl in Hk. apply find_None_key in Hnone. rewrite Hl in Hnone. simpl in Hnone.
      rewrite fmap_app in Hnone.
      rewrite <- Permutation_middle. by apply NoDup_cons.
    - rewrite !Forall_app in Hn. destruct Hn as (H1 & Hm & H2).
      rewrite Forall_app, Forall_cons. split; [done|]. split; [|done].
      simpl. rewrite Forall_app. split.
      + destruct Hmid as [(-> & -> & _)|(-> & _)]; [by constructor|].
        by apply Forall_cons in Hm as [Hm _].
      + apply Forall_singleton. split.
        * rewrite Hmap. apply elem_of_union. left. by apply elem_of_singleton.
        * by rewrite Ho. }
  assert (Hold : ladder_ok store (OrderBook.addOrder o bk) (opposite (side o))
                   (OrderBook.levels (opposite (side o)) (OrderBook.addOrder o bk))).
  { rewrite Hopp. by apply (ladder_ok_mono _ bk). }
  split; [|split; [|split]].
  - destruct (side o); [exact Hnew | exact Hold].
  - destruct (side o); [exact Hold | exact Hnew].
  - rewrite addOrder_restingIds. by apply NoDup_cons.
  - apply Forall_forall. intros x Hx. apply elem_of_elements in Hx.
    rewrite addOrder_restingIds. rewrite Hmap in Hx.
    apply elem_of_union in Hx as [->%elem_of_singleton|Hx]; [by left|].
    right. rewrite Forall_forall in Hidx. apply Hidx. by apply elem_of_elements.
Qed.

End BookAddition.

(** ** Ladders in price order *)

Section Tidy.
Implicit Types (l : list (Z * PriceLevel.t)) (lv : PriceLevel.t) (ids : list Z)
  (store : gmap Z Order) (bk : OrderBook.t).

Lemma before_trans sd p q r :
  OrderBook.before sd p q = true -> OrderBook.before sd q r = true ->
  OrderBook.before sd p r = true.
Proof.
  destruct sd; unfold OrderBook.before, OrderBook.greater, OrderBook.less;
    rewrite !Z.ltb_lt; lia.
Qed.

Lemma before_total sd p q :
  p ≠ q -> OrderBook.before sd p q = false -> OrderBook.before sd q p = true.
Proof.
  destruct sd; unfold OrderBook.before, OrderBook.greater, OrderBook.less;
    rewrite Z.ltb_lt, Z.ltb_ge; lia.
Qed.

Lemma before_lt sd p q :
  OrderBook.before sd p q = true <-> match sd with BUY => q < p | SELL => p < q end.
Proof.
  destruct sd; unfold OrderBook.before, OrderBook.greater, OrderBook.less;
    by rewrite Z.ltb_lt.
Qed.

Lemma StronglySorted_sublist {A} (R : relation A) (k l : list A) :
  k `sublist_of` l -> StronglySorted R l -> StronglySorted R k.
Proof.
  induction 1 as [|x k l Hs IH|x k l Hs IH]; [done| |].
  - rewrite !StronglySorted_cons. intros [Hx Hl]. split; [|by apply IH].
    rewrite Forall_forall in *. intros y Hy. apply Hx. by eapply elem_of_sublist.
  - rewrite StronglySorted_cons. intros [_ Hl]. by apply IH.
Qed.

Lemma StronglySorted_weaken {A} (R R' : relation A) (l : list A) :
  (∀ x y, R x y -> R' x y) -> StronglySorted R l -> StronglySorted R' l.
Proof.
  intros HR. induction 1 as [|x l Hl IH Hx]; constructor; [done|].
  eapply Forall_impl; [exact Hx|]. intros y. apply HR.
Qed.

(** The first key of a sub-ladder of a sorted ladder is the first key of the
    ladder or comes after it. *)
Lemma sorted_head_sublist sd (k l : list Z) p h :
  StronglySorted (λ p q, OrderBook.before sd p q = true) l ->
  k `sublist_of` l ->
  head k = Some p -> head l = Some h ->
  p = h ∨ OrderBook.before sd h p = true.
Proof.
  intros Hs Hsub Hk Hl.
  destruct k as [|p' k]; [done|]. injection Hk as ->.
  destruct l as [|h' l]; [done|]. injection Hl as ->.
  assert (Hin : p ∈ h :: l). { eapply elem_of_sublist; [|exact Hsub]. by left. }
  apply elem_of_cons in Hin as [->|Hin]; [by left|]. right.
  apply StronglySorted_cons in Hs as [Hh _]. rewrite Forall_forall in Hh. by apply Hh.
Qed.

Lemma put_keys sd p lv l :
  OrderBook.find p l = None ->
  StronglySorted (λ p q, OrderBook.before sd p q = true) (l.*1) ->
  StronglySorted (λ p q, OrderBook.before sd p q = true)
    ((OrderBook.put (OrderBook.before sd) p lv l).*1)
  ∧ (head ((OrderBook.put (OrderBook.before sd) p lv l).*1) = Some p
     ∨ head ((OrderBook.put (OrderBook.before sd) p lv l).*1) = head (l.*1)
       ∧ l ≠ []).
Proof.
  induction l as [|[q lq] l IH]; simpl.
  - intros _ _. split; [|by left]. repeat constructor.
  - destruct (decide (q = p)) as [->|Hne]; [done|]. intros Hfind Hs.
    apply StronglySorted_cons in Hs as [Hq Hs].
    destruct (OrderBook.before sd p q) eqn:Hb; simpl.
    + split; [|by left]. apply StronglySorted_cons. split.
      * apply Forall_cons. split; [done|].
        eapply Forall_impl; [exact Hq|]. intros x Hx. simpl in Hx. by eapply before_trans.
      * by apply StronglySorted_cons.
    + destruct (IH Hfind Hs) as [IH1 _]. split; [|by right].
      apply StronglySorted_cons. split; [|done].
      apply Forall_forall. intros x Hx.
      destruct (find_None_put (OrderBook.before sd) p lv l Hfind) as (l1 & l2 & -> & Hput).
      rewrite Hput in Hx. rewrite fmap_app, fmap_cons in Hx. simpl in Hx.
      rewrite Forall_forall in Hq. rewrite fmap_app in Hq.
      apply elem_of_app in Hx as [Hx|[->|Hx]%elem_of_cons].
      * apply Hq. apply elem_of_app. by left.
      * apply before_total; [done|]. exact Hb.
      * apply Hq. apply elem_of_app. by right.
Qed.

Lemma without_tidy sd p id lv lv' l :
  OrderBook.find p l = Some lv ->
  PriceLevel.orders_ lv' = PriceLevel.erase id (PriceLevel.orders_ lv) ->
  ladder_tidy sd l -> ladder_tidy sd (without p lv' l).
Proof.
  intros Hfind Hlv' [Hs Hne]. split.
  - eapply StronglySorted_sublist; [apply without_keys | exact Hs].
  - apply Forall_forall. intros [q lq] Hin. simpl.
    destruct (find_split _ _ _ Hfind) as (l1 & l2 & -> & Hup & Her).
    rewrite Forall_forall in Hne. unfold without, PriceLevel.isEmpty in Hin.
    destruct (PriceLevel.orders_ lv') eqn:E.
    + rewrite Her in Hin. apply (Hne (q, lq)).
      rewrite elem_of_app in Hin. rewrite elem_of_app, elem_of_cons. tauto.
    + rewrite Hup in Hin. rewrite elem_of_app, elem_of_cons in Hin.
      destruct Hin as [Hin|[[= -> ->]|Hin]].
      * apply (Hne (q, lq)). rewrite elem_of_app. tauto.
      * by rewrite E.
      * apply (Hne (q, lq)). rewrite elem_of_app, elem_of_cons. tauto.
Qed.

(** The ladder of the order's side after [addOrder] is tidy, and its first
    price is the one of before or the price of the order. *)
Lemma addOrder_tidy o bk :
  ladder_tidy (side o) (OrderBook.levels (side o) bk) ->
  ladder_tidy (side o) (OrderBook.levels (side o) (OrderBook.addOrder o bk))
  ∧ (head ((OrderBook.levels (side o) (OrderBook.addOrder o bk)).*1) = Some (price o)
     ∨ head ((OrderBook.levels (side o) (OrderBook.addOrder o bk)).*1)
       = head ((OrderBook.levels (side o) bk).*1)
       ∧ OrderBook.levels (side o) bk ≠ []).
Proof.
  intros [Hs Hne].
  destruct (addOrder_shape o bk)
    as (l1 & l2 & mid & lvOld & Hl & Hmid & Hl' & _).
  assert (Hback : PriceLevel.orders_ (PriceLevel.addOrder o lvOld) ≠ []).
  { simpl. by destruct (PriceLevel.orders_ lvOld). }
  destruct Hmid as [(-> & -> & Hnone & Hput)|(-> & Hsome)].
  - destruct (put_keys (side o) (price o)
                (PriceLevel.addOrder o (PriceLevel.new (price o))) _ Hnone Hs) as [Hs' Hhead].
    rewrite Hl', Hput. split; [|exact Hhead].
    split; [exact Hs'|]. rewrite <- Hput.
    rewrite Hl in Hne. simpl in Hne. rewrite Forall_app in Hne.
    rewrite Forall_app, Forall_cons. tauto.
  - assert (Hk : (OrderBook.levels (side o) (OrderBook.addOrder o bk)).*1
                 = (OrderBook.levels (side o) bk).*1).
    { rewrite Hl', Hl. by rewrite !fmap_app. }
    split.
    + split; [by rewrite Hk|]. rewrite Hl'. rewrite Hl in Hne.
      rewrite !Forall_app, Forall_cons in Hne. rewrite Forall_app, Forall_cons. tauto.
    + right. split; [by rewrite Hk|]. rewrite Hl. by destruct l1.
Qed.

(** No empty level: the best order of a ladder is missing only when the
    ladder is empty. *)
Lemma bestOrder_None sd l :
  ladder_tidy sd l -> OrderBook.bestOrder l = None -> l = [].
Proof.
  intros [_ Hne]. destruct l as [|[p lv] l]; [done|]. simpl.
  apply Forall_cons in Hne as [Hlv _]. simpl in Hlv.
  unfold PriceLevel.getFirstOrder. by destruct (PriceLevel.orders_ lv).
Qed.

Lemma bestOrder_head l cid :
  OrderBook.bestOrder l = Some cid ->
  ∃ p lv r, l = (p, lv) :: r ∧ cid ∈ PriceLevel.orders_ lv.
Proof.
  destruct l as [|[p lv] l]; [done|]. simpl. unfold PriceLevel.getFirstOrder.
  intros H. exists p, lv, l. split; [done|].
  destruct (PriceLevel.orders_ lv); [done|]. injection H as ->. by left.
Qed.

End Tidy.

(** ** A fill keeps the books tidy *)

Section TidyFill.
Implicit Types (l : list (Z * PriceLevel.t)) (lv : PriceLevel.t) (ids : list Z)
  (store : gmap Z Order) (bk : OrderBook.t).

Lemma ladder_tidy_side sd s store bk :
  book_tidy s store bk -> ladder_tidy sd (OrderBook.levels sd bk).
Proof. intros (? & ? & _). by destruct sd. Qed.

(** A book whose ladder of one side has lost levels stays uncrossed. *)
Lemma uncrossed_sub sd bk bk' :
  uncrossed bk ->
  StronglySorted (λ p q, OrderBook.before sd p q = true) ((OrderBook.levels sd bk).*1) ->
  (OrderBook.levels sd bk').*1 `sublist_of` (OrderBook.levels sd bk).*1 ->
  OrderBook.levels (opposite sd) bk' = OrderBook.levels (opposite sd) bk ->
  uncrossed bk'.
Proof.
  unfold uncrossed. intros Hu Hs Hsub Hopp.
  destruct sd; simpl in *.
  - rewrite Hopp.
    destruct (OrderBook.bidLevels_ bk') as [|[pb' lb'] rb']; [done|].
    destruct (OrderBook.askLevels_ bk) as [|[pa la] ra]; [done|].
    destruct (OrderBook.bidLevels_ bk) as [|[pb lb] rb].
    { simpl in Hsub. by apply sublist_nil_r in Hsub. }
    destruct (sorted_head_sublist BUY _ _ pb' pb Hs Hsub eq_refl eq_refl) as [->|Hb]; [done|].
    apply before_lt in Hb. lia.
  - rewrite Hopp.
    destruct (OrderBook.bidLevels_ bk) as [|[pb lb] rb]; [done|].
    destruct (OrderBook.askLevels_ bk') as [|[pa' la'] ra']; [done|].
    destruct (OrderBook.askLevels_ bk) as [|[pa la] ra].
    { simpl in Hsub. by apply sublist_nil_r in Hsub. }
    destruct (sorted_head_sublist SELL _ _ pa' pa Hs Hsub eq_refl eq_refl) as [->|Hb]; [done|].
    apply before_lt in Hb. lia.
Qed.

Lemma restingIds_elem bk x :
  x ∈ restingIds bk <-> ∃ sd, x ∈ ladderIds (OrderBook.levels sd bk).
Proof.
  unfold restingIds. rewrite elem_of_app. split.
  - intros [H|H]; [by exists BUY | by exists SELL].
  - intros ([] & H); [by left | by right].
Qed.

(** A book with the ladders of a tidy book is tidy. *)
Lemma book_tidy_levels s store bk bk' :
  (∀ sd, OrderBook.levels sd bk' = OrderBook.levels sd bk) ->
  book_tidy s store bk -> book_tidy s store bk'.
Proof.
  intros Hl (Hb & Ha & Hu & Hn).
  pose proof (Hl BUY) as HB. pose proof (Hl SELL) as HS. simpl in HB, HS.
  unfold book_tidy, uncrossed, restingIds in *. by rewrite HB, HS.
Qed.

Lemma book_tidy_new s store : book_tidy s store (OrderBook.new s).
Proof. unfold book_tidy, ladder_tidy, uncrossed, restingIds. simpl. repeat split; constructor. Qed.

Lemma book_tidy_nodes s store store' bk :
  (∀ x, x ∈ restingIds bk -> store' !! x = store !! x) ->
  book_tidy s store bk -> book_tidy s store' bk.
Proof.
  intros Hsame (Hb & Ha & Hu & Hn). repeat split; try apply Hb; try apply Ha; try done.
  rewrite Forall_forall in *. intros x Hx. rewrite Hsame by done. by apply Hn.
Qed.

Lemma tidy_live s st bk x :
  book_tidy s (orders_ st) bk -> x ∈ restingIds bk ->
  ∃ o, orders_ st !! x = Some o ∧ live s o.
Proof.
  intros (_ & _ & _ & Hn) Hx. rewrite Forall_forall in Hn. specialize (Hn x Hx).
  destruct (orders_ st !! x) as [o|]; [|done]. by exists o.
Qed.

Lemma tidy_fill sym oid st order counter bk cid t st' :
  tidy_but (Some oid) st ->
  rests_nowhere oid st ->
  wf st ->
  orders_ st !! oid = Some order ->
  filledQuantity order < quantity order ->
  orderBooks_ st !! sym = Some bk ->
  cid ∈ ladderIds (OrderBook.levels (opposite (side order)) bk) ->
  orders_ st !! cid = Some counter ->
  fill_post sym oid cid order counter bk st t st' ->
  tidy_but (Some oid) st' ∧ rests_nowhere oid st' ∧ 0 < tradeQuantity t.
Proof.
  intros [Hbooks Hsound] Hrest Hwf Ho Hopen Hbk Hin Hc Hpost.
  pose proof (Hbooks _ _ Hbk) as Htidy. simpl in Htidy.
  pose proof (restingIds_levels _ _ _ Hin) as Hcin.
  destruct (tidy_live _ _ _ _ Htidy Hcin) as (c' & Hc' & Hlive).
  rewrite Hc in Hc'. injection Hc' as <-.
  destruct Hlive as (Hcsym & Hcty & Hctif & Hcact & Hcopen).
  pose proof (wf_order _ _ _ Hwf Ho) as (Hoid & Hoq & Hof).
  pose proof (wf_order _ _ _ Hwf Hc) as (Hcid & Hcq & Hcf).
  assert (Hne : cid ≠ oid).
  { intros ->. by apply (Hrest _ _ Hbk). }
  set (q := MatchingEngine.tradeQtyOf order counter).
  assert (Hq : 0 < q ∧ q <= quantity order - filledQuantity order
               ∧ q <= quantity counter - filledQuantity counter).
  { unfold q, MatchingEngine.tradeQtyOf.
    rewrite (u64_id (quantity order - filledQuantity order)) by (unfold in_u64 in *; lia).
    rewrite (u64_id (quantity counter - filledQuantity counter))
      by (unfold in_u64 in *; lia).
    lia. }
  assert (Hfc : filledQuantity (counterAfter order counter) = filledQuantity counter + q).
  { unfold counterAfter. simpl. fold q. apply u64_id. unfold in_u64 in *. lia. }
  assert (Hcstatic : static (counterAfter order counter) = static counter) by done.
  pose proof (fp_counter _ _ _ _ _ _ _ _ _ Hpost) as Hc1.
  pose proof (fp_order _ _ _ _ _ _ _ _ _ Hpost) as Ho1.
  pose proof (fp_frame _ _ _ _ _ _ _ _ _ Hpost) as Hframe.
  pose proof (fp_books _ _ _ _ _ _ _ _ _ Hpost) as Hothers.
  destruct (fp_book _ _ _ _ _ _ _ _ _ Hpost)
    as (bk' & Hbk' & Hsub & _ & Hthis & Hstay & Hgone & Hwithout).
  (* the counter order, where it still rests, is live *)
  assert (Hclive : cid ∈ restingIds bk' -> live sym (counterAfter order counter)).
  { intros Hcin'.
    assert (Hlt : filledQuantity (counterAfter order counter) < quantity counter).
    { destruct (Z.lt_ge_cases (filledQuantity (counterAfter order counter))
                  (quantity counter)) as [?|Hge]; [done|].
      by destruct (Hgone Hge). }
    unfold live. repeat split; try done.
    unfold counterAfter. simpl. fold q.
    unfold counterAfter in Hlt. simpl in Hlt. fold q in Hlt.
    destruct (Z.leb_spec (quantity counter) (u64 (filledQuantity counter + q))); [lia|].
    by right. }
  (* a node of a book of before is the same order, but for the counter order *)
  assert (Hnode : ∀ s b x o, orderBooks_ st !! s = Some b -> x ∈ restingIds b ->
                    orders_ st !! x = Some o -> x ≠ cid ->
                    orders_ st' !! x = Some o).
  { intros s b x o Hb Hx Hxo Hxc. rewrite Hframe; [done| |done].
    intros ->. by apply (Hrest _ _ Hb). }
  split; [split|split].
  - (* the books *)
    intros s b' Hb'. simpl.
    destruct (decide (s = sym)) as [->|Hs].
    + rewrite Hbk' in Hb'. injection Hb' as <-.
      pose proof (ladder_tidy_side (side order) _ _ _ Htidy) as Hl1.
      pose proof (ladder_tidy_side (opposite (side order)) _ _ _ Htidy) as Hl2.
      assert (Hkeys : (OrderBook.levels (opposite (side order)) bk').*1
                      `sublist_of` (OrderBook.levels (opposite (side order)) bk).*1).
      { destruct (Z.lt_ge_cases (filledQuantity (counterAfter order counter))
                    (quantity counter)) as [Hlt|Hge].
        - by rewrite (Hstay Hlt).
        - destruct (Hwithout Hge) as (p & lv & lv' & _ & _ & _ & ->). apply without_keys. }
      assert (Hl2' : ladder_tidy (opposite (side order))
                       (OrderBook.levels (opposite (side order)) bk')).
      { destruct (Z.lt_ge_cases (filledQuantity (counterAfter order counter))
                    (quantity counter)) as [Hlt|Hge].
        - by rewrite (Hstay Hlt).
        - destruct (Hwithout Hge) as (p & lv & lv' & Hfind & _ & Hlv' & ->).
          by eapply without_tidy. }
      assert (Hl1' : ladder_tidy (side order) (OrderBook.levels (side order) bk')).
      { by rewrite Hthis. }
      split; [|split; [|split]].
      * destruct (side order); [exact Hl1' | exact Hl2'].
      * destruct (side order); [exact Hl2' | exact Hl1'].
      * eapply (uncrossed_sub (opposite (side order)) bk bk').
        -- apply Htidy.
        -- apply Hl2.
        -- exact Hkeys.
        -- by rewrite opposite_involutive.
      * apply Forall_forall. intros x Hx.
        destruct (decide (x = cid)) as [->|Hxc].
        -- rewrite Hc1. simpl. by apply Hclive.
        -- destruct (tidy_live _ _ _ _ Htidy (Hsub _ Hx)) as (o & Hxo & Hxl).
           rewrite (Hnode _ _ _ _ Hbk (Hsub _ Hx) Hxo Hxc). done.
    + pose proof (Hothers s b' Hs Hb') as Hlev.
      destruct (orderBooks_ st !! s) as [b|] eqn:Hb; simpl in Hlev.
      * eapply book_tidy_levels; [exact Hlev|].
        pose proof (Hbooks _ _ Hb) as Htb. simpl in Htb.
        eapply book_tidy_nodes; [|exact Htb].
        intros x Hx. destruct (tidy_live _ _ _ _ Htb Hx) as (o & Hxo & Hxl).
        rewrite Hxo. eapply Hnode; try done.
        intros ->. rewrite Hc in Hxo. injection Hxo as <-.
        destruct Hxl as (Hsym' & _). congruence.
      * eapply book_tidy_levels; [exact Hlev|]. apply book_tidy_new.
  - (* the statuses *)
    intros k o Hk Hko. simpl.
    destruct (decide (k = cid)) as [->|Hkc].
    + rewrite Hc1 in Hk. injection Hk as <-.
      unfold status_sound. rewrite Hfc.
      unfold counterAfter. simpl. fold q.
      rewrite (u64_id (filledQuantity counter + q)) by (unfold in_u64 in *; lia).
      destruct (Z.leb_spec (quantity counter) (filledQuantity counter + q)); simpl; lia.
    + rewrite Hframe in Hk; [|congruence|done]. by apply (Hsound k o).
  - (* the incoming order rests nowhere *)
    intros s b' Hb'. simpl.
    destruct (decide (s = sym)) as [->|Hs].
    + rewrite Hbk' in Hb'. injection Hb' as <-.
      intros Hx. apply (Hrest _ _ Hbk). by apply Hsub.
    + pose proof (Hothers s b' Hs Hb') as Hlev.
      intros Hx. apply restingIds_elem in Hx as (sd & Hx). rewrite Hlev in Hx.
      destruct (orderBooks_ st !! s) as [b|] eqn:Hb; simpl in Hx.
      * apply (Hrest _ _ Hb). apply restingIds_elem. by exists sd.
      * destruct sd; by apply elem_of_nil in Hx.
  - rewrite (fp_trade _ _ _ _ _ _ _ _ _ Hpost). simpl. fold q. lia.
Qed.

Lemma open_fill sym oid st order counter bk cid t st' :
  open_rest (Some oid) st ->
  tidy_but (Some oid) st ->
  orders_ st !! oid = Some order ->
  orderBooks_ st !! sym = Some bk ->
  cid ∈ ladderIds (OrderBook.levels (opposite (side order)) bk) ->
  orders_ st !! cid = Some counter ->
  fill_post sym oid cid order counter bk st t st' ->
  open_rest (Some oid) st'.
Proof.
  intros Hopen [Hbooks _] Ho Hbk Hin Hc Hpost.
  pose proof (Hbooks _ _ Hbk) as Htidy. simpl in Htidy.
  pose proof (restingIds_levels _ _ _ Hin) as Hcin.
  destruct (tidy_live _ _ _ _ Htidy Hcin) as (c' & Hc' & Hlive).
  rewrite Hc in Hc'. injection Hc' as <-.
  destruct Hlive as (Hcsym & _).
  destruct (fp_book _ _ _ _ _ _ _ _ _ Hpost)
    as (bk' & Hbk' & _ & _ & Hthis & Hstay & _ & _).
  intros k o' Hk Hko Hty Htif Hact Hleft.
  destruct (decide (k = cid)) as [->|Hkc].
  - rewrite (fp_counter _ _ _ _ _ _ _ _ _ Hpost) in Hk. injection Hk as <-.
    change (symbol (counterAfter order counter)) with (symbol counter).
    rewrite Hcsym, Hbk'. simpl.
    apply restingIds_elem. exists (opposite (side order)).
    rewrite Hstay; [done|]. exact Hleft.
  - assert (Hko' : k ≠ oid) by congruence.
    rewrite (fp_frame _ _ _ _ _ _ _ _ _ Hpost) in Hk by done.
    pose proof (Hopen k o' Hk Hko Hty Htif Hact Hleft) as Hr.
    destruct (orderBooks_ st !! symbol o') as [b|] eqn:Hb; [|done]. simpl in Hr.
    destruct (decide (symbol o' = sym)) as [Hs|Hs].
    + rewrite Hs in Hb. rewrite Hbk in Hb. injection Hb as <-.
      rewrite Hs, Hbk'. simpl.
      by apply (fp_kept _ _ _ _ _ _ _ _ _ Hpost).
    + destruct (fp_persist _ _ _ _ _ _ _ _ _ Hpost (symbol o')) as [b' Hb'];
        [by rewrite Hb|].
      rewrite Hb'. simpl.
      pose proof (fp_books _ _ _ _ _ _ _ _ _ Hpost _ _ Hs Hb') as Hlev.
      rewrite Hb in Hlev. simpl in Hlev.
      apply restingIds_elem in Hr as (sd & Hr).
      apply restingIds_elem. exists sd. by rewrite Hlev.
Qed.

End TidyFill.

(** ** The match loop on a tidy book *)

Lemma sumQty_app ts t : sumQty (ts ++ [t]) = sumQty ts + tradeQuantity t.
Proof. induction ts as [|x ts IH]; simpl; [lia|]. rewrite IH. lia. Qed.

Lemma u64_succ a n : u64 (u64 (a + Z.of_nat n) + 1) = u64 (a + Z.of_nat (S n)).
Proof.
  unfold u64. rewrite Z.add_mod_idemp_l by lia. f_equal. lia.
Qed.

Section MatchInv.
Variables (limited : bool) (sym : string) (oid : Z).
Variables (st0 : Engine) (order0 : Order) (bk0 : OrderBook.t).
Hypothesis wf0 : wf st0.
Hypothesis order0_at : orders_ st0 !! oid = Some order0.
Hypothesis bk0_at : orderBooks_ st0 !! sym = Some bk0.
Hypothesis market_unlimited : limited = false -> type order0 = MARKET.
Hypothesis tidy0 : tidy_but (Some oid) st0.
Hypothesis rests0 : rests_nowhere oid st0.
Hypothesis tradeId0 : in_u64 (nextTradeId_ st0).

Lemma match_inv_init : match_inv sym oid st0 order0 bk0 st0 [].
Proof.
  split; [by apply priced_inv_init|].
  split; [done|]. split; [done|]. split; [constructor|].
  split. { exists order0. split; [done|]. simpl. lia. }
  split; [by intros ?|].
  split; [done|]. split; [done|]. split; [done|].
  simpl. rewrite Z.add_0_r. symmetry. by apply u64_id.
Qed.

Lemma match_inv_fill st trades order counter bk cid t st' :
  match_inv sym oid st0 order0 bk0 st trades ->
  wf st ->
  orders_ st !! oid = Some order ->
  filledQuantity order < quantity order ->
  orderBooks_ st !! sym = Some bk ->
  oid ∉ restingIds bk ->
  cid ∈ ladderIds (OrderBook.levels (opposite (side order)) bk) ->
  orders_ st !! cid = Some counter ->
  side counter = opposite (side order) ->
  (limited = true -> beyond order counter = false) ->
  fill_post sym oid cid order counter bk st t st' ->
  match_inv sym oid st0 order0 bk0 st' (trades ++ [t]).
Proof.
  intros (Hp & Ht & Hr & Hpos & (o & Ho' & Hsum) & Hop & Hn & Hu & Hids & Hnext)
    Hwf Ho Hopen Hbk Hout Hin Hc Hside Hlim Hpost.
  rewrite Ho in Ho'. injection Ho' as <-.
  destruct (tidy_fill _ _ _ _ _ _ _ _ _ Ht Hr Hwf Ho Hopen Hbk Hin Hc Hpost)
    as (Ht' & Hr' & Hq).
  split.
  { eapply (priced_inv_fill limited sym oid st0 order0 bk0); eauto. }
  split; [done|]. split; [done|].
  split. { apply Forall_app. split; [done|]. by apply Forall_singleton. }
  split.
  { eexists. split; [apply (fp_order _ _ _ _ _ _ _ _ _ Hpost)|]. simpl.
    rewrite sumQty_app, Hsum. rewrite (fp_trade _ _ _ _ _ _ _ _ _ Hpost). simpl. lia. }
  split.
  { intros H0.
    exact (open_fill sym oid st order counter bk cid t st' (Hop H0) Ht Ho Hbk Hin Hc Hpost). }
  split. { by rewrite (fp_nextOrderId _ _ _ _ _ _ _ _ _ Hpost). }
  split. { by rewrite (fp_userOrders _ _ _ _ _ _ _ _ _ Hpost). }
  split.
  { rewrite fmap_app, Hids, length_app. simpl.
    rewrite Nat.add_1_r, seq_S, fmap_app. simpl. f_equal.
    rewrite (fp_trade _ _ _ _ _ _ _ _ _ Hpost). simpl. by rewrite Hnext. }
  rewrite (fp_nextTradeId _ _ _ _ _ _ _ _ _ Hpost), Hnext, length_app. simpl.
  rewrite Nat.add_1_r. apply u64_succ.
Qed.

(** The loop on a tidy state: it ends within the fuel [rounds] gives it. *)
Lemma matchLoop_spec :
  ∃ trades st order bk,
    MatchingEngine.matchLoop limited (MatchingEngine.rounds sym st0) sym oid [] st0
    = Some (trades, st)
    ∧ match_inv sym oid st0 order0 bk0 st trades
    ∧ wf st
    ∧ orders_ st !! oid = Some order
    ∧ static order = static order0
    ∧ status order = status order0
    ∧ orderBooks_ st !! sym = Some bk
    ∧ (oid ∉ restingIds bk)
    ∧ filledQuantity order0 <= filledQuantity order
    ∧ (quantity order <= filledQuantity order
       ∨ OrderBook.bestOrder (OrderBook.levels (opposite (side order0)) bk) = None
       ∨ (limited = true
          ∧ ∃ cid c, OrderBook.bestOrder (OrderBook.levels (opposite (side order0)) bk)
                     = Some cid
                     ∧ orders_ st !! cid = Some c
                     ∧ beyond order c = true)).
Proof.
  apply (matchLoop_rule limited sym oid (match_inv sym oid st0 order0 bk0))
    with (bk := bk0).
  - intros. eapply match_inv_fill; eauto.
  - done.
  - done.
  - done.
  - by apply (rests0 sym bk0).
  - apply match_inv_init.
  - left. unfold MatchingEngine.rounds. rewrite bk0_at. simpl.
    unfold OrderBook.resting, restingIds. rewrite !nodes_length, length_app. lia.
Qed.

End MatchInv.

(** ** After the loop *)

Lemma update_order_keeps f oid st :
  (∀ o, static (f o) = static o) ->
  (∀ o, filledQuantity (f o) = filledQuantity o) ->
  wf st -> tidy_but (Some oid) st -> rests_nowhere oid st ->
  wf (update_order f oid st)
  ∧ tidy_but (Some oid) (update_order f oid st)
  ∧ rests_nowhere oid (update_order f oid st).
Proof.
  intros Hs Hf Hwf [Hbooks Hsound] Hrest.
  assert (Hst : static <$> orders_ (update_order f oid st) = static <$> orders_ st)
    by by apply update_order_static.
  split; [|split; [split|]].
  - apply wf_intro.
    + intros k o Hk. destruct (decide (k = oid)) as [->|Hne].
      * destruct (orders_ st !! oid) as [o0|] eqn:E.
        -- rewrite (update_order_lookup f oid st o0 E) in Hk. injection Hk as <-.
           pose proof (wf_order _ _ _ Hwf E) as Hok.
           eapply order_ok_static; [apply Hs | | exact Hok].
           rewrite Hf. apply Hok.
        -- unfold update_order in Hk. simpl in Hk. by rewrite lookup_alter_eq, E in Hk.
      * rewrite update_order_lookup_ne in Hk by done. by eapply wf_order.
    + intros s b Hb. eapply book_ok_store; [exact Hst|]. by eapply wf_book.
  - intros s b Hb. simpl. eapply book_tidy_nodes; [|by apply (Hbooks s b)].
    intros x Hx. apply update_order_lookup_ne. intros ->. by apply (Hrest s b).
  - intros k o Hk Hko. rewrite update_order_lookup_ne in Hk by congruence.
    by apply (Hsound k o).
  - exact Hrest.
Qed.

(** The order the loop worked on has a sound status again. *)
Lemma tidy_seal oid st o :
  tidy_but (Some oid) st -> orders_ st !! oid = Some o -> status_sound o ->
  tidy_but None st.
Proof.
  intros [Hbooks Hsound] Ho Hs. split; [done|].
  intros k o' Hk _. destruct (decide (k = oid)) as [->|Hne].
  - rewrite Ho in Hk. by injection Hk as <-.
  - apply (Hsound k o' Hk). congruence.
Qed.

Lemma tidy_open oid st : tidy_but None st -> tidy_but (Some oid) st.
Proof. intros [Hbooks Hsound]. split; [done|]. intros k o Hk _. by apply (Hsound k o). Qed.

Lemma getOrderBook_keeps sym oid x st :
  wf st -> tidy_but x st -> rests_nowhere oid st ->
  wf (MatchingEngine.getOrderBook sym st)
  ∧ tidy_but x (MatchingEngine.getOrderBook sym st)
  ∧ rests_nowhere oid (MatchingEngine.getOrderBook sym st)
  ∧ orderBooks_ (MatchingEngine.getOrderBook sym st) !! sym
    = Some (default (OrderBook.new sym) (orderBooks_ st !! sym)).
Proof.
  intros Hwf [Hbooks Hsound] Hrest. unfold MatchingEngine.getOrderBook.
  destruct (orderBooks_ st !! sym) as [bk|] eqn:E; [done|]. simpl.
  split; [|split; [split|split]].
  - apply wf_intro; simpl; [by intros; eapply wf_order|].
    intros s b Hb. destruct (decide (s = sym)) as [->|Hne].
    + rewrite lookup_insert_eq in Hb. injection Hb as <-. apply book_ok_new.
    + rewrite lookup_insert_ne in Hb by done. by eapply wf_book.
  - intros s b Hb. simpl in *. destruct (decide (s = sym)) as [->|Hne].
    + rewrite lookup_insert_eq in Hb. injection Hb as <-. apply book_tidy_new.
    + rewrite lookup_insert_ne in Hb by done. by apply (Hbooks s b).
  - done.
  - intros s b Hb. simpl in *. destruct (decide (s = sym)) as [->|Hne].
    + rewrite lookup_insert_eq in Hb. injection Hb as <-. by intros ?%elem_of_nil.
    + rewrite lookup_insert_ne in Hb by done. by apply (Hrest s b).
  - by rewrite lookup_insert_eq.
Qed.

Lemma open_rest_same oid st st' :
  (∀ k, k ≠ oid -> orders_ st' !! k = orders_ st !! k) ->
  orderBooks_ st' = orderBooks_ st ->
  open_rest (Some oid) st -> open_rest (Some oid) st'.
Proof.
  intros Hframe Hb Hopen k o Hk Hko. rewrite Hb.
  rewrite Hframe in Hk by congruence. by apply (Hopen k o).
Qed.

Lemma set_status_same o : set_status (status o) o = o.
Proof. by destruct o. Qed.

Lemma book_ok_side store bk sd :
  book_ok store bk -> ladder_ok store bk sd (OrderBook.levels sd bk).
Proof. intros (? & ? & _). by destruct sd. Qed.

(** Where the loop stops short of the quantity, nothing in the book is
    within reach of the order. *)
Lemma exit_out_of_reach limited sym st order bk :
  wf st ->
  tidy_but (Some (orderId order)) st ->
  orderBooks_ st !! sym = Some bk ->
  (limited = true -> type order = LIMIT) ->
  filledQuantity order < quantity order ->
  (quantity order <= filledQuantity order
   ∨ OrderBook.bestOrder (OrderBook.levels (opposite (side order)) bk) = None
   ∨ (limited = true
      ∧ ∃ cid c, OrderBook.bestOrder (OrderBook.levels (opposite (side order)) bk)
                 = Some cid
                 ∧ orders_ st !! cid = Some c
                 ∧ beyond order c = true)) ->
  out_of_reach order bk.
Proof.
  intros Hwf [Hbooks _] Hbk Hlim Hopen [Hdone|[Hnone|(Hl & cid & c & Hbest & Hc & Hbeyond)]].
  - lia.
  - unfold out_of_reach.
    rewrite (bestOrder_None (opposite (side order)) _
               (ladder_tidy_side _ _ _ _ (Hbooks _ _ Hbk)) Hnone). done.
  - unfold out_of_reach.
    destruct (bestOrder_head _ _ Hbest) as (p & lv & r & Hlev & Hin).
    rewrite Hlev. split; [by apply Hlim|].
    pose proof (book_ok_side _ _ (opposite (side order)) (wf_book _ _ _ Hwf Hbk)) as [_ Hn].
    rewrite Hlev in Hn. apply Forall_cons in Hn as [Hn _]. simpl in Hn.
    rewrite Forall_forall in Hn. destruct (Hn _ Hin) as [_ Hp].
    rewrite Hc in Hp. simpl in Hp. destruct Hp as [Hp _].
    unfold beyond in Hbeyond. rewrite <- Hp.
    destruct (side order); by apply Z.ltb_lt.
Qed.

Lemma matchedStatus_sound o :
  0 <= filledQuantity o <= quantity o ->
  status_sound (set_status (matchedStatus o) o).
Proof.
  intros H. unfold status_sound, matchedStatus. simpl.
  destruct (Z.leb_spec (quantity o) (filledQuantity o)); simpl; [lia|].
  destruct (Z.ltb_spec 0 (filledQuantity o)); simpl; [lia|].
  destruct (type o); simpl; [lia | done].
Qed.

(** [matchLimitOrder] and [matchMarketOrder] on a tidy state, for an order
    that comes in PENDING and unfilled. *)
Lemma matchPhase_spec sym oid st0 order0 bk0 :
  wf st0 -> tidy_but None st0 -> rests_nowhere oid st0 ->
  in_u64 (nextTradeId_ st0) ->
  orders_ st0 !! oid = Some order0 ->
  orderBooks_ st0 !! sym = Some bk0 ->
  status order0 = PENDING -> filledQuantity order0 = 0 ->
  ∃ trades st order bk,
    match type order0 with
    | LIMIT => MatchingEngine.matchLimitOrder sym oid st0
    | MARKET => MatchingEngine.matchMarketOrder sym oid st0
    end = Some (trades, st)
    ∧ wf st ∧ tidy_but None st ∧ rests_nowhere oid st
    ∧ match_inv sym oid st0 order0 bk0 st trades
    ∧ orders_ st !! oid = Some order
    ∧ static order = static order0
    ∧ status order = matchedStatus order
    ∧ filledQuantity order = sumQty trades
    ∧ orderBooks_ st !! sym = Some bk
    ∧ (filledQuantity order < quantity order -> out_of_reach order bk).
Proof.
  intros Hwf Htidy Hrest Htid Ho Hbk Hpending Hzero.
  set (limited := bool_decide (type order0 = LIMIT)).
  assert (Hlim : limited = false -> type order0 = MARKET).
  { unfold limited. destruct (type order0); [done|]. done. }
  destruct (matchLoop_spec limited sym oid st0 order0 bk0 Hwf Ho Hbk Hlim
              (tidy_open _ _ Htidy) Hrest Htid)
    as (trades & st1 & order1 & bk1 & Hrun & Hinv & Hwf1 & Ho1 & Hst1 & Hstatus1 & Hbk1
        & Hout1 & Hmono & Hexit).
  pose proof Hinv as (Hp & Ht1 & Hr1 & Hpos & (o1 & Ho1' & Hsum) & Hop & Hn & Hu & Hids
                      & Hnext).
  rewrite Ho1 in Ho1'. injection Ho1' as <-. rewrite Hzero in Hsum. simpl in Hsum.
  pose proof (wf_order _ _ _ Hwf1 Ho1) as (Hid1 & Hq1 & Hf1).
  pose proof (static_fields _ _ Hst1) as (_ & _ & _ & Hside & Hty & _ & _ & _).
  set (X := matchedStatus order1).
  set (st := update_order (set_status X) oid st1).
  (* the state either function ends in *)
  assert (Hend :
    ∃ st', match type order0 with
           | LIMIT => MatchingEngine.matchLimitOrder sym oid st0
           | MARKET => MatchingEngine.matchMarketOrder sym oid st0
           end = Some (trades, st')
           ∧ (st' = st ∨ (st' = st1 ∧ X = status order1))).
  { unfold X, matchedStatus, st, X, matchedStatus. rewrite Hty.
    destruct (type order0) eqn:Et.
    - unfold MatchingEngine.matchLimitOrder. unfold limited in Hrun.
      rewrite bool_decide_eq_true_2 in Hrun by done.
      rewrite Hrun. simpl. rewrite Ho1. simpl.
      destruct (quantity order1 <=? filledQuantity order1); [by eauto|].
      destruct (0 <? filledQuantity order1); [by eauto|].
      eexists. split; [reflexivity|]. right. by rewrite Hstatus1, Hpending.
    - unfold MatchingEngine.matchMarketOrder. unfold limited in Hrun.
      rewrite bool_decide_eq_false_2 in Hrun by done.
      rewrite Hrun. simpl. rewrite Ho1. simpl.
      destruct (quantity order1 <=? filledQuantity order1); [by eauto|].
      destruct (0 <? filledQuantity order1); by eauto. }
  destruct Hend as (st' & Hres & Hst').
  set (order := set_status X order1).
  assert (Hfinal : wf st' ∧ tidy_but (Some oid) st' ∧ rests_nowhere oid st'
                   ∧ orders_ st' !! oid = Some order
                   ∧ (∀ k, k ≠ oid -> orders_ st' !! k = orders_ st1 !! k)
                   ∧ static <$> orders_ st' = static <$> orders_ st1
                   ∧ orderBooks_ st' = orderBooks_ st1
                   ∧ emitted st' = emitted st1
                   ∧ nextOrderId_ st' = nextOrderId_ st1
                   ∧ userOrders_ st' = userOrders_ st1
                   ∧ nextTradeId_ st' = nextTradeId_ st1).
  { destruct Hst' as [->|[-> HX]].
    - destruct (update_order_keeps (set_status X) oid st1) as (? & ? & ?); try done.
      split; [done|]. split; [done|]. split; [done|].
      split; [by apply update_order_lookup|].
      split; [by intros k Hk; apply update_order_lookup_ne|].
      split; [by apply update_order_static|]. done.
    - split; [done|]. split; [done|]. split; [done|].
      split; [|done]. unfold order. by rewrite HX, set_status_same. }
  destruct Hfinal as (Hwf' & Ht' & Hr' & Ho' & Hfr' & Hs' & Hb' & He' & Hn' & Hu' & Hti').
  exists trades, st', order, bk1.
  split; [exact Hres|]. split; [exact Hwf'|].
  split.
  { eapply tidy_seal; [exact Ht' | exact Ho' |]. by apply matchedStatus_sound. }
  split; [exact Hr'|].
  split.
  { destruct Hp as (Hps & (b & Hb & Hsub) & Htr & Hall).
    split.
    { split; [by rewrite Hs'|]. split; [exists b; by rewrite Hb'|].
      split; [|done]. by rewrite (tradesOf_emitted _ _ He'). }
    split; [done|]. split; [done|]. split; [done|].
    split. { exists order. split; [done|]. simpl. by rewrite Hzero. }
    split. { intros H0. by apply (open_rest_same oid st1 st' Hfr' Hb'), Hop. }
    split; [congruence|]. split; [congruence|]. split; [done|]. congruence. }
  split; [exact Ho'|]. split; [done|]. split; [done|]. split; [done|].
  split; [by rewrite Hb'|].
  intros Hopen. simpl in Hopen.
  assert (Hreach : out_of_reach order1 bk1).
  { eapply (exit_out_of_reach limited sym st1); try done.
    - by rewrite Hid1.
    - intros Hl. unfold limited in Hl. rewrite Hty.
      by destruct (type order0).
    - by rewrite Hside. }
  exact Hreach.
Qed.

(** ** The end of [processOrder] *)

Lemma addOrder_uncrossed o bk :
  uncrossed bk ->
  ladder_tidy (side o) (OrderBook.levels (side o) bk) ->
  out_of_reach o bk ->
  uncrossed (OrderBook.addOrder o bk).
Proof.
  intros Hu Ht Hreach.
  destruct (addOrder_tidy o bk Ht) as [_ Hhead].
  destruct (addOrder_shape o bk) as (_ & _ & _ & _ & _ & _ & _ & Hopp & _).
  unfold uncrossed, out_of_reach in *.
  destruct (side o); simpl in *.
  - rewrite Hopp.
    destruct (OrderBook.bidLevels_ (OrderBook.addOrder o bk)) as [|[pb' lb'] rb']; [done|].
    destruct (OrderBook.askLevels_ bk) as [|[pa la] ra]; [done|].
    destruct Hreach as [_ Hlt]. simpl in Hhead.
    destruct Hhead as [[= ->]|[Hh Hne]]; [done|].
    destruct (OrderBook.bidLevels_ bk) as [|[pb lb] rb]; [done|].
    simpl in Hh. injection Hh as ->. done.
  - rewrite Hopp.
    destruct (OrderBook.bidLevels_ bk) as [|[pb lb] rb]; [done|].
    destruct (OrderBook.askLevels_ (OrderBook.addOrder o bk)) as [|[pa' la'] ra']; [done|].
    destruct Hreach as [_ Hlt]. simpl in Hhead.
    destruct Hhead as [[= ->]|[Hh Hne]]; [done|].
    destruct (OrderBook.askLevels_ bk) as [|[pa la] ra]; [done|].
    simpl in Hh. injection Hh as ->. done.
Qed.

Lemma addOrder_book_tidy s store o bk :
  book_tidy s store bk ->
  store !! orderId o = Some o ->
  live s o ->
  out_of_reach o bk ->
  book_tidy s store (OrderBook.addOrder o bk).
Proof.
  intros Ht Ho Hlive Hreach.
  pose proof (ladder_tidy_side (side o) _ _ _ Ht) as Hthis.
  pose proof (ladder_tidy_side (opposite (side o)) _ _ _ Ht) as Hthat.
  destruct (addOrder_tidy o bk Hthis) as [Hthis' _].
  destruct (addOrder_shape o bk) as (_ & _ & _ & _ & _ & _ & _ & Hopp & _).
  rewrite <- Hopp in Hthat.
  destruct Ht as (_ & _ & Hu & Hn).
  split; [|split; [|split]].
  - destruct (side o); [exact Hthis' | exact Hthat].
  - destruct (side o); [exact Hthat | exact Hthis'].
  - by apply addOrder_uncrossed.
  - apply Forall_forall. intros x Hx.
    rewrite addOrder_restingIds in Hx. apply elem_of_cons in Hx as [->|Hx].
    + by rewrite Ho.
    + rewrite Forall_forall in Hn. by apply Hn.
Qed.

Lemma rest_spec sym oid st order bk :
  wf st -> tidy_but None st -> rests_nowhere oid st ->
  orders_ st !! oid = Some order ->
  symbol order = sym ->
  orderBooks_ st !! sym = Some bk ->
  status order ≠ REJECTED ->
  (filledQuantity order < quantity order -> out_of_reach order bk) ->
  ∃ st' bk',
    MatchingEngine.rest sym oid st = Some st'
    ∧ wf st' ∧ tidy_but None st'
    ∧ orders_ st' = orders_ st
    ∧ balances_ st' = balances_ st
    ∧ tradesOf st' = tradesOf st
    ∧ nextOrderId_ st' = nextOrderId_ st
    ∧ userOrders_ st' = userOrders_ st
    ∧ nextTradeId_ st' = nextTradeId_ st
    ∧ orderBooks_ st' !! sym = Some bk'
    ∧ (∀ s, s ≠ sym -> orderBooks_ st' !! s = orderBooks_ st !! s)
    ∧ OrderBook.levels (opposite (side order)) bk'
      = OrderBook.levels (opposite (side order)) bk
    ∧ (comes_to_rest order -> restingIds bk' ≡ₚ oid :: restingIds bk)
    ∧ (¬ comes_to_rest order -> bk' = bk).
Proof.
  intros Hwf [Hbooks Hsound] Hrest Ho Hsym Hbk Hrej Hreach.
  pose proof (wf_order _ _ _ Hwf Ho) as (Hid & Hq & Hf).
  unfold MatchingEngine.rest. rewrite Ho. simpl.
  destruct (decide (comes_to_rest order)) as [Hyes|Hno].
  - destruct Hyes as (Htif & Hty & Hopen & Hcan).
    rewrite (bool_decide_eq_true_2 _ Htif), (bool_decide_eq_true_2 _ Hty),
      (bool_decide_eq_true_2 _ Hcan).
    destruct (Z.ltb_spec (filledQuantity order) (quantity order)); [|lia]. simpl.
    assert (Hlive : live sym order).
    { split; [done|]. split; [done|]. split; [done|]. split; [|done].
      pose proof (Hsound _ _ Ho) as Hs. simpl in Hs. specialize (Hs ltac:(done)).
      unfold status_sound, active in *. destruct (status order); try done; eauto; lia. }
    assert (Hout : orderId order ∉ restingIds bk).
    { rewrite Hid. by apply (Hrest sym bk). }
    assert (Hreg : orders_ st !! orderId order = Some order) by by rewrite Hid.
    eexists _, (OrderBook.addOrder order bk).
    split; [reflexivity|].
    split.
    { apply wf_intro; simpl; [by intros; eapply wf_order|].
      intros s b Hb. destruct (decide (s = sym)) as [->|Hne].
      - rewrite lookup_alter_eq, Hbk in Hb. simpl in Hb. injection Hb as <-.
        apply addOrder_book_ok; [by eapply wf_book | done | done].
      - rewrite lookup_alter_ne in Hb by done. by eapply wf_book. }
    split.
    { split; [|exact Hsound]. intros s b Hb. simpl in *.
      destruct (decide (s = sym)) as [->|Hne].
      - rewrite lookup_alter_eq, Hbk in Hb. simpl in Hb. injection Hb as <-.
        apply addOrder_book_tidy; [by apply (Hbooks sym bk) | done | done | by apply Hreach].
      - rewrite lookup_alter_ne in Hb by done. by apply (Hbooks s b). }
    split; [done|]. split; [done|].
    split. { by rewrite tradesOf_notifyOrderUpdate. }
    split; [done|]. split; [done|]. split; [done|].
    split. { simpl. by rewrite lookup_alter_eq, Hbk. }
    split. { intros s Hs. simpl. by rewrite lookup_alter_ne. }
    split. { by destruct (addOrder_shape order bk) as (_ & _ & _ & _ & _ & _ & _ & Hopp & _). }
    split; [|by intros Hn; exfalso; apply Hn].
    intros _. rewrite <- Hid. apply addOrder_restingIds.
  - assert (Hcond : bool_decide (timeInForce order = GFD) && bool_decide (type order = LIMIT)
                    && (filledQuantity order <? quantity order)
                    && bool_decide (status order ≠ CANCELLED) = false).
    { apply not_true_is_false. intros H. apply Hno.
      apply andb_true_iff in H as [H H4]. apply andb_true_iff in H as [H H3].
      apply andb_true_iff in H as [H1 H2].
      apply bool_decide_eq_true in H1, H2, H4. apply Z.ltb_lt in H3. done. }
    rewrite Hcond. exists st, bk. split; [done|]. split; [done|]. split; [done|].
    repeat (split; [done|]). done.
Qed.

(** ** [processOrder] *)

(** [canFillCompletely] finds nothing where nothing is within reach. *)
Lemma canFill_out_of_reach order bk :
  out_of_reach order bk -> MatchingEngine.canFillCompletely order bk = false.
Proof.
  unfold out_of_reach, MatchingEngine.canFillCompletely,
    OrderBook.getAskDepth, OrderBook.getBidDepth, OrderBook.depth.
  destruct (side order); simpl.
  - destruct (OrderBook.askLevels_ bk) as [|[p lv] r]; [done|]. simpl.
    intros [Hty Hlt]. rewrite (bool_decide_eq_true_2 _ Hty). simpl.
    by destruct (Z.ltb_spec (price order) p); [|lia].
  - destruct (OrderBook.bidLevels_ bk) as [|[p lv] r]; [done|]. simpl.
    intros [Hty Hlt]. rewrite (bool_decide_eq_true_2 _ Hty). simpl.
    by destruct (Z.ltb_spec p (price order)); [|lia].
Qed.

(** A write of a sound status to the order [oid], which rests nowhere. *)
Lemma set_status_keeps X oid st o :
  wf st -> tidy_but None st -> rests_nowhere oid st ->
  orders_ st !! oid = Some o ->
  status_sound (set_status X o) ->
  wf (update_order (set_status X) oid st)
  ∧ tidy_but None (update_order (set_status X) oid st)
  ∧ rests_nowhere oid (update_order (set_status X) oid st)
  ∧ orders_ (update_order (set_status X) oid st) !! oid = Some (set_status X o)
  ∧ static <$> orders_ (update_order (set_status X) oid st) = static <$> orders_ st.
Proof.
  intros Hwf Ht Hr Ho Hs.
  destruct (update_order_keeps (set_status X) oid st) as (H1 & H2 & H3);
    [done | done | done | by apply tidy_open | done |].
  assert (Ho' : orders_ (update_order (set_status X) oid st) !! oid = Some (set_status X o))
    by by apply update_order_lookup.
  split; [done|]. split; [by eapply tidy_seal|]. split; [done|]. split; [done|].
  by apply update_order_static.
Qed.

Lemma matchedStatus_static o o' :
  static o' = static o -> filledQuantity o' = filledQuantity o ->
  matchedStatus o' = matchedStatus o.
Proof.
  intros (_ & _ & _ & _ & Hty & _ & _ & Hq)%static_fields Hf.
  unfold matchedStatus. by rewrite Hty, Hq, Hf.
Qed.

Lemma matchedStatus_not_rejected o : matchedStatus o ≠ REJECTED.
Proof.
  unfold matchedStatus.
  destruct (quantity o <=? filledQuantity o); [done|].
  destruct (0 <? filledQuantity o); [done|]. by destruct (type o).
Qed.

Lemma iocStatus_sound o :
  0 <= filledQuantity o <= quantity o -> status_sound (set_status (iocStatus o) o).
Proof.
  intros H. unfold status_sound, iocStatus. simpl.
  destruct (Z.leb_spec (quantity o) (filledQuantity o)); simpl; [lia|].
  destruct (Z.eqb_spec (filledQuantity o) 0); simpl; [done | lia].
Qed.

Lemma not_comes_to_rest_tif o : timeInForce o ≠ GFD -> ¬ comes_to_rest o.
Proof. intros H (? & _). done. Qed.

Lemma handleIOC_spec oid st o :
  wf st -> tidy_but None st -> rests_nowhere oid st ->
  orders_ st !! oid = Some o ->
  status o = matchedStatus o ->
  ∃ st',
    MatchingEngine.handleIOC oid st = Some (true, st')
    ∧ wf st' ∧ tidy_but None st' ∧ rests_nowhere oid st'
    ∧ orders_ st' !! oid = Some (set_status (iocStatus o) o)
    ∧ static <$> orders_ st' = static <$> orders_ st
    ∧ orderBooks_ st' = orderBooks_ st
    ∧ emitted st' = emitted st
    ∧ nextOrderId_ st' = nextOrderId_ st
    ∧ userOrders_ st' = userOrders_ st
    ∧ nextTradeId_ st' = nextTradeId_ st.
Proof.
  intros Hwf Ht Hr Ho Hstatus.
  pose proof (wf_order _ _ _ Hwf Ho) as (Hid & Hq & Hf).
  unfold MatchingEngine.handleIOC. rewrite Ho. simpl.
  destruct (Z.ltb_spec (filledQuantity o) (quantity o)) as [Hopen|Hdone].
  - set (X := iocStatus o).
    assert (HX : X = if filledQuantity o =? 0 then CANCELLED else PARTIALLY_FILLED).
    { unfold X, iocStatus. by destruct (Z.leb_spec (quantity o) (filledQuantity o)); [lia|]. }
    assert (Hs : status_sound (set_status X o)) by by apply iocStatus_sound.
    destruct (side o).
    + set (st1 := with_balances _ st).
      destruct (set_status_keeps X oid st1 o) as (H1 & H2 & H3 & H4 & H5); try done.
      exists (update_order (set_status X) oid st1).
      split. { f_equal. f_equal. rewrite HX. by destruct (filledQuantity o =? 0). }
      done.
    + destruct (set_status_keeps X oid st o) as (H1 & H2 & H3 & H4 & H5); try done.
      exists (update_order (set_status X) oid st).
      split. { f_equal. f_equal. rewrite HX. by destruct (filledQuantity o =? 0). }
      done.
  - exists st. split; [done|]. split; [done|]. split; [done|]. split; [done|].
    split; [|done]. rewrite Ho. f_equal.
    assert (HX : iocStatus o = status o).
    { rewrite Hstatus. unfold iocStatus, matchedStatus.
      by destruct (Z.leb_spec (quantity o) (filledQuantity o)); [|lia]. }
    by rewrite HX, set_status_same.
Qed.

(** [handleFOK], and the cancellation that follows where it fails. *)
Lemma handleFOK_spec sym oid st o bk :
  wf st -> tidy_but None st -> rests_nowhere oid st ->
  orders_ st !! oid = Some o ->
  orderBooks_ st !! sym = Some bk ->
  (filledQuantity o < quantity o -> out_of_reach o bk) ->
  (MatchingEngine.handleFOK sym oid st = Some (true, st)
   ∧ quantity o <= filledQuantity o)
  ∨ ∃ st1,
      MatchingEngine.handleFOK sym oid st = Some (false, st1)
      ∧ let st' := update_order (set_status CANCELLED) oid st1 in
        wf st' ∧ tidy_but None st' ∧ rests_nowhere oid st'
        ∧ orders_ st' !! oid = Some (set_status CANCELLED o)
        ∧ static <$> orders_ st' = static <$> orders_ st
        ∧ orderBooks_ st' = orderBooks_ st
        ∧ emitted st' = emitted st
        ∧ nextOrderId_ st' = nextOrderId_ st
        ∧ userOrders_ st' = userOrders_ st
        ∧ nextTradeId_ st' = nextTradeId_ st.
Proof.
  intros Hwf Ht Hr Ho Hbk Hreach.
  unfold MatchingEngine.handleFOK. rewrite Ho, Hbk. simpl.
  destruct (MatchingEngine.canFillCompletely o bk) eqn:Hcan.
  - left. split; [done|].
    destruct (Z.le_gt_cases (quantity o) (filledQuantity o)) as [?|Hopen]; [done|].
    rewrite (canFill_out_of_reach _ _ (Hreach ltac:(lia))) in Hcan. done.
  - right. destruct (side o).
    + set (st1 := with_balances _ st). exists st1. split; [done|].
      destruct (set_status_keeps CANCELLED oid st1 o) as (H1 & H2 & H3 & H4 & H5); done.
    + exists st. split; [done|].
      destruct (set_status_keeps CANCELLED oid st o) as (H1 & H2 & H3 & H4 & H5); done.
Qed.

Lemma handleIOC_frame oid st r st' :
  MatchingEngine.handleIOC oid st = Some (r, st') ->
  ∀ k, k ≠ oid -> orders_ st' !! k = orders_ st !! k.
Proof.
  unfold MatchingEngine.handleIOC. destruct (orders_ st !! oid) as [o|]; [|done]. simpl.
  destruct (filledQuantity o <? quantity o); [|by intros [= <- <-]].
  intros [= <- <-] k Hk.
  destruct (filledQuantity o =? 0), (side o); by rewrite update_order_lookup_ne.
Qed.

Lemma handleFOK_frame sym oid st r st' :
  MatchingEngine.handleFOK sym oid st = Some (r, st') -> orders_ st' = orders_ st.
Proof.
  unfold MatchingEngine.handleFOK. destruct (orders_ st !! oid) as [o|]; [|done]. simpl.
  destruct (orderBooks_ st !! sym) as [bk|]; [|done]. simpl.
  destruct (MatchingEngine.canFillCompletely o bk); intros [= <- <-]; [done|].
  by destruct (side o).
Qed.

Lemma open_getOrderBook x sym st :
  open_rest x st -> open_rest x (MatchingEngine.getOrderBook sym st).
Proof.
  intros Hopen k o Hk Hko Hty Htif Hact Hleft.
  destruct (getOrderBook_fields sym st) as (_ & Hor & _).
  rewrite Hor in Hk. pose proof (Hopen k o Hk Hko Hty Htif Hact Hleft) as Hr.
  unfold MatchingEngine.getOrderBook.
  destruct (orderBooks_ st !! sym) as [b|] eqn:E; [done|]. simpl.
  destruct (decide (symbol o = sym)) as [Hs|Hs].
  - rewrite Hs, E in Hr. done.
  - by rewrite lookup_insert_ne.
Qed.

(** The record [processed], from what holds before the order may come to
    rest (state [st2]) and of the state [st'] in the end. *)
Lemma processed_intro oid st order0 trades made st2 order2 bk1 st' bk' :
  let sym := symbol order0 in
  let bk0 := default (OrderBook.new sym) (orderBooks_ st !! sym) in
  static <$> orders_ st2 = static <$> orders_ st ->
  nextOrderId_ st2 = nextOrderId_ st ->
  userOrders_ st2 = userOrders_ st ->
  nextTradeId_ st2 = u64 (nextTradeId_ st + Z.of_nat (length made)) ->
  tradeId <$> made = (λ i, u64 (nextTradeId_ st + Z.of_nat i)) <$> seq 0 (length made) ->
  tradesOf st2 = tradesOf st ++ made ->
  Forall (λ t, maker_priced (orders_ st) order0 (restingIds bk0) t
               ∧ within_limits (orders_ st) t) made ->
  Forall (λ t, 0 < tradeQuantity t) made ->
  orders_ st2 !! oid = Some order2 ->
  static order2 = static order0 ->
  filledQuantity order2 = sumQty made ->
  orderBooks_ st2 !! sym = Some bk1 ->
  (∀ x, x ∈ restingIds bk1 -> x ∈ restingIds bk0) ->
  (filledQuantity order2 < quantity order2 -> out_of_reach order2 bk1) ->
  rests_nowhere oid st2 ->
  (open_rest (Some oid) st -> open_rest (Some oid) st2) ->
  wf st' -> tidy_but None st' ->
  orders_ st' = orders_ st2 ->
  tradesOf st' = tradesOf st2 ->
  nextOrderId_ st' = nextOrderId_ st2 ->
  userOrders_ st' = userOrders_ st2 ->
  nextTradeId_ st' = nextTradeId_ st2 ->
  orderBooks_ st' !! sym = Some bk' ->
  (∀ s, s ≠ sym -> orderBooks_ st' !! s = orderBooks_ st2 !! s) ->
  OrderBook.levels (opposite (side order2)) bk'
  = OrderBook.levels (opposite (side order2)) bk1 ->
  (comes_to_rest order2 -> restingIds bk' ≡ₚ oid :: restingIds bk1) ->
  (¬ comes_to_rest order2 -> bk' = bk1) ->
  (trades = made ∨ (timeInForce order0 = FOK ∧ trades = [] ∧ status order2 = CANCELLED)) ->
  match timeInForce order0 with
  | GFD => status order2 = matchedStatus order2
  | IOC => status order2 = iocStatus order2
  | FOK => status order2 = CANCELLED
           ∨ (status order2 = FILLED ∧ quantity order2 <= filledQuantity order2
              ∧ trades = made)
  end ->
  processed oid st order0 trades made st' order2 bk'.
Proof.
  intros sym bk0 Hs2 Hn2 Hu2 Ht2 Hids Htr2 Hpriced Hpos Ho2 Hst2 Hf2 Hbk1 Hsub Hreach Hrest
    Hopen2 Hwf' Htidy' Hor' Htr' Hn' Hu' Ht' Hbk' Hoth Hopp Hyes Hno Hret Hstatus.
  constructor.
  - exact Hwf'.
  - exact Htidy'.
  - by rewrite Hor'.
  - congruence.
  - congruence.
  - congruence.
  - exact Hids.
  - congruence.
  - exact Hret.
  - exact Hpriced.
  - exact Hpos.
  - by rewrite Hor'.
  - exact Hst2.
  - exact Hf2.
  - exact Hstatus.
  - intros H0 k o Hk Hko Hty Htif Hact Hleft. rewrite Hor' in Hk.
    destruct (static_fields _ _ Hst2) as (_ & _ & Hsym2 & _).
    destruct (decide (k = oid)) as [->|Hne].
    + rewrite Ho2 in Hk. injection Hk as <-.
      fold sym in Hbk'. rewrite Hsym2. fold sym. rewrite Hbk'. simpl.
      rewrite Hyes; [by left|].
      split; [done|]. split; [done|]. split; [done|].
      intros Hc. rewrite Hc in Hact. by destruct Hact.
    + assert (Hko' : Some k ≠ Some oid) by congruence.
      pose proof (Hopen2 H0 k o Hk Hko' Hty Htif Hact Hleft) as Hr.
      destruct (decide (symbol o = sym)) as [Hs|Hs].
      * rewrite Hs in Hr. rewrite Hbk1 in Hr. simpl in Hr.
        rewrite Hs. rewrite Hbk'. simpl.
        destruct (decide (comes_to_rest order2)) as [Hc|Hc].
        -- rewrite (Hyes Hc). by right.
        -- by rewrite (Hno Hc).
      * by rewrite Hoth.
  - exact Hbk'.
  - intros Hopen. specialize (Hreach Hopen). unfold out_of_reach in *. by rewrite Hopp.
  - intros Hc. rewrite (Hyes Hc). by left.
  - intros Hc. rewrite (Hno Hc). by apply (Hrest sym bk1).
  - intros s b Hs Hb. rewrite Hoth in Hb by done. by apply (Hrest s b).
  - intros x Hx. destruct (decide (comes_to_rest order2)) as [Hc|Hc].
    + rewrite (Hyes Hc) in Hx. apply elem_of_cons in Hx as [->|Hx]; [by left|].
      right. by apply Hsub.
    + rewrite (Hno Hc) in Hx. right. by apply Hsub.
Qed.

Lemma processOrder_spec oid st order0 :
  wf st -> tidy_but None st -> rests_nowhere oid st ->
  in_u64 (nextTradeId_ st) ->
  orders_ st !! oid = Some order0 ->
  status order0 = PENDING -> filledQuantity order0 = 0 ->
  ∃ trades made st' order bk,
    MatchingEngine.processOrder oid st = Some (trades, st')
    ∧ processed oid st order0 trades made st' order bk.
Proof.
  intros Hwf Htidy Hrest Htid Ho Hpending Hzero.
  set (sym := symbol order0).
  set (bk0 := default (OrderBook.new sym) (orderBooks_ st !! sym)).
  destruct (getOrderBook_keeps sym oid None st Hwf Htidy Hrest) as (Hwf0 & Htidy0 & Hrest0 & Hbk0).
  destruct (getOrderBook_fields sym st) as (_ & Hor0 & Hem0 & Hn0 & Ht0 & Hu0).
  fold bk0 in Hbk0.
  assert (Ho0 : orders_ (MatchingEngine.getOrderBook sym st) !! oid = Some order0)
    by by rewrite Hor0.
  assert (Htid0 : in_u64 (nextTradeId_ (MatchingEngine.getOrderBook sym st)))
    by by rewrite Ht0.
  destruct (matchPhase_spec sym oid _ order0 bk0 Hwf0 Htidy0 Hrest0 Htid0 Ho0 Hbk0
              Hpending Hzero)
    as (made & st1 & order1 & bk1 & Hmatch & Hwf1 & Htidy1 & Hrest1 & Hinv & Ho1 & Hst1
        & Hstatus1 & Hfilled1 & Hbk1 & Hreach1).
  destruct Hinv as ((Hps & (b & Hb & Hsub) & Htr & Hall) & _ & _ & Hpos & _ & Hop1 & Hn1
                    & Hu1 & Hids & Hnext).
  assert (Hopen1 : open_rest (Some oid) st -> open_rest (Some oid) st1).
  { intros H0. by apply Hop1, open_getOrderBook. }
  rewrite Hbk1 in Hb. injection Hb as <-.
  pose proof (wf_order _ _ _ Hwf1 Ho1) as (Hid1 & Hq1 & Hf1).
  pose proof (static_fields _ _ Hst1) as (_ & _ & Hsym1 & Hside1 & Hty1 & Htif1 & _ & _).
  (* what the matching phase has established, in terms of [st] *)
  rewrite Hor0 in Hall, Hps. rewrite Hn0 in Hn1. rewrite Hu0 in Hu1. rewrite Ht0 in Hids, Hnext.
  assert (Htr1 : tradesOf st1 = tradesOf st ++ made).
  { rewrite Htr. f_equal. by apply tradesOf_emitted. }
  unfold MatchingEngine.processOrder. rewrite Ho. simpl. fold sym.
  assert (Hm : match type order0 with
               | LIMIT => MatchingEngine.matchLimitOrder sym oid
                            (MatchingEngine.getOrderBook sym st)
               | MARKET => MatchingEngine.matchMarketOrder sym oid
                             (MatchingEngine.getOrderBook sym st)
               end = Some (made, st1)) by exact Hmatch.
  rewrite Hm. simpl.
  destruct (timeInForce order0) eqn:Etif.
  - (* GFD *)
    destruct (rest_spec sym oid st1 order1 bk1 Hwf1 Htidy1 Hrest1 Ho1 Hsym1 Hbk1)
      as (st2 & bk2 & Hrun & Hwf2 & Htidy2 & Hor2 & _ & Htr2 & Hn2 & Hu2 & Ht2 & Hbk2
          & Hoth2 & Hopp2 & Hyes & Hno).
    { rewrite Hstatus1. apply matchedStatus_not_rejected. }
    { done. }
    rewrite Hrun. simpl.
    exists made, made, st2, order1, bk2. split; [done|].
    eapply (processed_intro oid st order0 made made st1 order1 bk1 st2 bk2);
      try done; try (by left).
    by rewrite Etif.
  - (* IOC *)
    destruct (handleIOC_spec oid st1 order1 Hwf1 Htidy1 Hrest1 Ho1 Hstatus1)
      as (st2 & Hioc & Hwf2 & Htidy2 & Hrest2 & Ho2 & Hs2 & Hb2 & He2 & Hn2 & Hu2 & Ht2).
    rewrite Hioc. simpl.
    set (order2 := set_status (iocStatus order1) order1) in *.
    assert (Hbk2 : orderBooks_ st2 !! sym = Some bk1) by by rewrite Hb2.
    destruct (rest_spec sym oid st2 order2 bk1 Hwf2 Htidy2 Hrest2 Ho2 Hsym1 Hbk2)
      as (st3 & bk3 & Hrun & Hwf3 & Htidy3 & Hor3 & _ & Htr3 & Hn3 & Hu3 & Ht3 & Hbk3
          & Hoth3 & Hopp3 & Hyes & Hno).
    { unfold order2, iocStatus. simpl.
      destruct (quantity order1 <=? filledQuantity order1); [done|].
      by destruct (filledQuantity order1 =? 0). }
    { done. }
    rewrite Hrun. simpl.
    exists made, made, st3, order2, bk3. split; [done|].
    eapply (processed_intro oid st order0 made made st2 order2 bk1 st3 bk3);
      try done; try (by left); try congruence.
    + by rewrite (tradesOf_emitted _ _ He2).
    + intros H0. apply (open_rest_same oid st1 st2); [|done | by apply Hopen1].
      by eapply handleIOC_frame.
    + by rewrite Etif.
  - (* FOK *)
    destruct (handleFOK_spec sym oid st1 order1 bk1 Hwf1 Htidy1 Hrest1 Ho1 Hbk1 Hreach1)
      as [[Hfok Hdone]|(st1' & Hfok & Hfail)].
    + rewrite Hfok. simpl.
      destruct (rest_spec sym oid st1 order1 bk1 Hwf1 Htidy1 Hrest1 Ho1 Hsym1 Hbk1)
        as (st2 & bk2 & Hrun & Hwf2 & Htidy2 & Hor2 & _ & Htr2 & Hn2 & Hu2 & Ht2 & Hbk2
            & Hoth2 & Hopp2 & Hyes & Hno).
      { rewrite Hstatus1. apply matchedStatus_not_rejected. }
      { done. }
      rewrite Hrun. simpl.
      exists made, made, st2, order1, bk2. split; [done|].
      eapply (processed_intro oid st order0 made made st1 order1 bk1 st2 bk2);
        try done; try (by left).
      rewrite Etif. right. split; [|done].
      rewrite Hstatus1. unfold matchedStatus.
      by destruct (Z.leb_spec (quantity order1) (filledQuantity order1)); [|lia].
    + rewrite Hfok. simpl. simpl in Hfail.
      destruct Hfail as (Hwf2 & Htidy2 & Hrest2 & Ho2 & Hs2 & Hb2 & He2 & Hn2 & Hu2 & Ht2).
      change (orders_ (update_order (set_status CANCELLED) oid st1'))
        with (alter (set_status CANCELLED) oid (orders_ st1')) in Ho2.
      rewrite Ho2. simpl.
      set (st2 := update_order (set_status CANCELLED) oid st1') in *.
      set (order2 := set_status CANCELLED order1) in *.
      exists [], made, (MatchingEngine.notifyOrderUpdate order2 st2), order2, bk1.
      split; [done|].
      eapply (processed_intro oid st order0 [] made st2 order2 bk1 _ bk1);
        try done.
      * etrans; [exact Hs2 | exact Hps].
      * etrans; [exact Hn2 | exact Hn1].
      * etrans; [exact Hu2 | exact Hu1].
      * etrans; [exact Ht2 | exact Hnext].
      * etrans; [exact (tradesOf_emitted _ _ He2) | exact Htr1].
      * etrans; [exact (f_equal (λ m, m !! sym) Hb2) | exact Hbk1].
      * intros H0. apply (open_rest_same oid st1 st2); [|exact Hb2 | by apply Hopen1].
        intros k Hk. unfold st2. rewrite update_order_lookup_ne by done.
        by rewrite (handleFOK_frame _ _ _ _ _ Hfok).
      * by apply tradesOf_notifyOrderUpdate.
      * etrans; [exact (f_equal (λ m, m !! sym) Hb2) | exact Hbk1].
      * intros (Hg & _). simpl in Hg. congruence.
      * by right.
      * rewrite Etif. by left.
Qed.

(** ** A new order is registered *)

(** The two ways [createOrder] ends: the order is rejected and the registry
    is as before, or it is stored under the next id.  The counter has moved
    on either way. *)
Lemma createOrder_cases uid sym sd ty tif p q st :
  let order := mkOrder (nextOrderId_ st) uid sym sd ty tif p q 0 PENDING in
  ∃ b,
    let st1 := mkEngine b (orders_ st) (userOrders_ st) (u64 (nextOrderId_ st + 1))
                 (orderBooks_ st) (nextTradeId_ st) (emitted st) in
    (∃ err, err ≠ SUCCESS
            ∧ OrderService.createOrder uid sym sd ty tif p q st
              = ((set_status REJECTED order, err), st1))
    ∨ OrderService.createOrder uid sym sd ty tif p q st
      = ((order, SUCCESS), OrderService.store order st1).
Proof.
  intros order. unfold OrderService.createOrder, OrderService.generateOrderId.
  fold order.
  destruct (decide (OrderService.validateOrder order ≠ SUCCESS)) as [Hv|Hv].
  - exists (balances_ st). left. by exists (OrderService.validateOrder order).
  - destruct sd.
    + destruct (BalanceService.lockFunds uid _ _) as [lockResult b] eqn:Hlock. simpl.
      exists b. destruct (decide (lockResult ≠ SUCCESS)) as [Hl|Hl].
      * left. by exists lockResult.
      * by right.
    + exists (balances_ st). by right.
Qed.

Lemma node_ok_insert store bk sd p x id o :
  store !! id = None -> node_ok store bk sd p x -> node_ok (<[id := o]> store) bk sd p x.
Proof.
  intros Hid [Hin Hx]. split; [done|].
  destruct (decide (x = id)) as [->|Hne]; [by rewrite Hid in Hx|].
  by rewrite lookup_insert_ne.
Qed.

Lemma book_ok_insert store bk id o :
  store !! id = None -> book_ok store bk -> book_ok (<[id := o]> store) bk.
Proof.
  intros Hid ([Hbk Hbn] & [Hak Han] & Hnd & Hidx).
  split; [|split; [|done]]; (split; [done|]).
  - eapply Forall_impl; [exact Hbn|]. intros pl Hpl.
    eapply Forall_impl; [exact Hpl|]. intros x. by apply node_ok_insert.
  - eapply Forall_impl; [exact Han|]. intros pl Hpl.
    eapply Forall_impl; [exact Hpl|]. intros x. by apply node_ok_insert.
Qed.

(** The ids that rest in a book are registered. *)
Lemma resting_registered store bk x :
  book_ok store bk -> x ∈ restingIds bk -> is_Some (store !! x).
Proof.
  intros Hok Hx. apply restingIds_elem in Hx as (sd & Hx).
  destruct (ladder_ok_node _ _ _ _ _ (book_ok_side _ _ sd Hok) Hx)
    as (? & ? & o & _ & _ & _ & Ho & _).
  by exists o.
Qed.

Lemma store_keeps order st :
  inv st ->
  orderId order = nextOrderId_ st ->
  in_u64 (quantity order) -> filledQuantity order = 0 -> status order = PENDING ->
  nextOrderId_ st + 1 < 2 ^ 64 ->
  ∀ b,
    let st' := OrderService.store order
                 (mkEngine b (orders_ st) (userOrders_ st) (u64 (nextOrderId_ st + 1))
                    (orderBooks_ st) (nextTradeId_ st) (emitted st)) in
    inv st' ∧ rests_nowhere (nextOrderId_ st) st'
    ∧ orders_ st' !! nextOrderId_ st = Some order
    ∧ nextOrderId_ st' = nextOrderId_ st + 1.
Proof.
  intros (Hwf & [Hbooks Hsound] & (Hn & Hkeys & Htid)) Hid Hq Hf Hs Hroom b st'.
  assert (Hfresh : orders_ st !! nextOrderId_ st = None).
  { destruct (orders_ st !! nextOrderId_ st) eqn:E; [|done].
    pose proof (Hkeys _ _ E) as Hk. simpl in Hk. lia. }
  assert (Hnext : u64 (nextOrderId_ st + 1) = nextOrderId_ st + 1).
  { apply u64_id. unfold in_u64. lia. }
  assert (Hor : orders_ st' = <[nextOrderId_ st := order]> (orders_ st)).
  { unfold st', OrderService.store. simpl. by rewrite Hid. }
  assert (Hbo : orderBooks_ st' = orderBooks_ st) by done.
  assert (Hno : nextOrderId_ st' = nextOrderId_ st + 1) by done.
  assert (Hto : nextTradeId_ st' = nextTradeId_ st) by done.
  clearbody st'.
  assert (Hrest : rests_nowhere (nextOrderId_ st) st').
  { intros s bk Hbk. rewrite Hbo in Hbk. intros Hx.
    destruct (resting_registered _ _ _ (wf_book _ _ _ Hwf Hbk) Hx) as [o Ho]. congruence. }
  split; [split; [|split]|].
  - apply wf_intro.
    + intros k o Hk. rewrite Hor in Hk.
      destruct (decide (k = nextOrderId_ st)) as [->|Hne].
      * rewrite lookup_insert_eq in Hk. injection Hk as <-.
        split; [done|]. split; [done|]. unfold in_u64 in Hq. lia.
      * rewrite lookup_insert_ne in Hk by done. by eapply wf_order.
    + intros s bk Hbk. rewrite Hbo in Hbk. rewrite Hor.
      apply book_ok_insert; [done|]. by eapply wf_book.
  - split.
    + intros s bk Hbk. rewrite Hbo in Hbk. simpl. rewrite Hor.
      eapply book_tidy_nodes; [|by apply (Hbooks s bk)].
      intros x Hx. apply lookup_insert_ne. intros <-.
      destruct (resting_registered _ _ _ (wf_book _ _ _ Hwf Hbk) Hx) as [o Ho]. congruence.
    + intros k o Hk _. rewrite Hor in Hk.
      destruct (decide (k = nextOrderId_ st)) as [->|Hne].
      * rewrite lookup_insert_eq in Hk. injection Hk as <-.
        unfold status_sound. by rewrite Hs.
      * rewrite lookup_insert_ne in Hk by done. by apply (Hsound k o).
  - split; [|split].
    + rewrite Hno. lia.
    + intros k o Hk. rewrite Hor in Hk. simpl. rewrite Hno.
      destruct (decide (k = nextOrderId_ st)) as [->|Hne]; [lia|].
      rewrite lookup_insert_ne in Hk by done. pose proof (Hkeys _ _ Hk) as H. simpl in H. lia.
    + by rewrite Hto.
  - split; [done|]. split; [|done]. rewrite Hor. apply lookup_insert_eq.
Qed.

(** A rejected order leaves the invariant as it is. *)
Lemma reject_keeps st b :
  inv st -> nextOrderId_ st + 1 < 2 ^ 64 ->
  inv (mkEngine b (orders_ st) (userOrders_ st) (u64 (nextOrderId_ st + 1))
         (orderBooks_ st) (nextTradeId_ st) (emitted st)).
Proof.
  intros (Hwf & Ht & (Hn & Hkeys & Htid)) Hroom.
  split; [done|]. split; [done|].
  assert (Hnext : u64 (nextOrderId_ st + 1) = nextOrderId_ st + 1).
  { apply u64_id. unfold in_u64. lia. }
  split; [|split]; simpl; [lia | | done].
  intros k o Hk. pose proof (Hkeys _ _ Hk) as H. simpl in *. lia.
Qed.

(** ** [submitOrder] and [cancelOrder] keep the invariant *)

Lemma static_dom (s s' : gmap Z Order) k o :
  static <$> s' = static <$> s -> s' !! k = Some o -> is_Some (s !! k).
Proof.
  intros Heq Hk. destruct (lookup_static s' s k o (eq_sym Heq) Hk) as (o' & Ho' & _).
  by exists o'.
Qed.

Lemma submitOrder_keeps uid sym sd ty tif p q st :
  inv st -> in_u64 q -> nextOrderId_ st + 1 < 2 ^ 64 ->
  ∃ r st',
    TradingEngine.submitOrder uid sym sd ty tif p q st = Some (r, st')
    ∧ inv st'
    ∧ nextOrderId_ st' = nextOrderId_ st + 1
    ∧ (open_rest None st -> open_rest None st').
Proof.
  intros Hinv Hq Hroom.
  assert (Hnext : u64 (nextOrderId_ st + 1) = nextOrderId_ st + 1).
  { destruct Hinv as (_ & _ & (Hn & _)). apply u64_id. unfold in_u64. lia. }
  unfold TradingEngine.submitOrder.
  destruct (createOrder_cases uid sym sd ty tif p q st) as (b & [(err & Herr & ->)| ->]).
  - destruct (decide (err ≠ SUCCESS)); [|done].
    eexists _, _. split; [reflexivity|]. split; [by apply reject_keeps|].
    split; [done|]. intros Hopen. exact Hopen.
  - destruct (decide (SUCCESS ≠ SUCCESS)); [done|].
    set (order := mkOrder (nextOrderId_ st) uid sym sd ty tif p q 0 PENDING).
    destruct (store_keeps order st Hinv eq_refl Hq eq_refl eq_refl Hroom b)
      as ((Hwf1 & Ht1 & (Hn1 & Hk1 & Htid1)) & Hrest1 & Ho1 & Hno1).
    set (st1 := OrderService.store order _) in *.
    assert (Hopen1 : open_rest None st -> open_rest (Some (nextOrderId_ st)) st1).
    { intros Hopen k o Hk Hko.
      assert (Hne : k ≠ nextOrderId_ st) by congruence.
      change (orders_ st1) with (<[nextOrderId_ st := order]> (orders_ st)) in Hk.
      rewrite lookup_insert_ne in Hk by done.
      change (orderBooks_ st1) with (orderBooks_ st). by apply (Hopen k o Hk). }
    destruct (processOrder_spec (nextOrderId_ st) st1 order Hwf1 Ht1 Hrest1 Htid1 Ho1
                eq_refl eq_refl)
      as (trades & made & st' & order' & bk & Hrun & Hpr).
    change (orderId order) with (nextOrderId_ st). rewrite Hrun. simpl.
    rewrite (pr_order _ _ _ _ _ _ _ _ Hpr). simpl.
    eexists _, _. split; [reflexivity|].
    split; [|split; [by rewrite (pr_nextOrderId _ _ _ _ _ _ _ _ Hpr)|]].
    2: { intros Hopen. by apply (pr_open _ _ _ _ _ _ _ _ Hpr), Hopen1. }
    split; [exact (pr_wf _ _ _ _ _ _ _ _ Hpr)|].
    split; [exact (pr_tidy _ _ _ _ _ _ _ _ Hpr)|].
    rewrite <- (pr_nextOrderId _ _ _ _ _ _ _ _ Hpr) in Hn1, Hk1.
    split; [done|]. split.
    + intros k o Hk.
      destruct (static_dom _ _ _ _ (pr_static _ _ _ _ _ _ _ _ Hpr) Hk) as [o1 Ho1'].
      by apply (Hk1 k o1).
    + rewrite (pr_nextTradeId _ _ _ _ _ _ _ _ Hpr). apply u64_range.
Qed.

(** [removeOrder] for a registered order, wherever it is. *)
Lemma cancel_book store bk id o :
  book_ok store bk -> store !! id = Some o ->
  ladder_tidy BUY (OrderBook.bidLevels_ bk) ->
  ladder_tidy SELL (OrderBook.askLevels_ bk) ->
  uncrossed bk ->
  ∃ r bk',
    OrderBook.removeOrder store id (side o) bk = Some (r, bk')
    ∧ book_ok store bk'
    ∧ (id ∉ restingIds bk')
    ∧ (∀ x, x ∈ restingIds bk' -> x ∈ restingIds bk)
    ∧ ladder_tidy BUY (OrderBook.bidLevels_ bk')
    ∧ ladder_tidy SELL (OrderBook.askLevels_ bk')
    ∧ uncrossed bk'
    ∧ (id ∈ restingIds bk -> r = true)
    ∧ (id ∉ restingIds bk -> bk' = bk)
    ∧ restingIds bk' = PriceLevel.erase id (restingIds bk).
Proof.
  intros Hok Ho Hb Ha Hu.
  destruct (decide (id ∈ restingIds bk)) as [Hin|Hout].
  - apply restingIds_elem in Hin as (sd & Hin).
    destruct (ladder_ok_node _ _ _ _ _ (book_ok_side _ _ sd Hok) Hin)
      as (? & ? & o' & _ & _ & _ & Ho' & _ & Hside).
    rewrite Ho in Ho'. injection Ho' as <-. subst sd.
    destruct (removeOrder_resting _ _ _ _ Hok Hin)
      as (bk' & Hrm & _ & Hsub & Hnot & Herase & Hok' & _ & _ & Hopp
          & (p & lv & lv' & Hfind & _ & Hlv' & Hthis)).
    exists true, bk'. split; [done|]. split; [done|]. split; [done|]. split; [done|].
    assert (Htidy : ∀ sd, ladder_tidy sd (OrderBook.levels sd bk)) by by intros [].
    assert (Hthis' : ladder_tidy (side o) (OrderBook.levels (side o) bk')).
    { rewrite Hthis. by eapply without_tidy. }
    assert (Hopp' : ladder_tidy (opposite (side o)) (OrderBook.levels (opposite (side o)) bk')).
    { by rewrite Hopp. }
    split; [by destruct (side o)|]. split; [by destruct (side o)|].
    split; [|split; [done|split; [|done]]].
    + apply (uncrossed_sub (side o) bk bk'); [done | apply Htidy | | done].
      rewrite Hthis. apply without_keys.
    + intros Hn. exfalso. apply Hn. apply restingIds_elem. by exists (side o).
  - assert (Hnot : id ∉ OrderBook.orderMap_ bk).
    { intros Hm. apply Hout. destruct Hok as (_ & _ & _ & Hidx).
      rewrite Forall_forall in Hidx. apply Hidx. by apply elem_of_elements. }
    exists false, bk. unfold OrderBook.removeOrder.
    destruct (decide (id ∈ OrderBook.orderMap_ bk)); [done|].
    split; [done|]. split; [done|]. split; [done|]. split; [done|]. split; [done|].
    split; [done|]. split; [done|]. split; [done|]. split; [done|].
    by rewrite erase_absent.
Qed.

Lemma cancelOrder_spec id st :
  inv st ->
  ∃ e st',
    TradingEngine.cancelOrder id st = Some (e, st')
    ∧ inv st'
    ∧ nextOrderId_ st' = nextOrderId_ st
    ∧ (open_rest None st -> open_rest None st')
    ∧ match orders_ st !! id with
      | None => e = ORDER_NOT_FOUND ∧ st' = st
      | Some order =>
          (¬ active (status order) -> e = SYSTEM_ERROR ∧ st' = st)
          ∧ (active (status order) ->
             e = SUCCESS
             ∧ orders_ st' !! id = Some (set_status CANCELLED order)
             ∧ (∀ k, k ≠ id -> orders_ st' !! k = orders_ st !! k)
             ∧ (∀ s b', orderBooks_ st' !! s = Some b' ->
                  restingIds b'
                  = PriceLevel.erase id
                      (restingIds (default (OrderBook.new s) (orderBooks_ st !! s))))
             ∧ emitted st' = emitted st ++ [OrderUpdate (set_status CANCELLED order)])
      end.
Proof.
  intros Hinv. pose proof Hinv as (Hwf & [Hbooks Hsound] & (Hn & Hkeys & Htid)).
  unfold TradingEngine.cancelOrder, OrderService.getOrder.
  destruct (orders_ st !! id) as [order|] eqn:Ho; [|by eexists _, _].
  unfold OrderService.cancelOrder. rewrite Ho.
  destruct (bool_decide (status order ≠ PENDING)
            && bool_decide (status order ≠ PARTIALLY_FILLED)) eqn:Hterm.
  { destruct (decide (SYSTEM_ERROR = SUCCESS)); [done|]. eexists _, _.
    split; [reflexivity|]. split; [done|]. split; [done|]. split; [done|]. split; [done|].
    intros [Hs|Hs]; rewrite Hs in Hterm; done. }
  assert (Hact : active (status order)).
  { unfold active. destruct (status order); try done; eauto. }
  set (st1 := update_order (set_status CANCELLED) id
                (match side order with
                 | BUY => with_balances _ st
                 | SELL => st
                 end)).
  assert (Hor1 : orders_ st1 = alter (set_status CANCELLED) id (orders_ st)).
  { unfold st1. by destruct (side order). }
  assert (Hbo1 : orderBooks_ st1 = orderBooks_ st).
  { unfold st1. by destruct (side order). }
  assert (Hno1 : nextOrderId_ st1 = nextOrderId_ st).
  { unfold st1. by destruct (side order). }
  assert (Hto1 : nextTradeId_ st1 = nextTradeId_ st).
  { unfold st1. by destruct (side order). }
  assert (He1 : emitted st1 = emitted st).
  { unfold st1. by destruct (side order). }
  clearbody st1.
  destruct (decide (SUCCESS = SUCCESS)); [|done].
  set (sym := symbol order).
  destruct (getOrderBook_fields sym st1) as (_ & Hor2 & _ & Hno2 & Hto2 & _).
  pose proof (getOrderBook_other sym) as Hoth2.
  assert (Hbk2 : orderBooks_ (MatchingEngine.getOrderBook sym st1) !! sym
                 = Some (default (OrderBook.new sym) (orderBooks_ st !! sym))).
  { unfold MatchingEngine.getOrderBook. rewrite Hbo1.
    destruct (orderBooks_ st !! sym) eqn:E; simpl; [by rewrite Hbo1|].
    by rewrite lookup_insert_eq. }
  set (st2 := MatchingEngine.getOrderBook sym st1) in *.
  set (bk := default (OrderBook.new sym) (orderBooks_ st !! sym)) in *.
  assert (Hst : static <$> orders_ st2 = static <$> orders_ st).
  { rewrite Hor2, Hor1. by apply fmap_static_alter. }
  assert (Ho2 : orders_ st2 !! id = Some (set_status CANCELLED order)).
  { rewrite Hor2, Hor1. by rewrite lookup_alter_eq, Ho. }
  assert (Hne2 : ∀ k, k ≠ id -> orders_ st2 !! k = orders_ st !! k).
  { intros k Hk. rewrite Hor2, Hor1. by rewrite lookup_alter_ne. }
  assert (Hbok : book_ok (orders_ st) bk ∧ book_tidy sym (orders_ st) bk).
  { unfold bk. destruct (orderBooks_ st !! sym) as [b|] eqn:E; simpl.
    - split; [by eapply wf_book | by apply (Hbooks sym b)].
    - split; [apply book_ok_new | apply book_tidy_new]. }
  destruct Hbok as [Hbok (Htb & Hta & Htu & Htn)].
  destruct (cancel_book (orders_ st2) bk id (set_status CANCELLED order))
    as (r & bk' & Hrm & Hok' & Hnot & Hsub & Hb' & Ha' & Hu' & _ & _ & Herase);
    [by eapply book_ok_store | done | done | done | done |].
  simpl in Hrm. rewrite Hbk2. simpl. rewrite Hrm. simpl. rewrite Ho2. simpl.
  eexists _, _. split; [reflexivity|].
  (* an order that rests in a book is an order on the symbol of that book *)
  assert (Hhome : ∀ s b, orderBooks_ st !! s = Some b -> id ∈ restingIds b -> s = sym).
  { intros s b Hb Hin.
    destruct (tidy_live _ _ _ _ (Hbooks _ _ Hb) Hin) as (o & Ho' & Hl & _).
    rewrite Ho in Ho'. by injection Ho' as <-. }
  split; [|split; [by simpl; rewrite Hno2|split]].
  2: { intros Hopen k o Hk _ Hty Htif Hac Hleft. simpl in Hk. simpl.
       destruct (decide (k = id)) as [->|Hne].
       { rewrite Ho2 in Hk. injection Hk as <-. simpl in Hac. by destruct Hac. }
       rewrite Hne2 in Hk by done.
       assert (Hnn : Some k ≠ None) by done.
       pose proof (Hopen k o Hk Hnn Hty Htif Hac Hleft) as Hr.
       destruct (orderBooks_ st !! symbol o) as [b|] eqn:Eb; [|done]. simpl in Hr.
       destruct (decide (symbol o = sym)) as [Hs|Hs].
       - rewrite Hs, lookup_insert_eq. simpl. rewrite Herase.
         apply erase_elem_of_ne; [|done]. unfold bk. by rewrite <- Hs, Eb.
       - rewrite lookup_insert_ne by done. unfold st2.
         rewrite Hoth2, Hbo1 by done. by rewrite Eb. }
  2: { split; [by intros Hn'|]. intros _. split; [done|]. simpl.
       split; [done|]. split; [done|]. split.
       - intros s b2 Hb2. destruct (decide (s = sym)) as [->|Hne].
         + rewrite lookup_insert_eq in Hb2. by injection Hb2 as <-.
         + rewrite lookup_insert_ne in Hb2 by done. unfold st2 in Hb2.
           rewrite Hoth2, Hbo1 in Hb2 by done. rewrite Hb2. simpl.
           rewrite erase_absent; [done|]. intros Hin. apply Hne. by eapply Hhome.
       - unfold st2, MatchingEngine.getOrderBook.
         destruct (orderBooks_ st1 !! sym); simpl; by rewrite He1. }
  split; [|split].
  - apply wf_intro; simpl.
    + intros k o Hk. destruct (decide (k = id)) as [->|Hne].
      * rewrite Ho2 in Hk. injection Hk as <-.
        apply (order_ok_static id order); [done | | by eapply wf_order]. simpl.
        by destruct (wf_order _ _ _ Hwf Ho) as (_ & _ & ?).
      * rewrite Hne2 in Hk by done. by eapply wf_order.
    + intros s b Hb. destruct (decide (s = sym)) as [->|Hne].
      * rewrite lookup_insert_eq in Hb. by injection Hb as <-.
      * rewrite lookup_insert_ne in Hb by done. unfold st2 in Hb.
        rewrite Hoth2, Hbo1 in Hb by done.
        eapply book_ok_store; [exact Hst|]. by eapply wf_book.
  - split; simpl.
    + intros s b Hb. simpl. destruct (decide (s = sym)) as [->|Hne].
      * rewrite lookup_insert_eq in Hb. injection Hb as <-.
        split; [done|]. split; [done|]. split; [done|].
        apply Forall_forall. intros x Hx.
        rewrite Hne2 by (by intros ->).
        rewrite Forall_forall in Htn. by apply Htn, Hsub.
      * rewrite lookup_insert_ne in Hb by done. unfold st2 in Hb.
        rewrite Hoth2, Hbo1 in Hb by done.
        eapply book_tidy_nodes; [|by apply (Hbooks s b)].
        intros x Hx. apply Hne2. intros ->. apply Hne. by eapply Hhome.
    + intros k o Hk _. destruct (decide (k = id)) as [->|Hne].
      * rewrite Ho2 in Hk. by injection Hk as <-.
      * rewrite Hne2 in Hk by done. by apply (Hsound k o).
  - split; [|split]; simpl.
    + by rewrite Hno2, Hno1.
    + intros k o Hk. rewrite Hno2, Hno1.
      destruct (static_dom _ _ _ _ Hst Hk) as [o' Ho']. by apply (Hkeys k o').
    + by rewrite Hto2, Hto1.
Qed.

(** ** Sequences of calls *)

Lemma places_nonneg ops : 0 <= places ops.
Proof. induction ops as [|[] ops IH]; simpl; lia. Qed.

Lemma inv_initial : inv initial.
Proof. apply (bool_decide_unpack _). vm_compute. exact I. Qed.

Lemma step_keeps op st :
  typed op -> inv st ->
  nextOrderId_ st + places [op] < 2 ^ 64 ->
  ∃ st', step op st = Some st' ∧ inv st'
         ∧ nextOrderId_ st' = nextOrderId_ st + places [op]
         ∧ (open_rest None st -> open_rest None st').
Proof.
  intros Hty Hinv Hroom. destruct op as [uid amount|uid sym sd ty tif p q|id]; simpl in *.
  - eexists. split; [reflexivity|]. split; [exact Hinv|].
    split; [|by intros Hopen].
    unfold TradingEngine.initializeUserBalance. simpl. lia.
  - destruct (submitOrder_keeps uid sym sd ty tif p q st Hinv Hty)
      as (r & st' & -> & H1 & H2 & H3); [lia|].
    exists st'. split; [done|]. split; [done|]. split; [lia | done].
  - destruct (cancelOrder_spec id st Hinv) as (e & st' & -> & H1 & H2 & H3 & _).
    exists st'. split; [done|]. split; [done|]. split; [lia | done].
Qed.

Lemma run_keeps ops st :
  Forall typed ops -> inv st ->
  nextOrderId_ st + places ops < 2 ^ 64 ->
  ∃ st', run ops st = Some st' ∧ inv st'
         ∧ nextOrderId_ st' = nextOrderId_ st + places ops
         ∧ (open_rest None st -> open_rest None st').
Proof.
  revert st. induction ops as [|op ops IH]; intros st Hty Hinv Hroom.
  - exists st. simpl. split; [done|]. split; [done|]. split; [lia | done].
  - apply Forall_cons in Hty as [Hop Hty].
    assert (Hsplit : places (op :: ops) = places [op] + places ops).
    { destruct op; simpl; lia. }
    pose proof (places_nonneg ops).
    destruct (step_keeps op st Hop Hinv) as (st1 & Hstep & Hinv1 & Hn1 & Ho1); [lia|].
    destruct (IH st1 Hty Hinv1) as (st' & Hrun & Hinv' & Hn' & Ho'); [lia|].
    exists st'. split; [by simpl; rewrite Hstep|]. split; [done|]. split; [lia | auto].
Qed.

(** The invariant holds in every state the engine can be in. *)
Lemma reachable_inv ops st :
  Forall typed ops -> places ops < 2 ^ 64 - 1 -> run ops initial = Some st ->
  inv st ∧ nextOrderId_ st = 1 + places ops.
Proof.
  intros Hty Hroom Hrun.
  destruct (run_keeps ops initial Hty inv_initial) as (st' & Hrun' & Hinv & Hn & _).
  { simpl. lia. }
  rewrite Hrun in Hrun'. injection Hrun' as <-. done.
Qed.


(** [processOrder] on an order that has just been accepted. *)
Lemma processOrder_processed oid st order0 trades st' :
  inv st -> rests_nowhere oid st ->
  orders_ st !! oid = Some order0 ->
  status order0 = PENDING -> filledQuantity order0 = 0 ->
  MatchingEngine.processOrder oid st = Some (trades, st') ->
  ∃ made order bk, processed oid st order0 trades made st' order bk.
Proof.
  intros (Hwf & Ht & (_ & _ & Htid)) Hr Ho Hp Hz Hrun.
  destruct (processOrder_spec oid st order0 Hwf Ht Hr Htid Ho Hp Hz)
    as (trades' & made & st'' & order & bk & Hrun' & Hpr).
  rewrite Hrun in Hrun'. injection Hrun' as <- <-. by exists made, order, bk.
Qed.

Lemma out_of_reach_static o o' bk :
  static o' = static o -> out_of_reach o bk -> out_of_reach o' bk.
Proof.
  intros (_ & _ & _ & Hs & Ht & _ & Hp & _)%static_fields.
  unfold out_of_reach. by rewrite Hs, Ht, Hp.
Qed.

(** [processOrder] returns for an order that has just been accepted. *)
Lemma processOrder_total oid st order0 :
  inv st -> rests_nowhere oid st ->
  orders_ st !! oid = Some order0 ->
  status order0 = PENDING -> filledQuantity order0 = 0 ->
  ∃ trades made st' order bk,
    MatchingEngine.processOrder oid st = Some (trades, st')
    ∧ processed oid st order0 trades made st' order bk.
Proof.
  intros (Hwf & Ht & (_ & _ & Htid)) Hr Ho Hp Hz.
  by apply processOrder_spec.
Qed.

(** ** The ledger, account by account *)

Section LedgerAccounts.
Import BalanceService.
Implicit Types (b : gmap Z UserBalance) (uid amount : Z).

Lemma ref_eta uid b :
  mkBalance (balanceUserId (ref uid b)) (availableBalance (ref uid b))
            (lockedBalance (ref uid b)) = ref uid b.
Proof. by destruct (ref uid b). Qed.

Lemma lockFunds_result uid amount b :
  lockFunds uid amount b
  = if availableBalance (ref uid b) <? amount
    then (INSUFFICIENT_BALANCE, ensure uid b)
    else (SUCCESS,
          <[uid := mkBalance (balanceUserId (ref uid b))
                             (i64 (availableBalance (ref uid b) + - amount))
                             (i64 (lockedBalance (ref uid b) + amount))]> (ensure uid b)).
Proof.
  unfold lockFunds, getOrCreateBalance. rewrite ref_ensure.
  destruct (_ <? _); [done|]. f_equal.
  apply map_eq. intros u. destruct (decide (u = uid)) as [->|Hne].
  - by rewrite !lookup_alter_eq, ensure_lookup, lookup_insert_eq.
  - by rewrite !lookup_alter_ne, lookup_insert_ne.
Qed.

Lemma unlockFunds_result uid amount b :
  unlockFunds uid amount b
  = if lockedBalance (ref uid b) <? amount
    then (SYSTEM_ERROR, ensure uid b)
    else (SUCCESS,
          <[uid := mkBalance (balanceUserId (ref uid b))
                             (i64 (availableBalance (ref uid b) + amount))
                             (i64 (lockedBalance (ref uid b) + - amount))]> (ensure uid b)).
Proof.
  unfold unlockFunds, getOrCreateBalance. rewrite ref_ensure.
  destruct (_ <? _); [done|]. f_equal.
  apply map_eq. intros u. destruct (decide (u = uid)) as [->|Hne].
  - by rewrite !lookup_alter_eq, ensure_lookup, lookup_insert_eq.
  - by rewrite !lookup_alter_ne, lookup_insert_ne.
Qed.

Lemma completeTrade_result uid l a b :
  completeTrade uid l a b
  = if lockedBalance (ref uid b) <? l
    then (SYSTEM_ERROR, ensure uid b)
    else (SUCCESS,
          <[uid := mkBalance (balanceUserId (ref uid b))
                             (if 0 <? i64 (l - a)
                              then i64 (availableBalance (ref uid b) + i64 (l - a))
                              else availableBalance (ref uid b))
                             (i64 (lockedBalance (ref uid b) + - l))]> (ensure uid b)).
Proof.
  unfold completeTrade, getOrCreateBalance. rewrite ref_ensure.
  destruct (_ <? l); [done|]. destruct (0 <? _); f_equal.
  - apply map_eq. intros u. destruct (decide (u = uid)) as [->|Hne].
    + by rewrite !lookup_alter_eq, ensure_lookup, lookup_insert_eq.
    + by rewrite !lookup_alter_ne, lookup_insert_ne.
  - apply map_eq. intros u. destruct (decide (u = uid)) as [->|Hne].
    + by rewrite !lookup_alter_eq, ensure_lookup, lookup_insert_eq.
    + by rewrite !lookup_alter_ne, lookup_insert_ne.
Qed.

Lemma ref_insert_eq uid ub b : ref uid (<[uid := ub]> b) = ub.
Proof. unfold ref. by rewrite lookup_insert_eq. Qed.

Lemma ref_insert_ne uid u ub b : u ≠ uid -> ref u (<[uid := ub]> b) = ref u b.
Proof. intros H. unfold ref. by rewrite lookup_insert_ne. Qed.

(** The two accounts of a transfer afterwards, and everybody else's. *)
Lemma transferFunds_result from to amount b :
  let r := transferFunds from to amount b in
  r.1 = (if availableBalance (ref from b) <? amount then INSUFFICIENT_BALANCE else SUCCESS)
  ∧ (∀ u, u ≠ from -> u ≠ to -> r.2 !! u = b !! u)
  ∧ (∀ u, lockedBalance (ref u r.2) = lockedBalance (ref u b))
  ∧ (∀ u, balanceUserId (ref u r.2) = balanceUserId (ref u b))
  ∧ (availableBalance (ref from b) < amount ->
     ∀ u, availableBalance (ref u r.2) = availableBalance (ref u b))
  ∧ (amount <= availableBalance (ref from b) -> from ≠ to ->
     availableBalance (ref from r.2) = i64 (availableBalance (ref from b) + - amount)
     ∧ availableBalance (ref to r.2) = i64 (availableBalance (ref to b) + amount))
  ∧ (amount <= availableBalance (ref from b) -> from = to ->
     availableBalance (ref from r.2)
     = i64 (i64 (availableBalance (ref from b) + - amount) + amount)).
Proof.
  intros r. subst r. unfold transferFunds, getOrCreateBalance. rewrite !ref_ensure.
  destruct (Z.ltb_spec (availableBalance (ref from b)) amount) as [Hlt|Hge]; simpl.
  - split; [done|]. split.
    { intros u H1 H2. by rewrite !ensure_lookup_ne. }
    split. { intros u. by rewrite !ref_ensure. }
    split. { intros u. by rewrite !ref_ensure. }
    split. { intros _ u. by rewrite !ref_ensure. }
    split; intros; lia.
  - assert (Hf : is_Some (ensure to (ensure from b) !! from)).
    { apply ensure_keeps, ensure_is_Some. }
    assert (Ht : is_Some (ensure to (ensure from b) !! to)) by apply ensure_is_Some.
    split; [done|]. split.
    { intros u H1 H2. by rewrite !lookup_alter_ne, !ensure_lookup_ne. }
    assert (Hany : ∀ u (P : UserBalance -> Z),
              (∀ d ub, P (add_available d ub) = P ub) ->
              P (ref u (alter (add_available amount) to
                          (alter (add_available (- amount)) from
                             (ensure to (ensure from b))))) = P (ref u b)).
    { intros u P HP.
      destruct (decide (u = to)) as [->|Hut].
      - rewrite ref_alter_eq by by apply alter_is_Some. rewrite HP.
        destruct (decide (to = from)) as [->|Htf].
        + rewrite ref_alter_eq by done. by rewrite HP, !ref_ensure.
        + rewrite ref_alter_ne by done. by rewrite !ref_ensure.
      - rewrite ref_alter_ne by done.
        destruct (decide (u = from)) as [->|Huf].
        + rewrite ref_alter_eq by done. by rewrite HP, !ref_ensure.
        + rewrite ref_alter_ne by done. by rewrite !ref_ensure. }
    split. { intros u. by apply (Hany u lockedBalance). }
    split. { intros u. by apply (Hany u balanceUserId). }
    split. { intros; lia. }
    split.
    + intros _ Hne. split.
      * rewrite ref_alter_ne by done. rewrite ref_alter_eq by done. by rewrite !ref_ensure.
      * rewrite ref_alter_eq by by apply alter_is_Some.
        rewrite ref_alter_ne by done. by rewrite !ref_ensure.
    + intros _ ->. rewrite ref_alter_eq by by apply alter_is_Some.
      rewrite ref_alter_eq by done. by rewrite !ref_ensure.
Qed.

End LedgerAccounts.

(** A decidable hypothesis on concrete data is settled by evaluation. *)
Ltac by_eval := apply (bool_decide_unpack _); vm_compute; exact I.

(** X1.  Locking an amount and unlocking it again gives the ledger back as it
    was (with the account in the map): both calls succeed when the available
    balance covers the amount and the locked balance is not negative. *)
Theorem lock_then_unlock_restores (b : gmap Z UserBalance) (uid amount : Z) :
  let balance := BalanceService.ref uid b in
  in_i64 (availableBalance balance) ->
  in_i64 (lockedBalance balance) ->
  amount <= availableBalance balance ->
  0 <= lockedBalance balance ->
  in_i64 (availableBalance balance - amount) ->
  in_i64 (lockedBalance balance + amount) ->
  (BalanceService.lockFunds uid amount b).1 = SUCCESS
  ∧ BalanceService.unlockFunds uid amount (BalanceService.lockFunds uid amount b).2
    = (SUCCESS, BalanceService.ensure uid b).
Proof.
  intros balance Ha Hl Hle Hpos Ha' Hl'.
  rewrite lockFunds_result. fold balance.
  destruct (Z.ltb_spec (availableBalance balance) amount); [lia|]. simpl.
  split; [done|].
  rewrite unlockFunds_result, ref_insert_eq. simpl.
  replace (availableBalance balance + - amount) with (availableBalance balance - amount) by lia.
  rewrite (i64_id _ Ha'), (i64_id _ Hl').
  destruct (Z.ltb_spec (lockedBalance balance + amount) amount); [lia|].
  f_equal.
  replace (availableBalance balance - amount + amount) with (availableBalance balance) by lia.
  replace (lockedBalance balance + amount + - amount) with (lockedBalance balance) by lia.
  rewrite (i64_id _ Ha), (i64_id _ Hl).
  unfold balance. rewrite ref_eta.
  erewrite (ensure_present uid (<[uid := _]> _)) by apply lookup_insert_eq.
  rewrite insert_insert_eq. apply insert_id, ensure_lookup.
Qed.

Lemma lock_then_unlock_restores_witness :
  BalanceService.unlockFunds 7 30
    (BalanceService.lockFunds 7 30 {[ 7 := mkBalance 7 100 50 ]}).2
  = (SUCCESS, BalanceService.ensure 7 {[ 7 := mkBalance 7 100 50 ]}).
Proof.
  apply (lock_then_unlock_restores {[ 7 := mkBalance 7 100 50 ]} 7 30); by_eval.
Defined.

(** X2.  [lockFunds] and [unlockFunds] move value between the two balances of
    one user and nowhere else: whether the call succeeds or fails, available +
    locked of the user is what it was, and no other account changes. *)
Theorem lock_unlock_conserve_total (b : gmap Z UserBalance) (uid amount : Z) :
  let balance := BalanceService.ref uid b in
  in_i64 (availableBalance balance - amount) ->
  in_i64 (availableBalance balance + amount) ->
  in_i64 (lockedBalance balance - amount) ->
  in_i64 (lockedBalance balance + amount) ->
  ∀ r, r = BalanceService.lockFunds uid amount b
       ∨ r = BalanceService.unlockFunds uid amount b ->
    availableBalance (BalanceService.ref uid r.2) + lockedBalance (BalanceService.ref uid r.2)
    = availableBalance balance + lockedBalance balance
    ∧ (∀ u, u ≠ uid -> r.2 !! u = b !! u).
Proof.
  intros balance H1 H2 H3 H4 r [->| ->].
  - rewrite lockFunds_result. fold balance. destruct (_ <? _); simpl.
    + rewrite ref_ensure. split; [done|]. intros. by apply ensure_lookup_ne.
    + rewrite ref_insert_eq. simpl.
      replace (availableBalance balance + - amount) with (availableBalance balance - amount) by lia.
      rewrite !i64_id by done. split; [lia|].
      intros u Hu. rewrite lookup_insert_ne by done. by apply ensure_lookup_ne.
  - rewrite unlockFunds_result. fold balance. destruct (_ <? _); simpl.
    + rewrite ref_ensure. split; [done|]. intros. by apply ensure_lookup_ne.
    + rewrite ref_insert_eq. simpl.
      replace (lockedBalance balance + - amount) with (lockedBalance balance - amount) by lia.
      rewrite !i64_id by done. split; [lia|].
      intros u Hu. rewrite lookup_insert_ne by done. by apply ensure_lookup_ne.
Qed.

Lemma lock_unlock_conserve_total_witness :
  availableBalance (BalanceService.ref 7
     (BalanceService.lockFunds 7 30 {[ 7 := mkBalance 7 100 50 ]}).2)
  + lockedBalance (BalanceService.ref 7
     (BalanceService.lockFunds 7 30 {[ 7 := mkBalance 7 100 50 ]}).2)
  = 150.
Proof.
  destruct (lock_unlock_conserve_total {[ 7 := mkBalance 7 100 50 ]} 7 30) with
    (r := BalanceService.lockFunds 7 30 {[ 7 := mkBalance 7 100 50 ]}) as [H _];
    [by_eval | by_eval | by_eval | by_eval | by left |].
  exact H.
Defined.

(** X3.  A successful transfer between two different users conserves the sum
    of their available balances; a transfer to oneself leaves the balance as
    it was; a failed transfer ([INSUFFICIENT_BALANCE], exactly when the
    sender's available balance is below the amount) changes no amount.  No
    transfer touches a locked balance or a third account. *)
Theorem transferFunds_conserves (b : gmap Z UserBalance) (from to amount : Z) :
  let r := BalanceService.transferFunds from to amount b in
  let av u m := availableBalance (BalanceService.ref u m) in
  in_i64 (av from b) ->
  in_i64 (av from b - amount) ->
  in_i64 (av to b + amount) ->
  (r.1 = SUCCESS <-> amount <= av from b)
  ∧ (r.1 = SUCCESS ∨ r.1 = INSUFFICIENT_BALANCE)
  ∧ (from ≠ to -> av from r.2 + av to r.2 = av from b + av to b)
  ∧ (from ≠ to -> r.1 = SUCCESS ->
     av from r.2 = av from b - amount ∧ av to r.2 = av to b + amount)
  ∧ (from = to -> av from r.2 = av from b)
  ∧ (r.1 = INSUFFICIENT_BALANCE -> ∀ u, av u r.2 = av u b)
  ∧ (∀ u, lockedBalance (BalanceService.ref u r.2) = lockedBalance (BalanceService.ref u b))
  ∧ (∀ u, u ≠ from -> u ≠ to -> r.2 !! u = b !! u).
Proof.
  intros r av H1 H2 H3.
  destruct (transferFunds_result from to amount b) as (Hr & Hoth & Hlock & _ & Hfail & Hok & Hself).
  fold r in Hr, Hoth, Hlock, Hfail, Hok, Hself. unfold av in *.
  destruct (Z.ltb_spec (availableBalance (BalanceService.ref from b)) amount) as [Hlt|Hge].
  - rewrite Hr. split. { split; [done | lia]. }
    split; [by right|].
    split. { intros _. by rewrite !Hfail. }
    split. { done. }
    split. { intros _. by rewrite Hfail. }
    split. { intros _ u. by apply Hfail. }
    done.
  - rewrite Hr. split. { split; [done | done]. }
    split; [by left|].
    assert (Hm : availableBalance (BalanceService.ref from b) + - amount
                 = availableBalance (BalanceService.ref from b) - amount) by lia.
    split.
    { intros Hne. destruct (Hok Hge Hne) as [-> ->]. rewrite Hm, !i64_id by done. lia. }
    split.
    { intros Hne _. destruct (Hok Hge Hne) as [-> ->]. by rewrite Hm, !i64_id. }
    split.
    { intros Heq. rewrite (Hself Hge Heq), Hm, (i64_id _ H2).
      replace (availableBalance (BalanceService.ref from b) - amount + amount)
        with (availableBalance (BalanceService.ref from b)) by lia.
      by apply i64_id. }
    split; [done|]. done.
Qed.

Lemma transferFunds_conserves_witness :
  let b : gmap Z UserBalance := {[ 1 := mkBalance 1 500 0 ]} in
  availableBalance (BalanceService.ref 1 (BalanceService.transferFunds 1 2 200 b).2)
  + availableBalance (BalanceService.ref 2 (BalanceService.transferFunds 1 2 200 b).2)
  = 500.
Proof.
  intros b.
  destruct (transferFunds_conserves b 1 2 200) as (_ & _ & H & _);
    [by_eval | by_eval | by_eval |].
  rewrite H by discriminate. reflexivity.
Defined.

(** X4.  [completeTrade] when the actual cost does not exceed the locked
    amount: the locked amount leaves the locked balance and the difference
    goes back to the available balance, so that the user's total drops by the
    actual cost.  When the locked balance does not cover the locked amount
    the call answers [SYSTEM_ERROR] and changes no amount. *)
Theorem completeTrade_refunds_difference
    (b : gmap Z UserBalance) (uid lockedAmount actualAmount : Z) :
  let balance := BalanceService.ref uid b in
  let r := BalanceService.completeTrade uid lockedAmount actualAmount b in
  (lockedBalance balance < lockedAmount ->
   r = (SYSTEM_ERROR, BalanceService.ensure uid b))
  ∧ (lockedAmount <= lockedBalance balance ->
     actualAmount <= lockedAmount ->
     in_i64 (lockedAmount - actualAmount) ->
     in_i64 (lockedBalance balance - lockedAmount) ->
     in_i64 (availableBalance balance + (lockedAmount - actualAmount)) ->
     in_i64 (availableBalance balance) ->
     r.1 = SUCCESS
     ∧ r.2 !! uid
       = Some (mkBalance (balanceUserId balance)
                 (availableBalance balance + (lockedAmount - actualAmount))
                 (lockedBalance balance - lockedAmount))
     ∧ (∀ u, u ≠ uid -> r.2 !! u = b !! u)).
Proof.
  intros balance r. subst r. rewrite completeTrade_result. fold balance. split.
  - intros H. by destruct (Z.ltb_spec (lockedBalance balance) lockedAmount); [|lia].
  - intros Hle Hact Hr Hl Ha Hav.
    destruct (Z.ltb_spec (lockedBalance balance) lockedAmount); [lia|]. simpl.
    split; [done|]. split.
    + rewrite lookup_insert_eq. f_equal.
      replace (lockedBalance balance + - lockedAmount)
        with (lockedBalance balance - lockedAmount) by lia.
      rewrite (i64_id _ Hr), (i64_id _ Hl).
      destruct (Z.ltb_spec 0 (lockedAmount - actualAmount)).
      * by rewrite (i64_id _ Ha).
      * f_equal. lia.
    + intros u Hu. rewrite lookup_insert_ne by done. by apply ensure_lookup_ne.
Qed.

Lemma completeTrade_refunds_difference_witness :
  (BalanceService.completeTrade 7 30 25 {[ 7 := mkBalance 7 100 50 ]}).2 !! 7
  = Some (mkBalance 7 105 20).
Proof.
  destruct (completeTrade_refunds_difference {[ 7 := mkBalance 7 100 50 ]} 7 30 25)
    as [_ H].
  destruct H as (_ & H & _); [by_eval | by_eval | by_eval | by_eval | by_eval | by_eval |].
  rewrite H. reflexivity.
Defined.

(** X5.  [lockFunds] succeeds exactly when [hasSufficientBalance] answers
    true for the same user and amount; otherwise it answers
    [INSUFFICIENT_BALANCE] and changes no amount. *)
Theorem lockFunds_iff_sufficient (b : gmap Z UserBalance) (uid amount : Z) :
  ((BalanceService.lockFunds uid amount b).1 = SUCCESS
   <-> (BalanceService.hasSufficientBalance uid amount b).1 = true)
  ∧ ((BalanceService.hasSufficientBalance uid amount b).1 = false ->
     BalanceService.lockFunds uid amount b
     = (INSUFFICIENT_BALANCE, BalanceService.ensure uid b))
  ∧ (BalanceService.hasSufficientBalance uid amount b).2 = BalanceService.ensure uid b.
Proof.
  rewrite lockFunds_result.
  unfold BalanceService.hasSufficientBalance, BalanceService.getOrCreateBalance.
  rewrite ref_ensure. simpl.
  destruct (Z.ltb_spec (availableBalance (BalanceService.ref uid b)) amount);
    destruct (Z.leb_spec amount (availableBalance (BalanceService.ref uid b)));
    try lia; simpl; repeat split; try done.
Qed.

(** X6.  Amounts that are not negative keep a ledger of non-negative
    balances that way, as long as the balance that grows stays within
    [int64_t]: [lockFunds], [unlockFunds], [transferFunds] and
    [completeTrade] (whatever the actual cost) never make a balance
    negative. *)
Theorem ledger_stays_non_negative (b : gmap Z UserBalance) (uid amount : Z) :
  ledger_ok b ->
  0 <= amount ->
  (lockedBalance (BalanceService.ref uid b) + amount < 2 ^ 63 ->
   ledger_ok (BalanceService.lockFunds uid amount b).2)
  ∧ (availableBalance (BalanceService.ref uid b) + amount < 2 ^ 63 ->
     ledger_ok (BalanceService.unlockFunds uid amount b).2)
  ∧ (∀ to, availableBalance (BalanceService.ref to b) + amount < 2 ^ 63 ->
       ledger_ok (BalanceService.transferFunds uid to amount b).2)
  ∧ (∀ actualAmount,
       availableBalance (BalanceService.ref uid b) + i64 (amount - actualAmount) < 2 ^ 63 ->
       ledger_ok (BalanceService.completeTrade uid amount actualAmount b).2).
Proof.
  intros Hok Hpos.
  assert (Href : ∀ u, account_ok (BalanceService.ref u b)).
  { intros u. unfold BalanceService.ref. destruct (b !! u) as [ub|] eqn:E; simpl.
    - by apply (Hok u ub).
    - unfold account_ok. simpl. lia. }
  assert (Hens : ∀ u, ledger_ok (BalanceService.ensure u b)).
  { intros u k ub Hk. destruct (decide (k = u)) as [->|Hne].
    - rewrite ensure_lookup in Hk. injection Hk as <-. apply Href.
    - rewrite ensure_lookup_ne in Hk by done. by apply (Hok k ub). }
  assert (Hins : ∀ u ub m, ledger_ok m -> account_ok ub -> ledger_ok (<[u := ub]> m)).
  { intros u ub m Hm Hub. by apply map_Forall_insert_2. }
  pose proof (Href uid) as [[Ha1 Ha2] [Hl1 Hl2]].
  split; [|split; [|split]].
  - intros Hup. rewrite lockFunds_result.
    destruct (Z.ltb_spec (availableBalance (BalanceService.ref uid b)) amount); simpl; [done|].
    apply Hins; [done|]. unfold account_ok. simpl.
    rewrite !i64_id by (unfold in_i64; lia). lia.
  - intros Hup. rewrite unlockFunds_result.
    destruct (Z.ltb_spec (lockedBalance (BalanceService.ref uid b)) amount); simpl; [done|].
    apply Hins; [done|]. unfold account_ok. simpl.
    rewrite !i64_id by (unfold in_i64; lia). lia.
  - intros to Hup.
    destruct (transferFunds_result uid to amount b) as (Hr & Hoth & Hlock & _ & Hfail & Hsucc & Hself).
    pose proof (Href to) as [[Ht1 Ht2] [Htl1 Htl2]].
    intros k ub Hk.
    assert (Hub : ub = BalanceService.ref k (BalanceService.transferFunds uid to amount b).2).
    { unfold BalanceService.ref. by rewrite Hk. }
    unfold account_ok. rewrite Hub, Hlock.
    split; [|apply Href].
    destruct (Z.ltb_spec (availableBalance (BalanceService.ref uid b)) amount) as [Hlt|Hge].
    + rewrite (Hfail Hlt). apply Href.
    + destruct (decide (uid = to)) as [<-|Hne].
      * destruct (decide (k = uid)) as [->|Hk'].
        -- rewrite (Hself Hge eq_refl). rewrite !i64_id; unfold in_i64;
             rewrite ?i64_id; unfold in_i64; lia.
        -- assert (Hsame : BalanceService.ref k (BalanceService.transferFunds uid uid amount b).2
                           = BalanceService.ref k b).
           { unfold BalanceService.ref. by rewrite Hoth. }
           rewrite Hsame. apply Href.
      * destruct (Hsucc Hge Hne) as [Hf Ht].
        destruct (decide (k = uid)) as [->|Hk1].
        -- rewrite Hf, i64_id; unfold in_i64; lia.
        -- destruct (decide (k = to)) as [->|Hk2].
           ++ rewrite Ht, i64_id; unfold in_i64; lia.
           ++ assert (Hsame : BalanceService.ref k (BalanceService.transferFunds uid to amount b).2
                              = BalanceService.ref k b).
              { unfold BalanceService.ref. by rewrite Hoth. }
              rewrite Hsame. apply Href.
  - intros actualAmount Hup. rewrite completeTrade_result.
    destruct (Z.ltb_spec (lockedBalance (BalanceService.ref uid b)) amount); simpl; [done|].
    apply Hins; [done|]. unfold account_ok. simpl.
    rewrite (i64_id (lockedBalance _ + - amount)) by (unfold in_i64; lia).
    split; [|lia].
    destruct (Z.ltb_spec 0 (i64 (amount - actualAmount))); [|lia].
    rewrite i64_id; unfold in_i64; lia.
Qed.

Lemma ledger_stays_non_negative_witness :
  ledger_ok (BalanceService.lockFunds 7 30 {[ 7 := mkBalance 7 100 50 ]}).2.
Proof.
  destruct (ledger_stays_non_negative {[ 7 := mkBalance 7 100 50 ]} 7 30) as [H _];
    [by_eval | by_eval |].
  apply H. by_eval.
Defined.

(** ** Creating orders *)

Lemma validateOrder_cases (o : Order) :
  OrderService.validateOrder o
  = if decide (symbol o = EmptyString) then INVALID_SYMBOL
    else if decide (quantity o = 0) then INVALID_QUANTITY
    else if decide (type o = LIMIT ∧ price o = 0) then INVALID_PRICE
    else SUCCESS.
Proof.
  unfold OrderService.validateOrder.
  destruct (decide (symbol o = EmptyString)); [done|].
  destruct (Z.eqb_spec (quantity o) 0); destruct (decide (quantity o = 0)); try done.
  destruct (type o); simpl.
  - destruct (Z.eqb_spec (price o) 0);
      destruct (decide (LIMIT = LIMIT ∧ price o = 0)) as [[? ?]|Hn]; try done.
    exfalso. by apply Hn.
  - by destruct (decide (MARKET = LIMIT ∧ price o = 0)) as [[? ?]|Hn].
Qed.

(** X7.  A submission that fails validation never reaches the matching
    engine: [submitOrder] hands back the order with status REJECTED and the
    code of the first failed check (symbol, then quantity, then limit price),
    and the state is the one before but for the order id it has used up. *)
Theorem invalid_submission_changes_nothing
    (uid : Z) (sym : string) (sd : Side) (ty : OrderType) (tif : TimeInForce)
    (p q : Z) (st : Engine) :
  sym = EmptyString ∨ q = 0 ∨ (ty = LIMIT ∧ p = 0) ->
  ∃ code,
    code = (if decide (sym = EmptyString) then INVALID_SYMBOL
            else if decide (q = 0) then INVALID_QUANTITY else INVALID_PRICE)
    ∧ TradingEngine.submitOrder uid sym sd ty tif p q st
      = Some ((mkOrder (nextOrderId_ st) uid sym sd ty tif p q 0 REJECTED, code),
              mkEngine (balances_ st) (orders_ st) (userOrders_ st)
                       (u64 (nextOrderId_ st + 1)) (orderBooks_ st)
                       (nextTradeId_ st) (emitted st)).
Proof.
  intros Hbad. eexists. split; [reflexivity|].
  unfold TradingEngine.submitOrder, OrderService.createOrder, OrderService.generateOrderId.
  rewrite validateOrder_cases. simpl.
  destruct (decide (sym = EmptyString)) as [->|Hs].
  { by rewrite !decide_True by done. }
  destruct (decide (q = 0)) as [->|Hq].
  { by rewrite !decide_True by done. }
  destruct (decide (ty = LIMIT ∧ p = 0)) as [_|Hn].
  { by rewrite !decide_True by done. }
  exfalso. destruct Hbad as [?|[?|?]]; done.
Qed.

Lemma invalid_submission_changes_nothing_witness :
  ∃ st, simple_cross = Some st
        ∧ TradingEngine.submitOrder 1 "X" BUY LIMIT GFD 0 5 st
          = Some ((mkOrder 3 1 "X" BUY LIMIT GFD 0 5 0 REJECTED, INVALID_PRICE),
                  mkEngine (balances_ st) (orders_ st) (userOrders_ st) 4
                           (orderBooks_ st) (nextTradeId_ st) (emitted st)).
Proof.
  eexists. split; [vm_compute; reflexivity|].
  match goal with
  | |- TradingEngine.submitOrder _ _ _ _ _ _ _ ?st = _ =>
      destruct (invalid_submission_changes_nothing 1 "X" BUY LIMIT GFD 0 5 st)
        as (code & -> & H)
  end.
  - right. right. done.
  - exact H.
Defined.

(** X8.  A valid BUY the available balance does not cover: the submission is
    answered [INSUFFICIENT_BALANCE] with the order REJECTED; nothing is
    stored, no book and no amount changes (the account is created if it was
    not there), and the order id is used up. *)
Theorem unfunded_buy_is_rejected
    (uid : Z) (sym : string) (ty : OrderType) (tif : TimeInForce) (p q : Z) (st : Engine) :
  sym ≠ EmptyString -> q ≠ 0 -> (ty = LIMIT -> p ≠ 0) ->
  availableBalance (BalanceService.ref uid (balances_ st)) < i64 (p * q) ->
  TradingEngine.submitOrder uid sym BUY ty tif p q st
  = Some ((mkOrder (nextOrderId_ st) uid sym BUY ty tif p q 0 REJECTED, INSUFFICIENT_BALANCE),
          mkEngine (BalanceService.ensure uid (balances_ st)) (orders_ st) (userOrders_ st)
                   (u64 (nextOrderId_ st + 1)) (orderBooks_ st)
                   (nextTradeId_ st) (emitted st)).
Proof.
  intros Hs Hq Hp Hlow.
  unfold TradingEngine.submitOrder, OrderService.createOrder, OrderService.generateOrderId.
  rewrite validateOrder_cases. simpl.
  destruct (decide (sym = EmptyString)); [done|].
  destruct (decide (q = 0)); [done|].
  destruct (decide (ty = LIMIT ∧ p = 0)) as [[? ?]|_]; [by exfalso; apply Hp|].
  rewrite decide_False by (intros H; by apply H).
  unfold BalanceService.calculateRequiredFunds. simpl.
  rewrite lockFunds_result.
  destruct (Z.ltb_spec (availableBalance (BalanceService.ref uid (balances_ st))) (i64 (p * q)));
    [|lia].
  by rewrite !decide_True by done.
Qed.

Lemma unfunded_buy_is_rejected_witness :
  TradingEngine.submitOrder 1 "X" BUY LIMIT GFD 10000 101 seeded
  = Some ((mkOrder 1 1 "X" BUY LIMIT GFD 10000 101 0 REJECTED, INSUFFICIENT_BALANCE),
          mkEngine (BalanceService.ensure 1 (balances_ seeded)) (orders_ seeded)
                   (userOrders_ seeded) 2 (orderBooks_ seeded)
                   (nextTradeId_ seeded) (emitted seeded)).
Proof.
  apply (unfunded_buy_is_rejected 1 "X" LIMIT GFD 10000 101 seeded); by_eval.
Defined.

Lemma createOrder_accepts
    (uid : Z) (sym : string) (sd : Side) (ty : OrderType) (tif : TimeInForce)
    (p q : Z) (st : Engine) :
  sym ≠ EmptyString -> q ≠ 0 -> (ty = LIMIT -> p ≠ 0) ->
  (sd = BUY -> i64 (p * q) <= availableBalance (BalanceService.ref uid (balances_ st))) ->
  let order := mkOrder (nextOrderId_ st) uid sym sd ty tif p q 0 PENDING in
  OrderService.createOrder uid sym sd ty tif p q st
  = ((order, SUCCESS),
     OrderService.store order
       (mkEngine (match sd with
                  | BUY => (BalanceService.lockFunds uid (i64 (p * q)) (balances_ st)).2
                  | SELL => balances_ st
                  end)
                 (orders_ st) (userOrders_ st) (u64 (nextOrderId_ st + 1))
                 (orderBooks_ st) (nextTradeId_ st) (emitted st)))
  ∧ (sd = BUY -> (BalanceService.lockFunds uid (i64 (p * q)) (balances_ st)).1 = SUCCESS).
Proof.
  intros Hs Hq Hp Hfunds order.
  unfold OrderService.createOrder, OrderService.generateOrderId.
  rewrite validateOrder_cases. simpl.
  rewrite (decide_False (P := sym = EmptyString)) by done.
  rewrite (decide_False (P := q = 0)) by done.
  rewrite (decide_False (P := ty = LIMIT ∧ p = 0)) by (intros [? ?]; by apply Hp).
  destruct (decide (SUCCESS ≠ SUCCESS)) as [Hne|_]; [done|].
  destruct sd; [|done].
  unfold BalanceService.calculateRequiredFunds. simpl.
  rewrite lockFunds_result.
  destruct (Z.ltb_spec (availableBalance (BalanceService.ref uid (balances_ st))) (i64 (p * q)))
    as [Hlt|Hge]; [specialize (Hfunds eq_refl); lia|].
  simpl. by destruct (decide (SUCCESS ≠ SUCCESS)) as [Hne|_].
Qed.

(** X9.  A valid order (for a BUY: one the available balance covers) is
    accepted: it gets the next order id, status PENDING and nothing filled,
    the registry returns it under that id and still returns every other order
    as before, it is the last of its user's orders, and no book and no event
    is touched.  A BUY has price times quantity moved from the available to
    the locked balance; a SELL changes no balance. *)
Theorem accepted_order_is_registered
    (uid : Z) (sym : string) (sd : Side) (ty : OrderType) (tif : TimeInForce)
    (p q : Z) (st : Engine) :
  sym ≠ EmptyString -> q ≠ 0 -> (ty = LIMIT -> p ≠ 0) ->
  (sd = BUY -> i64 (p * q) <= availableBalance (BalanceService.ref uid (balances_ st))) ->
  nextOrderId_ st ∉ default [] (userOrders_ st !! uid) ->
  let order := mkOrder (nextOrderId_ st) uid sym sd ty tif p q 0 PENDING in
  let r := OrderService.createOrder uid sym sd ty tif p q st in
  r.1 = (order, SUCCESS)
  ∧ OrderService.getOrder (nextOrderId_ st) r.2 = Some order
  ∧ (∀ k, k ≠ nextOrderId_ st -> OrderService.getOrder k r.2 = OrderService.getOrder k st)
  ∧ OrderService.getUserOrders uid r.2 = OrderService.getUserOrders uid st ++ [order]
  ∧ orderBooks_ r.2 = orderBooks_ st
  ∧ emitted r.2 = emitted st
  ∧ nextOrderId_ r.2 = u64 (nextOrderId_ st + 1)
  ∧ (sd = SELL -> balances_ r.2 = balances_ st)
  ∧ (sd = BUY ->
     in_i64 (p * q) ->
     in_i64 (availableBalance (BalanceService.ref uid (balances_ st)) - p * q) ->
     in_i64 (lockedBalance (BalanceService.ref uid (balances_ st)) + p * q) ->
     availableOf uid r.2 = availableOf uid st - p * q
     ∧ lockedOf uid r.2 = lockedOf uid st + p * q
     ∧ (∀ u, u ≠ uid -> balances_ r.2 !! u = balances_ st !! u)).
Proof.
  intros Hs Hq Hp Hfunds Hfresh order r.
  destruct (createOrder_accepts uid sym sd ty tif p q st Hs Hq Hp Hfunds) as [Hr Hlock].
  subst r. rewrite Hr. fold order. simpl.
  split; [done|]. split.
  { unfold OrderService.getOrder. simpl. by rewrite lookup_insert_eq. }
  split.
  { intros k Hk. unfold OrderService.getOrder. simpl. by rewrite lookup_insert_ne. }
  split.
  { unfold OrderService.getUserOrders. simpl. rewrite lookup_insert_eq. simpl.
    rewrite omap_app. simpl. rewrite lookup_insert_eq. simpl. f_equal.
    apply list_omap_ext. apply Forall2_same_length_lookup. split; [done|].
    intros i x y Hx Hy. rewrite Hx in Hy. injection Hy as <-.
    rewrite lookup_insert_ne; [done|]. intros <-. apply Hfresh.
    by eapply list_elem_of_lookup_2. }
  split; [done|]. split; [done|]. split; [done|].
  split. { by intros ->. }
  intros -> Hr1 Ha Hl. unfold availableOf, lockedOf. simpl.
  rewrite lockFunds_result.
  destruct (Z.ltb_spec (availableBalance (BalanceService.ref uid (balances_ st))) (i64 (p * q)))
    as [Hlt|Hge]; [specialize (Hfunds eq_refl); lia|].
  simpl. rewrite ref_insert_eq. simpl. rewrite (i64_id _ Hr1).
  replace (availableBalance (BalanceService.ref uid (balances_ st)) + - (p * q))
    with (availableBalance (BalanceService.ref uid (balances_ st)) - p * q) by lia.
  rewrite !i64_id by done. split; [done|]. split; [done|].
  intros u Hu. rewrite lookup_insert_ne by done. by apply ensure_lookup_ne.
Qed.

Lemma accepted_order_is_registered_witness :
  (OrderService.createOrder 1 "X" BUY LIMIT GFD 10000 5 seeded).1
  = (mkOrder 1 1 "X" BUY LIMIT GFD 10000 5 0 PENDING, SUCCESS)
  ∧ OrderService.getOrder 1 (OrderService.createOrder 1 "X" BUY LIMIT GFD 10000 5 seeded).2
    = Some (mkOrder 1 1 "X" BUY LIMIT GFD 10000 5 0 PENDING).
Proof.
  destruct (accepted_order_is_registered 1 "X" BUY LIMIT GFD 10000 5 seeded)
    as (H1 & H2 & _); [by_eval | by_eval | by_eval | by_eval | by_eval |].
  split; [exact H1 | exact H2].
Defined.

(** X10.  Validation only refuses a limit price of zero.  A BUY LIMIT order
    with a negative price is accepted whenever the available balance is not
    negative, and its acceptance "locks" the negative product: the available
    balance grows by |price| times quantity and the locked balance drops by
    as much. *)
Theorem negative_price_buy_credits_buyer
    (uid : Z) (sym : string) (tif : TimeInForce) (p q : Z) (st : Engine) :
  sym ≠ EmptyString -> p < 0 -> 0 < q ->
  0 <= availableOf uid st ->
  in_i64 (p * q) ->
  in_i64 (availableOf uid st - p * q) ->
  in_i64 (lockedOf uid st + p * q) ->
  let r := OrderService.createOrder uid sym BUY LIMIT tif p q st in
  r.1 = (mkOrder (nextOrderId_ st) uid sym BUY LIMIT tif p q 0 PENDING, SUCCESS)
  ∧ availableOf uid r.2 = availableOf uid st - p * q
  ∧ availableOf uid st < availableOf uid r.2
  ∧ lockedOf uid r.2 = lockedOf uid st + p * q
  ∧ lockedOf uid r.2 < lockedOf uid st.
Proof.
  intros Hs Hp Hq Hav Hr Ha Hl r. unfold availableOf, lockedOf in *.
  assert (Hfunds : i64 (p * q) <= availableBalance (BalanceService.ref uid (balances_ st))).
  { rewrite (i64_id _ Hr). nia. }
  destruct (createOrder_accepts uid sym BUY LIMIT tif p q st) as [Hc _];
    [done | lia | lia | done |].
  subst r. rewrite Hc. simpl. split; [done|].
  rewrite lockFunds_result.
  destruct (Z.ltb_spec (availableBalance (BalanceService.ref uid (balances_ st))) (i64 (p * q)));
    [lia|].
  simpl. rewrite ref_insert_eq. simpl. rewrite (i64_id _ Hr).
  replace (availableBalance (BalanceService.ref uid (balances_ st)) + - (p * q))
    with (availableBalance (BalanceService.ref uid (balances_ st)) - p * q) by lia.
  rewrite !i64_id by done. nia.
Qed.

Lemma negative_price_buy_credits_buyer_witness :
  availableOf 1 (OrderService.createOrder 1 "X" BUY LIMIT GFD (-5) 3 seeded).2 = 1000015
  ∧ lockedOf 1 (OrderService.createOrder 1 "X" BUY LIMIT GFD (-5) 3 seeded).2 = -15.
Proof.
  destruct (negative_price_buy_credits_buyer 1 "X" GFD (-5) 3 seeded)
    as (_ & H1 & _ & H2 & _);
    [by_eval | by_eval | by_eval | by_eval | by_eval | by_eval | by_eval |].
  rewrite H1, H2. split; reflexivity.
Defined.

(** * The engine over any sequence of calls *)

(** X11.  Every sequence of calls on a fresh engine runs to its end: each
    match loop stops within the rounds it is given, and no order or book
    that is looked up is missing.  Order ids are handed out in sequence, one
    per placement, accepted or not.  (Quantities are [uint64_t] values and
    the id counter does not wrap.) *)
Theorem calls_always_return (ops : list Op) :
  Forall typed ops -> places ops < 2 ^ 64 - 1 ->
  ∃ st, run ops initial = Some st ∧ nextOrderId_ st = 1 + places ops.
Proof.
  intros Hty Hroom.
  destruct (run_keeps ops initial Hty inv_initial) as (st & Hrun & _ & Hn & _).
  { simpl. lia. }
  by exists st.
Qed.

Lemma calls_always_return_witness :
  ∃ st, run session initial = Some st ∧ nextOrderId_ st = 1 + places session.
Proof. apply (calls_always_return session); by_eval. Defined.







(** X15.  Price priority: the levels of a ladder stand in strict price
    order, bids falling and asks rising, so that the first level is the
    best; no level is empty; an order stands in the level of its price on
    the ladder of its side; and no order stands in a book twice. *)
Theorem ladders_in_price_order (ops : list Op) (st : Engine) (sym : string)
    (bk : OrderBook.t) (sd : Side) :
  Forall typed ops -> places ops < 2 ^ 64 - 1 -> run ops initial = Some st ->
  orderBooks_ st !! sym = Some bk ->
  StronglySorted (λ p q, match sd with BUY => q < p | SELL => p < q end)
    ((OrderBook.levels sd bk).*1)
  ∧ NoDup (restingIds bk)
  ∧ ∀ p lv, (p, lv) ∈ OrderBook.levels sd bk ->
      PriceLevel.orders_ lv ≠ []
      ∧ ∀ id, id ∈ PriceLevel.orders_ lv ->
          ∃ o, OrderService.getOrder id st = Some o ∧ price o = p ∧ side o = sd.
Proof.
  intros Hty Hroom Hrun Hbk.
  destruct (reachable_inv ops st Hty Hroom Hrun) as ((Hwf & [Hbooks _] & _) & _).
  pose proof (wf_book _ _ _ Hwf Hbk) as Hok.
  destruct (ladder_tidy_side sd _ _ _ (Hbooks _ _ Hbk)) as [Hs Hne].
  split; [|split].
  - eapply StronglySorted_weaken; [|exact Hs].
    intros p q H. simpl in H. by apply before_lt in H.
  - by destruct Hok as (_ & _ & ? & _).
  - intros p lv Hin. rewrite Forall_forall in Hne. split; [by apply (Hne (p, lv))|].
    intros id Hid. destruct (book_ok_side _ _ sd Hok) as [_ Hn].
    rewrite Forall_forall in Hn. specialize (Hn _ Hin). simpl in Hn.
    rewrite Forall_forall in Hn. destruct (Hn _ Hid) as [_ Ho].
    unfold OrderService.getOrder. destruct (orders_ st !! id) as [o|]; [|done].
    by exists o.
Qed.

Lemma ladders_in_price_order_witness :
  StronglySorted (λ p q, p < q) ((OrderBook.levels SELL book_after_session).*1)
  ∧ NoDup (restingIds book_after_session)
  ∧ ∀ p lv, (p, lv) ∈ OrderBook.levels SELL book_after_session ->
      PriceLevel.orders_ lv ≠ []
      ∧ ∀ id, id ∈ PriceLevel.orders_ lv ->
          ∃ o, OrderService.getOrder id after_session = Some o ∧ price o = p ∧ side o = SELL.
Proof.
  apply (ladders_in_price_order session after_session "X" book_after_session SELL);
    [by_eval | by_eval | by vm_compute | by vm_compute].
Defined.

(** * [processOrder], for an order that has just been accepted

    The state [st] satisfies the invariant [inv] (as every state the engine
    reaches does), and the order [order0] is registered under [oid],
    PENDING, unfilled and in no book: this is how [submitOrder] hands an
    order to [processOrder]. *)

(** X16.  Every trade is made with an order that rested in the book of the
    symbol, on the other side, at the price of that resting order; and this
    price is within the limit of the buy order and of the sell order, where
    they are limit orders.  The trades are handed to the trade callback. *)
Theorem trades_at_resting_price (st : Engine) (oid : Z) (order0 : Order)
    (trades : list Trade) (st' : Engine) :
  inv st -> rests_nowhere oid st ->
  orders_ st !! oid = Some order0 ->
  status order0 = PENDING -> filledQuantity order0 = 0 ->
  MatchingEngine.processOrder oid st = Some (trades, st') ->
  ∃ made,
    tradesOf st' = tradesOf st ++ made
    ∧ Forall (λ t, maker_priced (orders_ st) order0
                     (restingIds (default (OrderBook.new (symbol order0))
                                    (orderBooks_ st !! symbol order0))) t
                   ∧ within_limits (orders_ st) t) made.
Proof.
  intros Hinv Hr Ho Hp Hz Hrun.
  destruct (processOrder_processed _ _ _ _ _ Hinv Hr Ho Hp Hz Hrun) as (made & order & bk & Hpr).
  exists made. split; [apply Hpr | apply Hpr].
Qed.

Lemma trades_at_resting_price_witness :
  ∃ made,
    tradesOf sweep_result.2 = tradesOf sweep_accepted ++ made
    ∧ Forall (λ t, maker_priced (orders_ sweep_accepted) sweep
                     (restingIds (default (OrderBook.new (symbol sweep))
                                    (orderBooks_ sweep_accepted !! symbol sweep))) t
                   ∧ within_limits (orders_ sweep_accepted) t) made.
Proof.
  apply (trades_at_resting_price sweep_accepted 6 sweep sweep_result.1 sweep_result.2);
    [by_eval | by_eval | by vm_compute | by vm_compute | by vm_compute | by vm_compute].
Defined.

(** X17.  Every trade has a positive quantity, and the quantities of the
    trades add up to what is filled of the order afterwards, which is no
    more than was ordered. *)
Theorem fills_add_up (st : Engine) (oid : Z) (order0 : Order)
    (trades : list Trade) (st' : Engine) :
  inv st -> rests_nowhere oid st ->
  orders_ st !! oid = Some order0 ->
  status order0 = PENDING -> filledQuantity order0 = 0 ->
  MatchingEngine.processOrder oid st = Some (trades, st') ->
  ∃ made order,
    tradesOf st' = tradesOf st ++ made
    ∧ orders_ st' !! oid = Some order
    ∧ Forall (λ t, 0 < tradeQuantity t) made
    ∧ filledQuantity order = sumQty made
    ∧ sumQty made <= quantity order0.
Proof.
  intros Hinv Hr Ho Hp Hz Hrun.
  destruct (processOrder_processed _ _ _ _ _ Hinv Hr Ho Hp Hz Hrun) as (made & order & bk & Hpr).
  exists made, order.
  split; [apply Hpr|]. split; [apply Hpr|]. split; [apply Hpr|]. split; [apply Hpr|].
  destruct (wf_order _ _ _ (pr_wf _ _ _ _ _ _ _ _ Hpr) (pr_order _ _ _ _ _ _ _ _ Hpr))
    as (_ & _ & Hf).
  destruct (static_fields _ _ (pr_order_static _ _ _ _ _ _ _ _ Hpr))
    as (_ & _ & _ & _ & _ & _ & _ & Hq).
  rewrite <- (pr_filled _ _ _ _ _ _ _ _ Hpr), <- Hq. lia.
Qed.

Lemma fills_add_up_witness :
  ∃ made order,
    tradesOf sweep_result.2 = tradesOf sweep_accepted ++ made
    ∧ orders_ sweep_result.2 !! 6 = Some order
    ∧ Forall (λ t, 0 < tradeQuantity t) made
    ∧ filledQuantity order = sumQty made
    ∧ sumQty made <= quantity sweep.
Proof.
  apply (fills_add_up sweep_accepted 6 sweep sweep_result.1 sweep_result.2);
    [by_eval | by_eval | by vm_compute | by vm_compute | by vm_compute | by vm_compute].
Defined.

(** X18.  What [processOrder] returns are the trades it has handed to the
    trade callback, in that order, and their ids are the values of the
    trade counter one after the other.  The one exception is a FOK order
    that ends CANCELLED: the caller is given no trade, whatever reached the
    callback. *)
Theorem returned_trades_are_the_emitted (st : Engine) (oid : Z) (order0 : Order)
    (trades : list Trade) (st' : Engine) :
  inv st -> rests_nowhere oid st ->
  orders_ st !! oid = Some order0 ->
  status order0 = PENDING -> filledQuantity order0 = 0 ->
  MatchingEngine.processOrder oid st = Some (trades, st') ->
  ∃ made,
    tradesOf st' = tradesOf st ++ made
    ∧ (trades = made
       ∨ (timeInForce order0 = FOK ∧ trades = [] ∧ statusOf oid st' = Some CANCELLED))
    ∧ tradeId <$> made
      = (λ i, u64 (nextTradeId_ st + Z.of_nat i)) <$> seq 0 (length made)
    ∧ nextTradeId_ st' = u64 (nextTradeId_ st + Z.of_nat (length made)).
Proof.
  intros Hinv Hr Ho Hp Hz Hrun.
  destruct (processOrder_processed _ _ _ _ _ Hinv Hr Ho Hp Hz Hrun) as (made & order & bk & Hpr).
  exists made. split; [apply Hpr|]. split; [|split; apply Hpr].
  destruct (pr_returned _ _ _ _ _ _ _ _ Hpr) as [?|(? & ? & Hs)]; [by left|].
  right. split; [done|]. split; [done|].
  unfold statusOf. by rewrite (pr_order _ _ _ _ _ _ _ _ Hpr), <- Hs.
Qed.

Lemma returned_trades_are_the_emitted_witness :
  ∃ made,
    tradesOf sweep_result.2 = tradesOf sweep_accepted ++ made
    ∧ (sweep_result.1 = made
       ∨ (timeInForce sweep = FOK ∧ sweep_result.1 = []
          ∧ statusOf 6 sweep_result.2 = Some CANCELLED))
    ∧ tradeId <$> made
      = (λ i, u64 (nextTradeId_ sweep_accepted + Z.of_nat i)) <$> seq 0 (length made)
    ∧ nextTradeId_ sweep_result.2
      = u64 (nextTradeId_ sweep_accepted + Z.of_nat (length made)).
Proof.
  apply (returned_trades_are_the_emitted sweep_accepted 6 sweep sweep_result.1 sweep_result.2);
    [by_eval | by_eval | by vm_compute | by vm_compute | by vm_compute | by vm_compute].
Defined.

(** X19.  [processOrder] returns, and afterwards the order stands in the
    book of its symbol exactly when it is a GFD limit order with quantity
    left to fill, and in no other book; and nothing else has come into that
    book. *)
Theorem rests_iff_gfd_limit_unfilled (st : Engine) (oid : Z) (order0 : Order) :
  inv st -> rests_nowhere oid st ->
  orders_ st !! oid = Some order0 ->
  status order0 = PENDING -> filledQuantity order0 = 0 ->
  ∃ trades st' order bk,
    MatchingEngine.processOrder oid st = Some (trades, st')
    ∧ orders_ st' !! oid = Some order
    ∧ orderBooks_ st' !! symbol order0 = Some bk
    ∧ (oid ∈ restingIds bk
       <-> timeInForce order0 = GFD ∧ type order0 = LIMIT
           ∧ filledQuantity order < quantity order0)
    ∧ (∀ s b, s ≠ symbol order0 -> orderBooks_ st' !! s = Some b -> oid ∉ restingIds b)
    ∧ (∀ x, x ∈ restingIds bk ->
         x = oid ∨ x ∈ restingIds (default (OrderBook.new (symbol order0))
                                     (orderBooks_ st !! symbol order0))).
Proof.
  intros Hinv Hr Ho Hp Hz.
  destruct (processOrder_total _ _ _ Hinv Hr Ho Hp Hz)
    as (trades & made & st' & order & bk & Hrun & Hpr).
  exists trades, st', order, bk. split; [exact Hrun|].
  split; [apply Hpr|]. split; [apply Hpr|].
  split; [|split; apply Hpr].
  destruct (static_fields _ _ (pr_order_static _ _ _ _ _ _ _ _ Hpr))
    as (_ & _ & _ & _ & Hty & Htif & _ & Hq).
  split.
  - intros Hin. destruct (decide (comes_to_rest order)) as [(H1 & H2 & H3 & _)|Hno].
    + split; [congruence|]. split; [congruence|]. lia.
    + by destruct (pr_rests_not _ _ _ _ _ _ _ _ Hpr Hno).
  - intros (H1 & H2 & H3). apply (pr_rests _ _ _ _ _ _ _ _ Hpr).
    split; [congruence|]. split; [congruence|]. split; [lia|].
    pose proof (pr_status _ _ _ _ _ _ _ _ Hpr) as Hs. rewrite H1 in Hs. rewrite Hs.
    unfold matchedStatus. rewrite Hty, H2.
    destruct (quantity order <=? filledQuantity order); [done|].
    by destruct (0 <? filledQuantity order).
Qed.

Lemma rests_iff_gfd_limit_unfilled_witness :
  ∃ trades st' order bk,
    MatchingEngine.processOrder 6 sweep_accepted = Some (trades, st')
    ∧ orders_ st' !! 6 = Some order
    ∧ orderBooks_ st' !! symbol sweep = Some bk
    ∧ (6 ∈ restingIds bk
       <-> timeInForce sweep = GFD ∧ type sweep = LIMIT
           ∧ filledQuantity order < quantity sweep)
    ∧ (∀ s b, s ≠ symbol sweep -> orderBooks_ st' !! s = Some b -> 6 ∉ restingIds b)
    ∧ (∀ x, x ∈ restingIds bk ->
         x = 6 ∨ x ∈ restingIds (default (OrderBook.new (symbol sweep))
                                   (orderBooks_ sweep_accepted !! symbol sweep))).
Proof.
  apply (rests_iff_gfd_limit_unfilled sweep_accepted 6 sweep);
    [by_eval | by_eval | by vm_compute | by vm_compute | by vm_compute].
Defined.

(** X20.  [processOrder] returns, and the order is matched as far as the
    book allows: where it is not filled completely, the other side of the
    book is empty afterwards, or the order is a limit order and the best
    price of the other side is beyond its limit. *)
Theorem matched_as_far_as_possible (st : Engine) (oid : Z) (order0 : Order) :
  inv st -> rests_nowhere oid st ->
  orders_ st !! oid = Some order0 ->
  status order0 = PENDING -> filledQuantity order0 = 0 ->
  ∃ trades st' order bk,
    MatchingEngine.processOrder oid st = Some (trades, st')
    ∧ orders_ st' !! oid = Some order
    ∧ orderBooks_ st' !! symbol order0 = Some bk
    ∧ (filledQuantity order < quantity order0 -> out_of_reach order0 bk).
Proof.
  intros Hinv Hr Ho Hp Hz.
  destruct (processOrder_total _ _ _ Hinv Hr Ho Hp Hz)
    as (trades & made & st' & order & bk & Hrun & Hpr).
  exists trades, st', order, bk. split; [exact Hrun|].
  split; [apply Hpr|]. split; [apply Hpr|].
  pose proof (pr_order_static _ _ _ _ _ _ _ _ Hpr) as Hst.
  destruct (static_fields _ _ Hst) as (_ & _ & _ & _ & _ & _ & _ & Hq).
  intros Hopen. apply (out_of_reach_static order); [done|].
  apply (pr_reach _ _ _ _ _ _ _ _ Hpr). lia.
Qed.

Lemma matched_as_far_as_possible_witness :
  ∃ trades st' order bk,
    MatchingEngine.processOrder 6 sweep_accepted = Some (trades, st')
    ∧ orders_ st' !! 6 = Some order
    ∧ orderBooks_ st' !! symbol sweep = Some bk
    ∧ (filledQuantity order < quantity sweep -> out_of_reach sweep bk).
Proof.
  apply (matched_as_far_as_possible sweep_accepted 6 sweep);
    [by_eval | by_eval | by vm_compute | by vm_compute | by vm_compute].
Defined.

(** X21.  [processOrder] returns, and this is the status it leaves the order
    with.  A GFD order is FILLED, PARTIALLY_FILLED or, with nothing filled,
    PENDING as a limit order and CANCELLED as a market order.  An IOC order
    is FILLED, PARTIALLY_FILLED or, with nothing filled, CANCELLED.  A FOK
    order is FILLED, and then completely filled, or CANCELLED; it is
    CANCELLED whenever it is not completely filled. *)
Theorem status_after_processing (st : Engine) (oid : Z) (order0 : Order) :
  inv st -> rests_nowhere oid st ->
  orders_ st !! oid = Some order0 ->
  status order0 = PENDING -> filledQuantity order0 = 0 ->
  ∃ trades st' order,
    MatchingEngine.processOrder oid st = Some (trades, st')
    ∧ orders_ st' !! oid = Some order
    ∧ match timeInForce order0 with
      | GFD => status order = matchedStatus order
      | IOC => status order = iocStatus order
      | FOK => (status order = CANCELLED
                ∨ (status order = FILLED ∧ filledQuantity order = quantity order))
               ∧ (filledQuantity order < quantity order -> status order = CANCELLED)
      end.
Proof.
  intros Hinv Hr Ho Hp Hz.
  destruct (processOrder_total _ _ _ Hinv Hr Ho Hp Hz)
    as (trades & made & st' & order & bk & Hrun & Hpr).
  exists trades, st', order. split; [exact Hrun|]. split; [apply Hpr|].
  pose proof (pr_status _ _ _ _ _ _ _ _ Hpr) as Hs.
  destruct (wf_order _ _ _ (pr_wf _ _ _ _ _ _ _ _ Hpr) (pr_order _ _ _ _ _ _ _ _ Hpr))
    as (_ & _ & Hf).
  destruct (timeInForce order0); [done | done |].
  destruct Hs as [Hs|(Hs & Hq & _)].
  - split; [by left | done].
  - split; [right; split; [done | lia] | lia].
Qed.

Lemma status_after_processing_witness :
  ∃ trades st' order,
    MatchingEngine.processOrder 6 sweep_accepted = Some (trades, st')
    ∧ orders_ st' !! 6 = Some order
    ∧ match timeInForce sweep with
      | GFD => status order = matchedStatus order
      | IOC => status order = iocStatus order
      | FOK => (status order = CANCELLED
                ∨ (status order = FILLED ∧ filledQuantity order = quantity order))
               ∧ (filledQuantity order < quantity order -> status order = CANCELLED)
      end.
Proof.
  apply (status_after_processing sweep_accepted 6 sweep);
    [by_eval | by_eval | by vm_compute | by vm_compute | by vm_compute].
Defined.

(** * Cancelling *)

(** X22.  Cancelling an order that is PENDING or PARTIALLY_FILLED, in a
    state that satisfies the invariant: the call answers SUCCESS, the order
    is CANCELLED and stands in no book any more, every other order is as it
    was and keeps its place in its book, the order update is published, and
    the invariant holds again. *)
Theorem cancel_takes_order_off_the_book (st : Engine) (id : Z) (order : Order) :
  inv st ->
  orders_ st !! id = Some order ->
  active (status order) ->
  ∃ st',
    TradingEngine.cancelOrder id st = Some (SUCCESS, st')
    ∧ orders_ st' !! id = Some (set_status CANCELLED order)
    ∧ (∀ k, k ≠ id -> orders_ st' !! k = orders_ st !! k)
    ∧ (∀ s b', orderBooks_ st' !! s = Some b' ->
         (id ∉ restingIds b')
         ∧ restingIds b'
           = PriceLevel.erase id
               (restingIds (default (OrderBook.new s) (orderBooks_ st !! s))))
    ∧ emitted st' = emitted st ++ [OrderUpdate (set_status CANCELLED order)]
    ∧ inv st'.
Proof.
  intros Hinv Ho Hact.
  destruct (cancelOrder_spec id st Hinv) as (e & st' & Hrun & Hinv' & _ & _ & Hcase).
  rewrite Ho in Hcase. destruct Hcase as [_ Hcase].
  destruct (Hcase Hact) as (-> & Ho' & Hframe & Hbooks & Hem).
  exists st'. split; [done|]. split; [done|]. split; [done|].
  split; [|by split].
  intros s b' Hb'. split; [|by apply Hbooks].
  intros Hin.
  destruct Hinv' as (_ & [Ht _] & _).
  destruct (tidy_live _ _ _ _ (Ht _ _ Hb') Hin) as (o & Ho'' & _ & _ & _ & Hs & _).
  rewrite Ho' in Ho''. injection Ho'' as <-. simpl in Hs. by destruct Hs.
Qed.

Lemma cancel_takes_order_off_the_book_witness :
  ∃ st',
    TradingEngine.cancelOrder 5 after_session = Some (SUCCESS, st')
    ∧ orders_ st' !! 5
      = Some (set_status CANCELLED (mkOrder 5 1 "X" BUY LIMIT GFD 9800 1 0 PENDING))
    ∧ (∀ k, k ≠ 5 -> orders_ st' !! k = orders_ after_session !! k)
    ∧ (∀ s b', orderBooks_ st' !! s = Some b' ->
         (5 ∉ restingIds b')
         ∧ restingIds b'
           = PriceLevel.erase 5
               (restingIds (default (OrderBook.new s) (orderBooks_ after_session !! s))))
    ∧ emitted st'
      = emitted after_session
        ++ [OrderUpdate (set_status CANCELLED (mkOrder 5 1 "X" BUY LIMIT GFD 9800 1 0 PENDING))]
    ∧ inv st'.
Proof.
  apply (cancel_takes_order_off_the_book after_session 5);
    [by_eval | by vm_compute | by_eval].
Defined.

(** * The order book *)

Section BookOps.
Implicit Types (l : list (Z * PriceLevel.t)) (lv : PriceLevel.t).

Lemma erase_put before p lv l :
  OrderBook.find p l = None -> OrderBook.erase p (OrderBook.put before p lv l) = l.
Proof.
  induction l as [|[q lq] l IH]; simpl.
  - intros _. by destruct (decide (p = p)).
  - destruct (decide (q = p)) as [->|Hne]; [done|]. intros H.
    destruct (before p q); simpl.
    + by destruct (decide (p = p)).
    + destruct (decide (q = p)); [done|]. by rewrite IH.
Qed.

Lemma find_put before p lv l :
  OrderBook.find p l = None -> OrderBook.find p (OrderBook.put before p lv l) = Some lv.
Proof.
  induction l as [|[q lq] l IH]; simpl.
  - intros _. by destruct (decide (p = p)).
  - destruct (decide (q = p)) as [->|Hne]; [done|]. intros H.
    destruct (before p q); simpl.
    + by destruct (decide (p = p)).
    + destruct (decide (q = p)); [done|]. by apply IH.
Qed.

Lemma find_update p lv lv' l :
  OrderBook.find p l = Some lv -> OrderBook.find p (OrderBook.update p lv' l) = Some lv'.
Proof.
  induction l as [|[q lq] l IH]; simpl; [done|].
  destruct (decide (q = p)) as [->|Hne]; simpl.
  - intros _. by destruct (decide (p = p)).
  - intros H. destruct (decide (q = p)); [done|]. by apply IH.
Qed.

Lemma update_update p lv lv' l :
  OrderBook.update p lv (OrderBook.update p lv' l) = OrderBook.update p lv l.
Proof.
  induction l as [|[q lq] l IH]; simpl; [done|].
  destruct (decide (q = p)) as [->|Hne]; simpl.
  - by destruct (decide (p = p)).
  - destruct (decide (q = p)); [done|]. by rewrite IH.
Qed.

Lemma update_same p lv l : OrderBook.find p l = Some lv -> OrderBook.update p lv l = l.
Proof.
  induction l as [|[q lq] l IH]; simpl; [done|].
  destruct (decide (q = p)) as [->|Hne].
  - by intros [= ->].
  - intros H. by rewrite IH.
Qed.

Lemma erase_back id ids : id ∉ ids -> PriceLevel.erase id (ids ++ [id]) = ids.
Proof.
  intros H. rewrite erase_app_r by done. simpl.
  destruct (decide (id = id)); [|done]. by rewrite app_nil_r.
Qed.

Lemma u64_add_back t u : in_u64 t -> u64 (u64 (t + u) - u) = t.
Proof.
  intros Ht. unfold u64. rewrite Zminus_mod_idemp_l.
  replace (t + u - u) with t by lia. apply Z.mod_small. exact Ht.
Qed.

End BookOps.

(** X23.  Taking an order out of a book it has just been added to gives the
    book back as it was, quantity of the level included.  (The order is
    registered and unknown to the book; a level at its price, if there is
    one, is not empty and its quantity is a [uint64_t] value.) *)
Theorem add_then_remove_restores (store : gmap Z Order) (o : Order) (bk : OrderBook.t) :
  store !! orderId o = Some o ->
  orderId o ∉ OrderBook.orderMap_ bk ->
  (∀ lv, OrderBook.find (price o) (OrderBook.levels (side o) bk) = Some lv ->
         PriceLevel.orders_ lv ≠ [] ∧ (orderId o ∉ PriceLevel.orders_ lv)
         ∧ in_u64 (PriceLevel.totalQuantity_ lv)) ->
  OrderBook.removeOrder store (orderId o) (side o) (OrderBook.addOrder o bk)
  = Some (true, bk).
Proof.
  intros Ho Hnew Hlevel.
  assert (Hmap : ({[orderId o]} ∪ OrderBook.orderMap_ bk) ∖ {[orderId o]}
                 = OrderBook.orderMap_ bk).
  { apply set_eq. intros x. rewrite elem_of_difference, elem_of_union, elem_of_singleton.
    split; [tauto|]. intros Hx. split; [by right|]. by intros ->. }
  assert (Hback : ∀ l l',
            OrderBook.set_orderMap (OrderBook.orderMap_ bk)
              (OrderBook.set_levels (side o) l
                 (OrderBook.set_levels (side o) l'
                    (OrderBook.set_orderMap ({[orderId o]} ∪ OrderBook.orderMap_ bk) bk)))
            = OrderBook.set_levels (side o) l bk).
  { intros l l'. destruct bk. by destruct (side o). }
  assert (Hid : ∀ sd, OrderBook.set_levels sd (OrderBook.levels sd bk) bk = bk).
  { intros sd. destruct bk. by destruct sd. }
  unfold OrderBook.removeOrder, OrderBook.addOrder.
  assert (Hl : OrderBook.levels (side o)
                 (OrderBook.set_orderMap ({[orderId o]} ∪ OrderBook.orderMap_ bk) bk)
               = OrderBook.levels (side o) bk) by by destruct (side o).
  rewrite Hl.
  destruct (OrderBook.find (price o) (OrderBook.levels (side o) bk)) as [lv|] eqn:Hfind.
  - destruct (Hlevel lv eq_refl) as (Hne & Hout & Htot).
    set (bk1 := OrderBook.set_levels _ _ _).
    assert (Hm1 : OrderBook.orderMap_ bk1 = {[orderId o]} ∪ OrderBook.orderMap_ bk).
    { unfold bk1. by destruct (side o). }
    assert (Hl1 : OrderBook.levels (side o) bk1
                  = OrderBook.update (price o) (PriceLevel.addOrder o lv)
                      (OrderBook.levels (side o) bk)).
    { unfold bk1. by destruct (side o). }
    destruct (decide (orderId o ∈ OrderBook.orderMap_ bk1)) as [_|Hn].
    2: { exfalso. apply Hn. rewrite Hm1. apply elem_of_union. left. by apply elem_of_singleton. }
    rewrite Ho. simpl. rewrite Hl1, (find_update _ lv) by done. simpl.
    unfold PriceLevel.removeOrder. simpl.
    destruct (decide (orderId o ∈ PriceLevel.orders_ lv ++ [orderId o])) as [_|Hn].
    2: { exfalso. apply Hn. apply elem_of_app. right. by left. }
    rewrite Ho. simpl. rewrite erase_back by done. rewrite u64_add_back by done.
    unfold PriceLevel.isEmpty. simpl.
    destruct (PriceLevel.orders_ lv) as [|x xs] eqn:E; [done|].
    rewrite update_update.
    assert (Hlv : PriceLevel.mk (PriceLevel.price_ lv) (PriceLevel.totalQuantity_ lv) (x :: xs)
                  = lv).
    { destruct lv. simpl in *. by rewrite E. }
    rewrite Hlv, (update_same _ _ _ Hfind). rewrite Hm1, Hmap.
    f_equal. f_equal. unfold bk1. rewrite Hback. apply Hid.
  - set (bk1 := OrderBook.set_levels _ _ _).
    assert (Hm1 : OrderBook.orderMap_ bk1 = {[orderId o]} ∪ OrderBook.orderMap_ bk).
    { unfold bk1. by destruct (side o). }
    assert (Hl1 : OrderBook.levels (side o) bk1
                  = OrderBook.put (OrderBook.before (side o)) (price o)
                      (PriceLevel.addOrder o (PriceLevel.new (price o)))
                      (OrderBook.levels (side o) bk)).
    { unfold bk1. by destruct (side o). }
    destruct (decide (orderId o ∈ OrderBook.orderMap_ bk1)) as [_|Hn].
    2: { exfalso. apply Hn. rewrite Hm1. apply elem_of_union. left. by apply elem_of_singleton. }
    rewrite Ho. simpl. rewrite Hl1, find_put by done. simpl.
    unfold PriceLevel.removeOrder. simpl.
    destruct (decide (orderId o ∈ [orderId o])) as [_|Hn].
    2: { exfalso. apply Hn. by left. }
    rewrite Ho. simpl. destruct (decide (orderId o = orderId o)); [|done].
    unfold PriceLevel.isEmpty. simpl.
    rewrite erase_put by done. rewrite Hm1, Hmap.
    f_equal. f_equal. unfold bk1. rewrite Hback. apply Hid.
Qed.

Lemma add_then_remove_restores_witness :
  OrderBook.removeOrder
    (<[7 := mkOrder 7 1 "X" BUY LIMIT GFD 9800 2 0 PENDING]> (orders_ after_session))
    7 BUY
    (OrderBook.addOrder (mkOrder 7 1 "X" BUY LIMIT GFD 9800 2 0 PENDING) book_after_session)
  = Some (true, book_after_session).
Proof.
  apply (add_then_remove_restores
           (<[7 := mkOrder 7 1 "X" BUY LIMIT GFD 9800 2 0 PENDING]> (orders_ after_session))
           (mkOrder 7 1 "X" BUY LIMIT GFD 9800 2 0 PENDING) book_after_session).
  - by vm_compute.
  - by_eval.
  - intros lv H. vm_compute in H. injection H as <-.
    split; [done|]. split; by_eval.
Defined.

Lemma before_irrefl sd p : OrderBook.before sd p p = false.
Proof.
  destruct sd; unfold OrderBook.before, OrderBook.greater, OrderBook.less; apply Z.ltb_irrefl.
Qed.

(** A price that comes before the first price of a sorted ladder is not a
    price of the ladder. *)
Lemma sorted_find_before sd p best lv (r : list (Z * PriceLevel.t)) :
  StronglySorted (λ p q, OrderBook.before sd p q = true) (((best, lv) :: r).*1) ->
  OrderBook.before sd p best = true ->
  OrderBook.find p r = None.
Proof.
  intros Hs Hb. simpl in Hs. apply StronglySorted_cons in Hs as [Hall _].
  destruct (OrderBook.find p r) as [lv'|] eqn:E; [|done]. exfalso.
  apply find_Some_elem_of in E.
  rewrite Forall_forall in Hall.
  assert (Hin : p ∈ r.*1). { apply list_elem_of_fmap. by exists (p, lv'). }
  specialize (Hall p Hin). simpl in Hall.
  pose proof (before_trans sd p best p Hb Hall) as Hpp. by rewrite before_irrefl in Hpp.
Qed.

(** X24.  Price-time priority of [addOrder], on a ladder in price order with
    no empty level: the order goes to the back of the level at its price
    (a new level if there is none); it becomes the best order of its side
    only if that side was empty or its price is strictly better than the
    best price; and the other side is not touched. *)
Theorem addOrder_keeps_time_priority (o : Order) (bk : OrderBook.t) :
  ladder_tidy (side o) (OrderBook.levels (side o) bk) ->
  let l := OrderBook.levels (side o) bk in
  let l' := OrderBook.levels (side o) (OrderBook.addOrder o bk) in
  (∃ lv', OrderBook.find (price o) l' = Some lv'
          ∧ PriceLevel.orders_ lv'
            = from_option PriceLevel.orders_ [] (OrderBook.find (price o) l) ++ [orderId o])
  ∧ OrderBook.bestOrder l'
    = match l with
      | [] => Some (orderId o)
      | (best, _) :: _ =>
          if OrderBook.before (side o) (price o) best then Some (orderId o)
          else OrderBook.bestOrder l
      end
  ∧ OrderBook.levels (opposite (side o)) (OrderBook.addOrder o bk)
    = OrderBook.levels (opposite (side o)) bk.
Proof.
  intros [Hs Hne] l l'.
  assert (Hl' : l' = match OrderBook.find (price o) l with
                     | None => OrderBook.put (OrderBook.before (side o)) (price o)
                                 (PriceLevel.addOrder o (PriceLevel.new (price o))) l
                     | Some lv => OrderBook.update (price o) (PriceLevel.addOrder o lv) l
                     end).
  { unfold l', l, OrderBook.addOrder.
    assert (Hl : OrderBook.levels (side o)
                   (OrderBook.set_orderMap ({[orderId o]} ∪ OrderBook.orderMap_ bk) bk)
                 = OrderBook.levels (side o) bk) by by destruct (side o).
    rewrite Hl. destruct (OrderBook.find _ _); by destruct (side o). }
  split; [|split].
  - rewrite Hl'. destruct (OrderBook.find (price o) l) as [lv|] eqn:E.
    + exists (PriceLevel.addOrder o lv). split; [by apply (find_update _ lv) | done].
    + exists (PriceLevel.addOrder o (PriceLevel.new (price o))).
      split; [by apply find_put | done].
  - rewrite Hl'. fold l in Hs, Hne. clearbody l. clear Hl' l'.
    destruct l as [|[best lv] r]; [done|].
    apply Forall_cons in Hne as [Hlv _]. simpl in Hlv.
    assert (Hfront : ∀ x, head (PriceLevel.orders_ lv ++ [x]) = head (PriceLevel.orders_ lv)).
    { intros x. by destruct (PriceLevel.orders_ lv). }
    simpl. destruct (decide (best = price o)) as [->|Hnb].
    + rewrite before_irrefl. simpl. unfold PriceLevel.getFirstOrder. simpl.
      destruct (decide (price o = price o)); [|done]. simpl. apply Hfront.
    + destruct (OrderBook.before (side o) (price o) best) eqn:Hb.
      * rewrite (sorted_find_before _ _ _ _ _ Hs Hb). simpl.
        destruct (decide (best = price o)); [done|]. by rewrite ?Hb.
      * destruct (OrderBook.find (price o) r) as [lv2|]; simpl.
        -- by destruct (decide (best = price o)).
        -- destruct (decide (best = price o)); [done|]. by rewrite ?Hb.
  - by destruct (addOrder_shape o bk) as (_ & _ & _ & _ & _ & _ & _ & Hopp & _).
Qed.

Lemma addOrder_keeps_time_priority_witness :
  let o := mkOrder 7 2 "X" SELL LIMIT GFD 10000 2 0 PENDING in
  let l := OrderBook.levels (side o) book_after_session in
  let l' := OrderBook.levels (side o) (OrderBook.addOrder o book_after_session) in
  (∃ lv', OrderBook.find (price o) l' = Some lv'
          ∧ PriceLevel.orders_ lv'
            = from_option PriceLevel.orders_ [] (OrderBook.find (price o) l) ++ [orderId o])
  ∧ OrderBook.bestOrder l'
    = match l with
      | [] => Some (orderId o)
      | (best, _) :: _ =>
          if OrderBook.before (side o) (price o) best then Some (orderId o)
          else OrderBook.bestOrder l
      end
  ∧ OrderBook.levels (opposite (side o)) (OrderBook.addOrder o book_after_session)
    = OrderBook.levels (opposite (side o)) book_after_session.
Proof.
  apply (addOrder_keeps_time_priority (mkOrder 7 2 "X" SELL LIMIT GFD 10000 2 0 PENDING)
           book_after_session).
  by_eval.
Defined.
